(** * Phase property engine of [thermo/phases.py]: a shallow embedding

    The Python classes [Phase], [IdealGas], [EOSGas] and [GibbsExcessLiquid]
    are embedded as functions over one record of attributes, [PhaseObj].
    A method is a state-and-exception computation on its receiver: it reads
    attributes, may store memoized values in the receiver (the [_name]
    attributes that the source adds on first use), and either returns a value
    or raises a Python exception.

    Numbers: Python floats are idealised as real numbers.  The partial
    operations of the source keep their failure modes: [log] raises
    [ValueError] outside its domain, [/] raises [ZeroDivisionError], indexing
    raises [IndexError], a missing attribute raises [AttributeError] and an
    unbound name raises [NameError]. *)

From Stdlib Require Import Reals Lra List Bool.
From stdpp Require Import gmap strings.
Import ListNotations.

Local Open Scope R_scope.
Local Open Scope string_scope.

(** ** Python exceptions and results *)

Inductive exn : Type :=
| AttributeError
| ValueError
| NameError
| ZeroDivisionError
| IndexError
| TypeError.

Inductive result (A : Type) : Type :=
| Ok (a : A)
| Raise (e : exn).
Arguments Ok {A} a.
Arguments Raise {A} e.

Definition is_AttributeError (e : exn) : bool :=
  match e with AttributeError => true | _ => false end.
Definition is_ValueError (e : exn) : bool :=
  match e with ValueError => true | _ => false end.
(** A bare [except:] clause. *)
Definition any_exception (e : exn) : bool := true.

Definition is_Ok {A} (r : result A) : bool :=
  match r with Ok _ => true | Raise _ => false end.

(** ** Partial arithmetic of the source *)

(** [math.log]: a [ValueError] for a non-positive argument. *)
Definition log (x : R) : result R :=
  if Rlt_dec 0 x then Ok (ln x) else Raise ValueError.

(** Float division: a [ZeroDivisionError] for a zero divisor. *)
Definition div (a b : R) : result R :=
  if Req_dec_T b 0 then Raise ZeroDivisionError else Ok (a / b).

(** [xs[i]] for a non-negative index. *)
Definition getitem {A} (xs : list A) (i : nat) : result A :=
  match xs !! i with
  | Some x => Ok x
  | None => Raise IndexError
  end.

(** [range(n)] *)
Definition range (n : nat) : list nat := seq 0 n.

(** [horner(coeffs, x)] of fluids.numerics, the loop
    [tot = 0.0; for c in coeffs: tot = tot*x + c] that the source also
    writes inline. *)
Definition horner (coeffs : list R) (x : R) : R :=
  fold_left (fun tot c => tot * x + c) coeffs 0.

(** ** Collaborating objects *)

(** Modelled from the spec: the pure-component correlation objects
    (thermo.utils.TDependentProperty and its subclasses, not under src/):
    evaluate, derivative, integral, integral over T, the [locked] flag and,
    for a locked object, the coefficient arrays of its fit.  Calling the
    object may give [None], which the source tests for. *)
Record TDependentProperty : Type := {
  locked : bool;
  Tmax : R;
  call : R -> option R;
  extrapolate_tabular : R -> R;
  T_dependent_property : R -> R;
  T_dependent_property_derivative : R -> nat -> R;
  T_dependent_property_integral : R -> R -> R;
  T_dependent_property_integral_over_T : R -> R -> R;
  best_fit_Tmin : R;
  best_fit_Tmin_slope : R;
  best_fit_Tmin_value : R;
  best_fit_Tmax : R;
  best_fit_Tmax_slope : R;
  best_fit_Tmax_value : R;
  best_fit_log_coeff : R;
  best_fit_coeffs : list R;
  best_fit_d_coeffs : list R;
  best_fit_d2_coeffs : list R;
  best_fit_int_coeffs : list R;
  best_fit_T_int_T_coeffs : list R;
  best_fit_Tc : R;
  Tait_data : list (list R) * list (list R)
}.

(** The 16-entry tuple [Cpgs_data] / [Cpls_data] built by [setup_Cpigs];
    field [Cps_k] is entry [k] of the tuple. *)
Record CpsData : Type := {
  Cps_0 : list R;   (* Tmin *)
  Cps_1 : list R;   (* Tmin_slope *)
  Cps_2 : list R;   (* Tmin_value *)
  Cps_3 : list R;   (* Tmax *)
  Cps_4 : list R;   (* Tmax_slope *)
  Cps_5 : list R;   (* Tmax_value *)
  Cps_6 : list R;   (* log_coeff *)
  Cps_7 : list R;
  Cps_8 : list R;
  Cps_9 : list R;
  Cps_10 : list R;
  Cps_11 : list R;
  Cps_12 : list (list R);  (* coeffs *)
  Cps_13 : list (list R);  (* int_coeffs *)
  Cps_14 : list (list R);  (* T_int_T_coeffs *)
  Cps_15 : list R
}.

(** The 9-entry tuples [Psats_data], [Vms_sat_data], [Tait_B_data] and
    [Tait_C_data]. *)
Record FitsData : Type := {
  fit_0 : list R;   (* Tmin *)
  fit_1 : list R;   (* Tmin_slope *)
  fit_2 : list R;   (* Tmin_value *)
  fit_3 : list R;   (* Tmax *)
  fit_4 : list R;   (* Tmax_slope *)
  fit_5 : list R;   (* Tmax_value *)
  fit_6 : list (list R);  (* coeffs *)
  fit_7 : list (list R);  (* d_coeffs *)
  fit_8 : list (list R)   (* d2_coeffs *)
}.

(** The 5-entry tuple [Hvap_data]. *)
Record HvapData : Type := {
  Hvap_0 : list R;  (* Tmin *)
  Hvap_1 : list R;  (* Tmax *)
  Hvap_2 : list R;  (* Tc *)
  Hvap_3 : list R;  (* 1/Tc *)
  Hvap_4 : list (list R)   (* coeffs *)
}.

(** Modelled from the spec: one branch (root) of the cubic equation of state
    (thermo.eos_mix, not under src/).  The attributes [V_g], [dP_dT_g], ...
    of the mixture object exist exactly when the gas root does, and likewise
    [_l] for the liquid root. *)
Record EosRoot : Type := {
  root_Z : R;
  root_V : R;
  root_dP_dT : R;
  root_dP_dV : R;
  root_d2P_dT2 : R;
  root_d2P_dV2 : R;
  root_d2P_dTdV : R;
  root_H_dep : R;
  root_S_dep : R;
  root_Cp_dep : R;
  root_dlnphis_dT : list R;
  root_dlnphis_dP : list R
}.

(** Modelled from the spec: the equation-of-state mixture object. *)
Record EosMix : Type := {
  eos_T : R;
  eos_P : R;
  eos_zs : list R;
  root_g : option EosRoot;
  root_l : option EosRoot
}.

(** Modelled from the spec: the activity-coefficient model
    (thermo.activity, not under src/): its evaluation functions together with
    the state [(T, xs)] it is evaluated at. *)
Record GibbsExcess : Type := {
  GE_T : R;
  GE_xs : list R;
  GE_HE : R -> list R -> R;
  GE_SE : R -> list R -> R;
  GE_CpE : R -> list R -> R
}.

Definition to_T_xs (m : GibbsExcess) (T : R) (xs : list R) : GibbsExcess :=
  {| GE_T := T; GE_xs := xs;
     GE_HE := GE_HE m; GE_SE := GE_SE m; GE_CpE := GE_CpE m |}.
Definition HE (m : GibbsExcess) : R := GE_HE m (GE_T m) (GE_xs m).
Definition SE (m : GibbsExcess) : R := GE_SE m (GE_T m) (GE_xs m).
Definition CpE (m : GibbsExcess) : R := GE_CpE m (GE_T m) (GE_xs m).

(** ** The phase object *)

Inductive phase_class : Type :=
| IdealGas
| EOSGas
| EOSLiquid
| GibbsExcessLiquid
| GibbsExcessSolid.

(** The attributes of a phase object.  An [option] at the top of a field of
    the first group is an attribute that may be absent from the object
    (reading it raises [AttributeError]); in the other groups [None] is
    Python's [None].  [float_attrs] and [list_attrs] hold the memoized
    [_name] attributes, which the source adds to the object on first use. *)
Record PhaseObj : Type := mkPhase {
  cls : phase_class;
  (* state; attribute absent when [None] *)
  obj_T : option R;
  obj_P : option R;
  obj_zs : option (list R);
  obj_N : option nat;
  obj_cmps : option (list nat);
  eos_mix : option EosMix;
  eos_pures_STP : option (list EosMix);
  (* shared, state-independent data *)
  HeatCapacityGases : option (list TDependentProperty);
  Hfs : option (list R);
  Gfs : option (list R);
  Sfs : option (list R);
  Cpgs_locked : bool;
  Cpgs_data : option CpsData;
  eos_class : string;
  eos_kwargs : gmap string (list R);
  VaporPressures : option (list TDependentProperty);
  VolumeLiquids : option (list TDependentProperty);
  EnthalpyVaporizations : option (list TDependentProperty);
  HeatCapacityLiquids : option (list TDependentProperty);
  eos_pure_instances : option (list EosMix);
  Psats_locked : bool;
  Psats_data : option FitsData;
  Cpls_locked : bool;
  Cpls_data : option CpsData;
  Vms_sat_locked : bool;
  Vms_sat_data : option FitsData;
  Hvap_locked : bool;
  Hvap_data : option HvapData;
  use_phis_sat : bool;
  use_Poynting : bool;
  P_DEPENDENT_H_LIQ : bool;
  use_IG_Cp : bool;
  use_Tait : bool;
  Tait_B_data : option FitsData;
  Tait_C_data : option FitsData;
  henry_data : option (list (list (option (list R))));
  henry_components : list bool;
  has_henry_components : bool;
  GibbsExcessModel : GibbsExcess;
  (* memoized attributes *)
  float_attrs : gmap string R;
  list_attrs : gmap string (list R)
}.

Definition with_attrs (fa : gmap string R) (la : gmap string (list R))
    (o : PhaseObj) : PhaseObj :=
  {| cls := cls o; obj_T := obj_T o; obj_P := obj_P o; obj_zs := obj_zs o;
     obj_N := obj_N o; obj_cmps := obj_cmps o; eos_mix := eos_mix o;
     eos_pures_STP := eos_pures_STP o;
     HeatCapacityGases := HeatCapacityGases o; Hfs := Hfs o; Gfs := Gfs o;
     Sfs := Sfs o; Cpgs_locked := Cpgs_locked o; Cpgs_data := Cpgs_data o;
     eos_class := eos_class o; eos_kwargs := eos_kwargs o;
     VaporPressures := VaporPressures o; VolumeLiquids := VolumeLiquids o;
     EnthalpyVaporizations := EnthalpyVaporizations o;
     HeatCapacityLiquids := HeatCapacityLiquids o;
     eos_pure_instances := eos_pure_instances o;
     Psats_locked := Psats_locked o; Psats_data := Psats_data o;
     Cpls_locked := Cpls_locked o; Cpls_data := Cpls_data o;
     Vms_sat_locked := Vms_sat_locked o; Vms_sat_data := Vms_sat_data o;
     Hvap_locked := Hvap_locked o; Hvap_data := Hvap_data o;
     use_phis_sat := use_phis_sat o; use_Poynting := use_Poynting o;
     P_DEPENDENT_H_LIQ := P_DEPENDENT_H_LIQ o; use_IG_Cp := use_IG_Cp o;
     use_Tait := use_Tait o; Tait_B_data := Tait_B_data o;
     Tait_C_data := Tait_C_data o; henry_data := henry_data o;
     henry_components := henry_components o;
     has_henry_components := has_henry_components o;
     GibbsExcessModel := GibbsExcessModel o;
     float_attrs := fa; list_attrs := la |}.

(** ** Methods: state and exceptions over the receiver *)

Definition Method (A : Type) : Type := PhaseObj -> result A * PhaseObj.

Definition ret {A} (a : A) : Method A := fun self => (Ok a, self).
Definition raise {A} (e : exn) : Method A := fun self => (Raise e, self).
Definition lift {A} (r : result A) : Method A := fun self => (r, self).

Definition bind {A B} (m : Method A) (k : A -> Method B) : Method B :=
  fun self =>
    match m self with
    | (Ok a, self') => k a self'
    | (Raise e, self') => (Raise e, self')
    end.

Notation "x <- m ;; k" := (bind m (fun x => k))
  (at level 100, m at next level, right associativity).
Notation "m ;;; k" := (bind m (fun _ => k))
  (at level 100, right associativity).

(** [try: m except E: h], where [catches] says which exceptions [E] names. *)
Definition try_except {A} (m : Method A) (catches : exn -> bool)
    (h : Method A) : Method A :=
  fun self =>
    match m self with
    | (Ok a, self') => (Ok a, self')
    | (Raise e, self') => if catches e then h self' else (Raise e, self')
    end.

(** [for x in xs: acc = body(x, acc)] *)
Fixpoint for_each {A B} (xs : list A) (body : A -> B -> Method B) (acc : B)
    : Method B :=
  match xs with
  | [] => ret acc
  | x :: xs' => acc' <- body x acc ;; for_each xs' body acc'
  end.

(** [[f(x) for x in xs]] *)
Fixpoint comprehension {A B} (f : A -> Method B) (xs : list A)
    : Method (list B) :=
  match xs with
  | [] => ret []
  | x :: xs' => y <- f x ;; ys <- comprehension f xs' ;; ret (y :: ys)
  end.

(** Reading an attribute that may be absent, and Python's [None]. *)
Definition attr {A} (f : PhaseObj -> option A) : Method A :=
  fun self =>
    match f self with
    | Some a => (Ok a, self)
    | None => (Raise AttributeError, self)
    end.
Definition field {A} (f : PhaseObj -> A) : Method A :=
  fun self => (Ok (f self), self).
Definition not_None {A} (o : option A) : Method A :=
  match o with
  | Some a => ret a
  | None => raise TypeError
  end.

(** The memoized attributes. *)
Definition getattr_float (name : string) : Method R :=
  fun self =>
    match float_attrs self !! name with
    | Some v => (Ok v, self)
    | None => (Raise AttributeError, self)
    end.
Definition setattr_float (name : string) (v : R) : Method unit :=
  fun self =>
    (Ok tt, with_attrs (<[name := v]> (float_attrs self)) (list_attrs self) self).
Definition getattr_list (name : string) : Method (list R) :=
  fun self =>
    match list_attrs self !! name with
    | Some v => (Ok v, self)
    | None => (Raise AttributeError, self)
    end.
Definition setattr_list (name : string) (v : list R) : Method unit :=
  fun self =>
    (Ok tt, with_attrs (float_attrs self) (<[name := v]> (list_attrs self)) self).
(** [self._name.append(v)], for a list that a local variable aliases. *)
Definition append_attr (name : string) (v : R) : Method unit :=
  l <- getattr_list name ;; setattr_list name (l ++ [v]).

(** ** class Phase *)

Definition T_REF_IG : R := 298.15.
Definition T_REF_IG_INV : R := 1.0 / T_REF_IG.
Definition P_REF_IG : R := 101325.
Definition P_REF_IG_INV : R := 1.0 / P_REF_IG.

(** The floor [log(1e-300)] of [log_zs]. *)
Definition log_floor : R := -690.7755278982137.

Definition Phase_log_zs : Method (list R) :=
  try_except (getattr_list "_log_zs") is_AttributeError
    (try_except
       (zs <- attr obj_zs ;;
        l <- comprehension (fun zi => lift (log zi)) zs ;;
        setattr_list "_log_zs" l)
       is_ValueError
       (setattr_list "_log_zs" [] ;;;
        zs <- attr obj_zs ;;
        for_each zs
          (fun zi (_ : unit) =>
             try_except
               (v <- lift (log zi) ;; append_attr "_log_zs" v)
               is_ValueError
               (append_attr "_log_zs" log_floor))
          tt) ;;;
     getattr_list "_log_zs").

(** Exceptions without state, for the arithmetic inside one loop body. *)
Definition rbind {A B} (r : result A) (k : A -> result B) : result B :=
  match r with
  | Ok a => k a
  | Raise e => Raise e
  end.
Notation "x <~ r ;; k" := (rbind r (fun x => k))
  (at level 100, r at next level, right associativity).

Definition value_of (r : result R) : R :=
  match r with
  | Ok v => v
  | Raise _ => 0
  end.

(** [sum(xs)] *)
Definition sum (xs : list R) : R := fold_left Rplus xs 0.

(** [xs[i] = v] on a list: an [IndexError] out of range. *)
Definition setitem {A} (xs : list A) (i : nat) (v : A) : result (list A) :=
  if (i <? length xs)%nat then Ok (<[i := v]> xs) else Raise IndexError.

Section Engine.

(** The gas constant [R] of fluids.constants. *)
Variable Rgas : R.

(** The helpers of fluids.numerics that the source imports and that are not
    part of this repository. *)
Variable horner_log : list R -> R -> R -> result R.
Variable best_fit_integral_value :
  R -> list R -> R -> R -> R -> R -> R -> R -> result R.
Variable best_fit_integral_over_T_value :
  R -> list R -> R -> R -> R -> R -> R -> R -> R -> result R.
Variable evaluate_linear_fits : option FitsData -> R -> result (list R).
Variable evaluate_linear_fits_d : option FitsData -> R -> result (list R).
Variable evaluate_linear_fits_d2 : option FitsData -> R -> result (list R).

(** The operations of the equation-of-state classes of thermo.eos_mix: the
    class called with two of [T], [P], [V] as keywords, and the two
    state-transforms of an existing mixture object. *)
Variable eos_class_call :
  string -> gmap string (list R) -> option R -> option R -> option R ->
  list R -> result EosMix.
Variable to_TP_zs_fast : EosMix -> R -> R -> list R -> result EosMix.
Variable to_TV_zs : EosMix -> option R -> option R -> R -> list R -> result EosMix.
Variable fugacity_coefficients : EosMix -> R -> list R -> list R.

(** *** setup_Cpigs *)

Definition all_locked (objs : list TDependentProperty) : bool :=
  forallb locked objs.

(** One entry of each of the computed columns 7 to 11 and 15. *)
Definition setup_7 (i : TDependentProperty) : R :=
  horner (best_fit_int_coeffs i) (best_fit_Tmin i)
  - best_fit_Tmin i * (0.5 * best_fit_Tmin_slope i * best_fit_Tmin i
                       + best_fit_Tmin_value i
                       - best_fit_Tmin_slope i * best_fit_Tmin i).
Definition setup_8 (i : TDependentProperty) : R :=
  horner (best_fit_int_coeffs i) (best_fit_Tmax i)
  - horner (best_fit_int_coeffs i) (best_fit_Tmin i)
  + best_fit_Tmin i * (0.5 * best_fit_Tmin_slope i * best_fit_Tmin i
                       + best_fit_Tmin_value i
                       - best_fit_Tmin_slope i * best_fit_Tmin i).
Definition setup_9 (i : TDependentProperty) : result R :=
  h <~ horner_log (best_fit_T_int_T_coeffs i) (best_fit_log_coeff i)
         (best_fit_Tmin i) ;;
  lg <~ log (best_fit_Tmin i) ;;
  Ok (h - (best_fit_Tmin_slope i * best_fit_Tmin i
           + (best_fit_Tmin_value i
              - best_fit_Tmin_slope i * best_fit_Tmin i) * lg)).
Definition setup_10 (i : TDependentProperty) : result R :=
  hmax <~ horner_log (best_fit_T_int_T_coeffs i) (best_fit_log_coeff i)
            (best_fit_Tmax i) ;;
  hmin <~ horner_log (best_fit_T_int_T_coeffs i) (best_fit_log_coeff i)
            (best_fit_Tmin i) ;;
  lgmin <~ log (best_fit_Tmin i) ;;
  lgmax <~ log (best_fit_Tmax i) ;;
  Ok (hmax - hmin
      + (best_fit_Tmin_slope i * best_fit_Tmin i
         + (best_fit_Tmin_value i
            - best_fit_Tmin_slope i * best_fit_Tmin i) * lgmin)
      - (best_fit_Tmax_value i
         - best_fit_Tmax i * best_fit_Tmax_slope i) * lgmax).
Definition setup_11 (i : TDependentProperty) : result R :=
  best_fit_integral_value T_REF_IG (best_fit_int_coeffs i) (best_fit_Tmin i)
    (best_fit_Tmax i) (best_fit_Tmin_value i) (best_fit_Tmax_value i)
    (best_fit_Tmin_slope i) (best_fit_Tmax_slope i).
Definition setup_15 (i : TDependentProperty) : result R :=
  best_fit_integral_over_T_value T_REF_IG (best_fit_T_int_T_coeffs i)
    (best_fit_log_coeff i) (best_fit_Tmin i) (best_fit_Tmax i)
    (best_fit_Tmin_value i) (best_fit_Tmax_value i)
    (best_fit_Tmin_slope i) (best_fit_Tmax_slope i).

(** [[f(i) for i in objs]] without state. *)
Fixpoint rmap {A B} (f : A -> result B) (xs : list A) : result (list B) :=
  match xs with
  | [] => Ok []
  | x :: xs' => y <~ f x ;; ys <~ rmap f xs' ;; Ok (y :: ys)
  end.

Definition setup_Cpigs (HeatCapacityGases : option (list TDependentProperty))
    : result (bool * option CpsData) :=
  match HeatCapacityGases with
  | None => Ok (false, None)
  | Some objs =>
      if all_locked objs then
        c9 <~ rmap setup_9 objs ;;
        c10 <~ rmap setup_10 objs ;;
        c11 <~ rmap setup_11 objs ;;
        c15 <~ rmap setup_15 objs ;;
        Ok (true,
            Some {| Cps_0 := map best_fit_Tmin objs;
                    Cps_1 := map best_fit_Tmin_slope objs;
                    Cps_2 := map best_fit_Tmin_value objs;
                    Cps_3 := map best_fit_Tmax objs;
                    Cps_4 := map best_fit_Tmax_slope objs;
                    Cps_5 := map best_fit_Tmax_value objs;
                    Cps_6 := map best_fit_log_coeff objs;
                    Cps_7 := map setup_7 objs;
                    Cps_8 := map setup_8 objs;
                    Cps_9 := c9;
                    Cps_10 := c10;
                    Cps_11 := c11;
                    Cps_12 := map best_fit_coeffs objs;
                    Cps_13 := map best_fit_int_coeffs objs;
                    Cps_14 := map best_fit_T_int_T_coeffs objs;
                    Cps_15 := c15 |})
      else Ok (false, None)
  end.

(** *** The fast path of the heat-capacity integrals *)

(** The body of the loop of [_Cp_pure_fast]: the three-piece value of the
    fit for component [i]. *)
Definition Cp_value_fast (d : CpsData) (T : R) (i : nat) : result R :=
  Tmin <~ getitem (Cps_0 d) i ;;
  if Rlt_dec T Tmin then
    s <~ getitem (Cps_1 d) i ;;
    v <~ getitem (Cps_2 d) i ;;
    Ok ((T - Tmin) * s + v)
  else
    Tmax <~ getitem (Cps_3 d) i ;;
    if Rgt_dec T Tmax then
      s <~ getitem (Cps_4 d) i ;;
      v <~ getitem (Cps_5 d) i ;;
      Ok ((T - Tmax) * s + v)
    else
      cs <~ getitem (Cps_12 d) i ;;
      Ok (horner cs T).

Definition Phase__Cp_pure_fast (Cps_data : option CpsData)
    : Method (list R) :=
  T <- attr obj_T ;;
  cmps <- attr obj_cmps ;;
  d <- not_None Cps_data ;;
  comprehension (fun i => lift (Cp_value_fast d T i)) cmps.

(** The body of the loop of [_Cp_integrals_pure_fast] for component [i]. *)
Definition Cp_integral_fast (d : CpsData) (T : R) (i : nat) : result R :=
  Tmin <~ getitem (Cps_0 d) i ;;
  H <~ (if Rlt_dec T Tmin then
          c2 <~ getitem (Cps_2 d) i ;;
          c1 <~ getitem (Cps_1 d) i ;;
          let x1 := c2 - c1 * Tmin in
          Ok (T * (0.5 * c1 * T + x1))
        else
          Tmax <~ getitem (Cps_3 d) i ;;
          if Rle_dec T Tmax then
            cs <~ getitem (Cps_13 d) i ;;
            c7 <~ getitem (Cps_7 d) i ;;
            Ok (horner cs T - c7)
          else
            Tmax_slope <~ getitem (Cps_4 d) i ;;
            c5 <~ getitem (Cps_5 d) i ;;
            let x1 := c5 - Tmax_slope * Tmax in
            c8 <~ getitem (Cps_8 d) i ;;
            Ok (T * (0.5 * Tmax_slope * T + x1)
                - Tmax * (0.5 * Tmax_slope * Tmax + x1) + c8)) ;;
  c11 <~ getitem (Cps_11 d) i ;;
  Ok (H - c11).

Definition Phase__Cp_integrals_pure_fast (Cps_data : option CpsData)
    : Method (list R) :=
  T <- attr obj_T ;;
  cmps <- attr obj_cmps ;;
  d <- not_None Cps_data ;;
  comprehension (fun i => lift (Cp_integral_fast d T i)) cmps.

(** The body of the loop of [_Cp_integrals_over_T_pure_fast]. *)
Definition Cp_integral_over_T_fast (d : CpsData) (T logT : R) (i : nat)
    : result R :=
  Tmin <~ getitem (Cps_0 d) i ;;
  S <~ (if Rlt_dec T Tmin then
          c2 <~ getitem (Cps_2 d) i ;;
          c1 <~ getitem (Cps_1 d) i ;;
          let x1 := c2 - c1 * Tmin in
          Ok (c1 * T + x1 * logT)
        else
          let high :=
            c10 <~ getitem (Cps_10 d) i ;;
            c5 <~ getitem (Cps_5 d) i ;;
            Tmax <~ getitem (Cps_3 d) i ;;
            c4 <~ getitem (Cps_4 d) i ;;
            let x2 := c5 - Tmax * c4 in
            Ok (c10 + (- c4 * (Tmax - T) + x2 * logT)) in
          (* the chained comparison [Tmin <= T <= Tmaxes[i]] *)
          if Rle_dec Tmin T then
            Tmax <~ getitem (Cps_3 d) i ;;
            if Rle_dec T Tmax then
              cs <~ getitem (Cps_14 d) i ;;
              c6 <~ getitem (Cps_6 d) i ;;
              c9 <~ getitem (Cps_9 d) i ;;
              Ok (horner cs T + c6 * logT - c9)
            else high
          else high) ;;
  c15 <~ getitem (Cps_15 d) i ;;
  Ok (S - c15).

Definition Phase__Cp_integrals_over_T_pure_fast (Cps_data : option CpsData)
    : Method (list R) :=
  T <- attr obj_T ;;
  cmps <- attr obj_cmps ;;
  d <- not_None Cps_data ;;
  logT <- lift (log T) ;;
  comprehension (fun i => lift (Cp_integral_over_T_fast d T logT i)) cmps.

Definition Phase_Cpig_integrals_pure : Method (list R) :=
  try_except (getattr_list "_Cpig_integrals_pure") is_AttributeError
    (locked <- field Cpgs_locked ;;
     if locked then
       d <- field Cpgs_data ;;
       v <- Phase__Cp_integrals_pure_fast d ;;
       setattr_list "_Cpig_integrals_pure" v ;;;
       getattr_list "_Cpig_integrals_pure"
     else
       T <- attr obj_T ;;
       objs <- field HeatCapacityGases ;;
       objs <- not_None objs ;;
       setattr_list "_Cpig_integrals_pure"
         (map (fun obj => T_dependent_property_integral obj T_REF_IG T) objs) ;;;
       getattr_list "_Cpig_integrals_pure").

Definition Phase_Cpig_integrals_over_T_pure : Method (list R) :=
  try_except (getattr_list "_Cpig_integrals_over_T_pure") is_AttributeError
    (locked <- field Cpgs_locked ;;
     if locked then
       d <- field Cpgs_data ;;
       v <- Phase__Cp_integrals_over_T_pure_fast d ;;
       setattr_list "_Cpig_integrals_over_T_pure" v ;;;
       getattr_list "_Cpig_integrals_over_T_pure"
     else
       T <- attr obj_T ;;
       objs <- field HeatCapacityGases ;;
       objs <- not_None objs ;;
       setattr_list "_Cpig_integrals_over_T_pure"
         (map (fun obj => T_dependent_property_integral_over_T obj T_REF_IG T)
              objs) ;;;
       getattr_list "_Cpig_integrals_over_T_pure").

Definition Phase_Cpl_integrals_pure : Method (list R) :=
  try_except (getattr_list "_Cpl_integrals_pure") is_AttributeError
    (locked <- field Cpls_locked ;;
     if locked then
       d <- field Cpls_data ;;
       v <- Phase__Cp_integrals_pure_fast d ;;
       setattr_list "_Cpl_integrals_pure" v ;;;
       getattr_list "_Cpl_integrals_pure"
     else
       T <- attr obj_T ;;
       objs <- field HeatCapacityLiquids ;;
       objs <- not_None objs ;;
       setattr_list "_Cpl_integrals_pure"
         (map (fun obj => T_dependent_property_integral obj T_REF_IG T) objs) ;;;
       getattr_list "_Cpl_integrals_pure").

Definition Phase_Cpl_integrals_over_T_pure : Method (list R) :=
  try_except (getattr_list "_Cpl_integrals_over_T_pure") is_AttributeError
    (locked <- field Cpls_locked ;;
     if locked then
       d <- field Cpls_data ;;
       v <- Phase__Cp_integrals_over_T_pure_fast d ;;
       setattr_list "_Cpl_integrals_over_T_pure" v ;;;
       getattr_list "_Cpl_integrals_over_T_pure"
     else
       T <- attr obj_T ;;
       objs <- field HeatCapacityLiquids ;;
       objs <- not_None objs ;;
       setattr_list "_Cpl_integrals_over_T_pure"
         (map (fun obj => T_dependent_property_integral_over_T obj T_REF_IG T)
              objs) ;;;
       getattr_list "_Cpl_integrals_over_T_pure").

(** *** Ideal-gas reference properties *)

Definition Phase_V_ideal_gas : Method R :=
  T <- attr obj_T ;;
  P <- attr obj_P ;;
  lift (div (Rgas * T) P).

Definition Phase_H_ideal_gas : Method R :=
  try_except (getattr_float "_H_ideal_gas") is_AttributeError
    (zs <- attr obj_zs ;;
     ints <- Phase_Cpig_integrals_pure ;;
     let H := fold_left (fun H p => H + fst p * snd p) (zip zs ints) 0.0 in
     setattr_float "_H_ideal_gas" H ;;;
     ret H).

Definition Phase_S_ideal_gas : Method R :=
  try_except (getattr_float "_S_ideal_gas") is_AttributeError
    (Cpig_integrals_over_T_pure <- Phase_Cpig_integrals_over_T_pure ;;
     log_zs <- Phase_log_zs ;;
     T <- attr obj_T ;;
     P <- attr obj_P ;;
     zs <- attr obj_zs ;;
     cmps <- attr obj_cmps ;;
     let S := 0.0 in
     terms <- comprehension
                (fun i => lift (zi <~ getitem zs i ;;
                                li <~ getitem log_zs i ;;
                                Ok (zi * li))) cmps ;;
     let S := S - Rgas * sum terms in
     lg <- lift (log (P * P_REF_IG_INV)) ;;
     let S := S - Rgas * lg in
     S <- for_each cmps
            (fun i S => lift (zi <~ getitem zs i ;;
                              ci <~ getitem Cpig_integrals_over_T_pure i ;;
                              Ok (S + zi * ci))) S ;;
     setattr_float "_S_ideal_gas" S ;;;
     ret S).

(** *** Fugacity coefficients and the default activity coefficients

    [Phase.phis] and [Phase.gammas] call methods that the subclasses define
    ([lnphis], [phis], [to_TP_zs]); the embedding takes the method of the
    receiver's class as an argument. *)

Definition Phase_phis (lnphis : Method (list R)) : Method (list R) :=
  l <- lnphis ;;
  ret (map exp l).

(** A call of a method on another object: the receiver keeps its state, and
    the other object is not used again. *)
Definition call_on {A} (other : PhaseObj) (m : Method A) : Method A :=
  fun self => (fst (m other), self).

Definition Phase_gammas (phis_m : Method (list R))
    (to_TP_zs_m : R -> R -> list R -> Method PhaseObj) : Method (list R) :=
  phis <- phis_m ;;
  T <- attr obj_T ;;
  P <- attr obj_P ;;
  zs <- attr obj_zs ;;
  cmps <- attr obj_cmps ;;
  N <- attr obj_N ;;
  phis_pure <- for_each cmps
    (fun i (phis_pure : list R) =>
       let zeros := replicate N 0.0 in
       zeros <- lift (setitem zeros i 1.0) ;;
       new <- to_TP_zs_m T P zeros ;;
       new_phis <- call_on new phis_m ;;
       phi <- lift (getitem new_phis i) ;;
       ret (phis_pure ++ [phi])%list) [] ;;
  comprehension
    (fun i => lift (a <~ getitem phis i ;;
                    b <~ getitem phis_pure i ;;
                    div a b)) cmps.

(** ** class IdealGas *)

(** Modelled from the spec: the default activity model [IdealSolution] of
    thermo.activity, with zero excess properties. *)
Definition IdealSolution : GibbsExcess :=
  {| GE_T := 0; GE_xs := [];
     GE_HE := fun _ _ => 0; GE_SE := fun _ _ => 0; GE_CpE := fun _ _ => 0 |}.

(** [cls.__new__(cls)]: an object with no instance attribute.  The fields
    hold the class-level defaults; a field whose attribute the class does not
    define holds a value that no method of the class reads. *)
Definition new_object (c : phase_class) : PhaseObj :=
  {| cls := c;
     obj_T := None; obj_P := None; obj_zs := None; obj_N := None;
     obj_cmps := None; eos_mix := None; eos_pures_STP := None;
     HeatCapacityGases := None; Hfs := None; Gfs := None; Sfs := None;
     Cpgs_locked := false; Cpgs_data := None;
     eos_class := ""; eos_kwargs := ∅;
     VaporPressures := None; VolumeLiquids := None;
     EnthalpyVaporizations := None; HeatCapacityLiquids := None;
     eos_pure_instances := None;
     Psats_locked := false; Psats_data := None;
     Cpls_locked := false; Cpls_data := None;
     Vms_sat_locked := false; Vms_sat_data := None;
     Hvap_locked := false; Hvap_data := None;
     use_phis_sat := false; use_Poynting := false;
     P_DEPENDENT_H_LIQ := true; use_IG_Cp := true;
     use_Tait := false; Tait_B_data := None; Tait_C_data := None;
     henry_data := None; henry_components := [];
     has_henry_components := false;
     GibbsExcessModel := IdealSolution;
     float_attrs := ∅; list_attrs := ∅ |}.

Definition IdealGas_lnphis : Method (list R) :=
  N <- attr obj_N ;;
  ret (replicate N 0.0).

(** [__init__(HeatCapacityGases, Hfs, Gfs)]: no state, and [N] only with
    heat capacities given. *)
Definition IdealGas_init (HeatCapacityGases : option (list TDependentProperty))
    (Hfs Gfs : option (list R)) : PhaseObj :=
  let new := new_object IdealGas in
  {| cls := cls new;
     obj_T := obj_T new; obj_P := obj_P new; obj_zs := obj_zs new;
     obj_N := match HeatCapacityGases with
              | Some objs => Some (length objs)
              | None => None
              end;
     obj_cmps := obj_cmps new;
     eos_mix := eos_mix new; eos_pures_STP := eos_pures_STP new;
     HeatCapacityGases := HeatCapacityGases;
     Hfs := Hfs; Gfs := Gfs;
     Sfs := match Hfs, Gfs with
            | Some hs, Some gs =>
                Some (zip_with (fun Hfi Gfi => (Hfi - Gfi) / 298.15) hs gs)
            | _, _ => None
            end;
     Cpgs_locked := Cpgs_locked new; Cpgs_data := Cpgs_data new;
     eos_class := eos_class new; eos_kwargs := eos_kwargs new;
     VaporPressures := VaporPressures new;
     VolumeLiquids := VolumeLiquids new;
     EnthalpyVaporizations := EnthalpyVaporizations new;
     HeatCapacityLiquids := HeatCapacityLiquids new;
     eos_pure_instances := eos_pure_instances new;
     Psats_locked := Psats_locked new; Psats_data := Psats_data new;
     Cpls_locked := Cpls_locked new; Cpls_data := Cpls_data new;
     Vms_sat_locked := Vms_sat_locked new;
     Vms_sat_data := Vms_sat_data new;
     Hvap_locked := Hvap_locked new; Hvap_data := Hvap_data new;
     use_phis_sat := use_phis_sat new; use_Poynting := use_Poynting new;
     P_DEPENDENT_H_LIQ := P_DEPENDENT_H_LIQ new;
     use_IG_Cp := use_IG_Cp new;
     use_Tait := use_Tait new; Tait_B_data := Tait_B_data new;
     Tait_C_data := Tait_C_data new; henry_data := henry_data new;
     henry_components := henry_components new;
     has_henry_components := has_henry_components new;
     GibbsExcessModel := GibbsExcessModel new;
     float_attrs := float_attrs new; list_attrs := list_attrs new |}.

(** The object that [to_TP_zs] builds and returns. *)
Definition IdealGas_snapshot (T P : R) (zs : list R) (self : PhaseObj)
    : PhaseObj :=
  let new := new_object (cls self) in
  {| cls := cls new;
     obj_T := Some T; obj_P := Some P; obj_zs := Some zs;
     obj_N := Some (length zs); obj_cmps := Some (range (length zs));
     eos_mix := eos_mix new; eos_pures_STP := eos_pures_STP new;
     HeatCapacityGases := HeatCapacityGases self;
     Hfs := Hfs self; Gfs := Gfs self; Sfs := Sfs self;
     Cpgs_locked := Cpgs_locked new; Cpgs_data := Cpgs_data new;
     eos_class := eos_class new; eos_kwargs := eos_kwargs new;
     VaporPressures := VaporPressures new;
     VolumeLiquids := VolumeLiquids new;
     EnthalpyVaporizations := EnthalpyVaporizations new;
     HeatCapacityLiquids := HeatCapacityLiquids new;
     eos_pure_instances := eos_pure_instances new;
     Psats_locked := Psats_locked new; Psats_data := Psats_data new;
     Cpls_locked := Cpls_locked new; Cpls_data := Cpls_data new;
     Vms_sat_locked := Vms_sat_locked new;
     Vms_sat_data := Vms_sat_data new;
     Hvap_locked := Hvap_locked new; Hvap_data := Hvap_data new;
     use_phis_sat := use_phis_sat new; use_Poynting := use_Poynting new;
     P_DEPENDENT_H_LIQ := P_DEPENDENT_H_LIQ new;
     use_IG_Cp := use_IG_Cp new;
     use_Tait := use_Tait new; Tait_B_data := Tait_B_data new;
     Tait_C_data := Tait_C_data new; henry_data := henry_data new;
     henry_components := henry_components new;
     has_henry_components := has_henry_components new;
     GibbsExcessModel := GibbsExcessModel new;
     float_attrs := float_attrs new; list_attrs := list_attrs new |}.

Definition IdealGas_to_TP_zs (T P : R) (zs : list R) : Method PhaseObj :=
  fun self => (Ok (IdealGas_snapshot T P zs self), self).

Definition IdealGas_phis : Method (list R) := Phase_phis IdealGas_lnphis.
Definition IdealGas_gammas : Method (list R) :=
  Phase_gammas IdealGas_phis IdealGas_to_TP_zs.

(** ** class EOSGas, and EOSLiquid built from its source text *)

(** [self.eos_mix.X_g] or [self.eos_mix.X_l]: the attribute exists when the
    root does. *)
Definition eos_attr {A} (root : EosMix -> option EosRoot) (X : EosRoot -> A)
    : Method A :=
  mix <- attr eos_mix ;;
  match root mix with
  | Some r => ret (X r)
  | None => raise AttributeError
  end.

(** The accessors of [EOSGas] read the [_g] attribute and, on an
    [AttributeError], the [_l] one.  [build_EOSLiquid] rewrites the source of
    [EOSGas] exchanging the suffixes [_g] and [_l], which gives the same
    methods with the two roots exchanged. *)
Definition EOS_accessor {A} (first second : EosMix -> option EosRoot)
    (X : EosRoot -> A) : Method A :=
  try_except (eos_attr first X) is_AttributeError (eos_attr second X).

Definition EOSGas_V : Method R := EOS_accessor root_g root_l root_V.
Definition EOSGas_dP_dT : Method R := EOS_accessor root_g root_l root_dP_dT.
Definition EOSGas_dP_dV : Method R := EOS_accessor root_g root_l root_dP_dV.
Definition EOSGas_d2P_dT2 : Method R :=
  EOS_accessor root_g root_l root_d2P_dT2.
Definition EOSGas_d2P_dV2 : Method R :=
  EOS_accessor root_g root_l root_d2P_dV2.
Definition EOSGas_d2P_dTdV : Method R :=
  EOS_accessor root_g root_l root_d2P_dTdV.
Definition EOSGas_H_dep : Method R := EOS_accessor root_g root_l root_H_dep.
Definition EOSGas_S_dep : Method R := EOS_accessor root_g root_l root_S_dep.
Definition EOSGas_Cp_dep : Method R := EOS_accessor root_g root_l root_Cp_dep.

Definition EOSLiquid_V : Method R := EOS_accessor root_l root_g root_V.

Definition EOS_lnphis_of (root : EosMix -> option EosRoot)
    : Method (list R) :=
  mix <- attr eos_mix ;;
  Z <- eos_attr root root_Z ;;
  zs <- attr obj_zs ;;
  ret (fugacity_coefficients mix Z zs).

Definition EOSGas_lnphis : Method (list R) :=
  try_except (EOS_lnphis_of root_g) is_AttributeError (EOS_lnphis_of root_l).

(** Modelled from the spec: [eos_mix.dlnphis_dT(phase)] and
    [eos_mix.dlnphis_dP(phase)] of thermo.eos_mix, the fugacity-coefficient
    derivatives of the root named by [phase]; they fail without that root. *)
Definition eos_dlnphis_dT (root : EosMix -> option EosRoot)
    : Method (list R) := eos_attr root root_dlnphis_dT.
Definition eos_dlnphis_dP (root : EosMix -> option EosRoot)
    : Method (list R) := eos_attr root root_dlnphis_dP.

Definition EOSGas_dlnphis_dT : Method (list R) :=
  try_except (eos_dlnphis_dT root_g) any_exception (eos_dlnphis_dT root_l).
Definition EOSGas_dlnphis_dP : Method (list R) :=
  try_except (eos_dlnphis_dP root_g) any_exception (eos_dlnphis_dP root_l).

(** The re-solution of the equation of state at a new state: the fast
    state-transform of the receiver's mixture object or, on an
    [AttributeError], a new object of [eos_class]. *)
Definition EOSGas_solve_TP (T P : R) (zs : list R) : Method EosMix :=
  try_except
    (mix <- attr eos_mix ;; lift (to_TP_zs_fast mix T P zs))
    is_AttributeError
    (c <- field eos_class ;;
     kw <- field eos_kwargs ;;
     lift (eos_class_call c kw (Some T) (Some P) None zs)).
Definition EOSGas_solve_TV (T V : R) (zs : list R) : Method EosMix :=
  try_except
    (mix <- attr eos_mix ;; lift (to_TV_zs mix (Some T) None V zs))
    is_AttributeError
    (c <- field eos_class ;;
     kw <- field eos_kwargs ;;
     lift (eos_class_call c kw (Some T) None (Some V) zs)).
Definition EOSGas_solve_PV (P V : R) (zs : list R) : Method EosMix :=
  try_except
    (mix <- attr eos_mix ;; lift (to_TV_zs mix None (Some P) V zs))
    is_AttributeError
    (c <- field eos_class ;;
     kw <- field eos_kwargs ;;
     lift (eos_class_call c kw None (Some P) (Some V) zs)).

(** The assignments shared by [to_TP_zs] and [to_zs_TPV] after the state is
    set.  The last three are in one [try] block: the first missing attribute
    of the receiver ends the block. *)
Definition EOSGas_copy (self : PhaseObj) (T P : option R) (zs : list R)
    (mix : option EosMix) : PhaseObj :=
  let new := new_object (cls self) in
  let N := obj_N self in
  let cmps := match N with Some _ => obj_cmps self | None => None end in
  let pures := match cmps with
               | Some _ => eos_pures_STP self
               | None => None
               end in
  {| cls := cls new;
     obj_T := T; obj_P := P; obj_zs := Some zs;
     obj_N := N; obj_cmps := cmps;
     eos_mix := mix; eos_pures_STP := pures;
     HeatCapacityGases := HeatCapacityGases self;
     Hfs := Hfs self; Gfs := Gfs self; Sfs := Sfs self;
     Cpgs_locked := Cpgs_locked self; Cpgs_data := Cpgs_data self;
     eos_class := eos_class self; eos_kwargs := eos_kwargs self;
     VaporPressures := VaporPressures new;
     VolumeLiquids := VolumeLiquids new;
     EnthalpyVaporizations := EnthalpyVaporizations new;
     HeatCapacityLiquids := HeatCapacityLiquids new;
     eos_pure_instances := eos_pure_instances new;
     Psats_locked := Psats_locked new; Psats_data := Psats_data new;
     Cpls_locked := Cpls_locked new; Cpls_data := Cpls_data new;
     Vms_sat_locked := Vms_sat_locked new;
     Vms_sat_data := Vms_sat_data new;
     Hvap_locked := Hvap_locked new; Hvap_data := Hvap_data new;
     use_phis_sat := use_phis_sat new; use_Poynting := use_Poynting new;
     P_DEPENDENT_H_LIQ := P_DEPENDENT_H_LIQ new;
     use_IG_Cp := use_IG_Cp new;
     use_Tait := use_Tait new; Tait_B_data := Tait_B_data new;
     Tait_C_data := Tait_C_data new; henry_data := henry_data new;
     henry_components := henry_components new;
     has_henry_components := has_henry_components new;
     GibbsExcessModel := GibbsExcessModel new;
     float_attrs := float_attrs new; list_attrs := list_attrs new |}.

Definition EOSGas_to_TP_zs (T P : R) (zs : list R) : Method PhaseObj :=
  mix <- EOSGas_solve_TP T P zs ;;
  fun self => (Ok (EOSGas_copy self (Some T) (Some P) zs (Some mix)), self).

(** [to_zs_TPV(zs, T=None, P=None, V=None)].  With [T] alone no branch
    assigns [eos_mix] and none raises; the snapshot then has [P = None],
    which the embedding keeps as a missing attribute. *)
Definition EOSGas_to_zs_TPV (zs : list R) (T P V : option R)
    : Method PhaseObj :=
  st <- match T with
        | Some T' =>
            match P with
            | Some P' =>
                mix <- EOSGas_solve_TP T' P' zs ;;
                ret (T, P, Some mix)
            | None =>
                match V with
                | Some V' =>
                    mix <- EOSGas_solve_TV T' V' zs ;;
                    ret (T, Some (eos_P mix), Some mix)
                | None => ret (T, P, None)
                end
            end
        | None =>
            match P, V with
            | Some P', Some V' =>
                mix <- EOSGas_solve_PV P' V' zs ;;
                ret (Some (eos_T mix), P, Some mix)
            | _, _ => raise ValueError
            end
        end ;;
  let '(T, P, mix) := st in
  fun self => (Ok (EOSGas_copy self T P zs mix), self).

(** ** class GibbsExcessLiquid

    A value that a collaborator may return as [None] and that the source
    stores in a list of floats without testing it is reported by [as_float]
    as the [TypeError] of its first arithmetic use. *)

Definition as_float (o : option R) : result R :=
  match o with
  | Some v => Ok v
  | None => Raise TypeError
  end.

(** [objs[i]] where [objs] may be [None]. *)
Definition subscript {A} (objs : option (list A)) (i : nat) : result A :=
  match objs with
  | Some l => getitem l i
  | None => Raise TypeError
  end.

(** The truth value of an entry of [henry_data[i]]: [None] or an empty list
    is false. *)
Definition truthy (d : option (list R)) : bool :=
  match d with
  | Some (_ :: _) => true
  | _ => false
  end.

(** [to_TP_zs].  [same_zs] is the outcome of the identity test
    [self.zs is zs], which a value cannot show. *)
Definition GibbsExcessLiquid_to_TP_zs (same_zs : bool) (T P : R)
    (zs : list R) : Method PhaseObj :=
  T_self <- field obj_T ;;
  let T_equal := match T_self with
                 | Some T' => if Req_dec_T T T' then true else false
                 | None => false
                 end in
  N <- attr obj_N ;;
  cmps <- attr obj_cmps ;;
  model <- (if T_equal then
              _ <- attr obj_zs ;;
              m <- field GibbsExcessModel ;;
              if same_zs then ret m else ret (to_T_xs m T zs)
            else
              m <- field GibbsExcessModel ;;
              ret (to_T_xs m T zs)) ;;
  (* the [try] block at the end: [1/0] raises before [_Psats] is copied *)
  memo <- try_except
            (if T_equal then
               try_except
                 (_ <- lift (div 1 0) ;;
                  Psats <- getattr_list "_Psats" ;;
                  ret (<["_Psats" := Psats]> (∅ : gmap string (list R))))
                 any_exception
                 (ret ∅)
             else ret ∅)
            any_exception
            (ret ∅) ;;
  fun self =>
    let new := new_object (cls self) in
    (Ok {| cls := cls new;
           obj_T := Some T; obj_P := Some P; obj_zs := Some zs;
           obj_N := Some N; obj_cmps := Some cmps;
           eos_mix := eos_mix new; eos_pures_STP := eos_pures_STP new;
           HeatCapacityGases := HeatCapacityGases self;
           Hfs := Hfs self; Gfs := Gfs self; Sfs := Sfs self;
           Cpgs_locked := Cpgs_locked self; Cpgs_data := Cpgs_data self;
           eos_class := eos_class new; eos_kwargs := eos_kwargs new;
           VaporPressures := VaporPressures self;
           VolumeLiquids := VolumeLiquids self;
           EnthalpyVaporizations := EnthalpyVaporizations self;
           HeatCapacityLiquids := HeatCapacityLiquids self;
           eos_pure_instances := eos_pure_instances self;
           Psats_locked := Psats_locked self; Psats_data := Psats_data self;
           Cpls_locked := Cpls_locked self; Cpls_data := Cpls_data self;
           Vms_sat_locked := Vms_sat_locked self;
           Vms_sat_data := Vms_sat_data self;
           Hvap_locked := Hvap_locked self; Hvap_data := Hvap_data self;
           use_phis_sat := use_phis_sat self;
           use_Poynting := use_Poynting self;
           P_DEPENDENT_H_LIQ := P_DEPENDENT_H_LIQ self;
           use_IG_Cp := use_IG_Cp self;
           use_Tait := use_Tait self; Tait_B_data := Tait_B_data self;
           Tait_C_data := Tait_C_data self; henry_data := henry_data self;
           henry_components := henry_components self;
           has_henry_components := has_henry_components self;
           GibbsExcessModel := model;
           float_attrs := float_attrs new; list_attrs := memo |},
     self).

Definition GibbsExcessLiquid_Psats_T_ref : Method (list R) :=
  try_except (getattr_list "_Psats_T_ref") is_AttributeError
    (VaporPressures <- field VaporPressures ;;
     cmps <- attr obj_cmps ;;
     l <- comprehension
            (fun i => lift (obj <~ subscript VaporPressures i ;;
                            as_float (call obj T_REF_IG))) cmps ;;
     setattr_list "_Psats_T_ref" l ;;;
     getattr_list "_Psats_T_ref").

(** The body of the loop of the locked branch of [Psats]. *)
Definition Psat_fast (d : FitsData) (T : R) (i : nat) : result R :=
  Tmin <~ getitem (fit_0 d) i ;;
  if Rlt_dec T Tmin then
    s <~ getitem (fit_1 d) i ;;
    v <~ getitem (fit_2 d) i ;;
    Ok (exp ((T - Tmin) * s + v))
  else
    Tmax <~ getitem (fit_3 d) i ;;
    if Rgt_dec T Tmax then
      s <~ getitem (fit_4 d) i ;;
      v <~ getitem (fit_5 d) i ;;
      Ok (exp ((T - Tmax) * s + v))
    else
      cs <~ getitem (fit_6 d) i ;;
      Ok (exp (horner cs T)).

(** The hard-coded critical volumes of the Henry's-law blending. *)
Definition Vcs : list R :=
  [5.6000000000000006e-05; 0.000168; 7.340000000000001e-05].

Definition henry_weight_terms (zs : list R) (d : list (option (list R)))
    (cmps : list nat) : result (list R) :=
  fold_left
    (fun acc k =>
       l <~ acc ;;
       dk <~ getitem d k ;;
       if truthy dk then
         zk <~ getitem zs k ;;
         Vk <~ getitem Vcs k ;;
         Ok (l ++ [zk * Rpower Vk (2.0 / 3.0)])%list
       else Ok l)
    cmps (Ok []).

(** [Psats[i] = v] on the list that [self._Psats] aliases. *)
Definition setitem_attr (name : string) (i : nat) (v : R) : Method unit :=
  l <- getattr_list name ;;
  l' <- lift (setitem l i v) ;;
  setattr_list name l'.

Definition GibbsExcessLiquid_Psats : Method (list R) :=
  try_except (getattr_list "_Psats") is_AttributeError
    (T <- attr obj_T ;;
     cmps <- attr obj_cmps ;;
     setattr_list "_Psats" [] ;;;
     Psats_locked <- field Psats_locked ;;
     if (Psats_locked : bool) then
       Psats_data <- field Psats_data ;;
       d <- not_None Psats_data ;;
       for_each cmps
         (fun i (_ : unit) =>
            v <- lift (Psat_fast d T i) ;; append_attr "_Psats" v) tt ;;;
       getattr_list "_Psats"
     else
       objs <- field VaporPressures ;;
       objs <- not_None objs ;;
       for_each objs
         (fun i (_ : unit) =>
            if locked i then
              v <- lift (as_float (call i T)) ;; append_attr "_Psats" v
            else if Rlt_dec T (Tmax i) then
              (* [i.method = None] changes the correlation object only *)
              let Psat := match call i T with
                          | Some v => v
                          | None => extrapolate_tabular i T
                          end in
              append_attr "_Psats" Psat
            else append_attr "_Psats" (extrapolate_tabular i T)) tt ;;;
       has_henry <- field has_henry_components ;;
       (if has_henry then
          henry_components <- field henry_components ;;
          henry_data <- field henry_data ;;
          cmps <- attr obj_cmps ;;
          zs <- attr obj_zs ;;
          for_each cmps
            (fun i (_ : unit) =>
               hc <- lift (getitem henry_components i) ;;
               if (hc : bool) then
                 d <- lift (subscript henry_data i) ;;
                 logH <- for_each cmps
                   (fun j logH =>
                      dj <- lift (getitem d j) ;;
                      if truthy dj then
                        let r := default [] dj in
                        let t := T in
                        lift (r0 <~ getitem r 0 ;;
                              r1 <~ getitem r 1 ;;
                              q1 <~ div r1 t ;;
                              r2 <~ getitem r 2 ;;
                              lt <~ log t ;;
                              r3 <~ getitem r 3 ;;
                              r4 <~ getitem r 4 ;;
                              q4 <~ div r4 (t ^ 2) ;;
                              let log_Hi := r0 + q1 + r2 * lt + r3 * t + q4 in
                              zj <~ getitem zs j ;;
                              Vj <~ getitem Vcs j ;;
                              ws <~ henry_weight_terms zs d cmps ;;
                              wi <~ div (zj * Rpower Vj (2.0 / 3.0)) (sum ws) ;;
                              Ok (logH + wi * log_Hi))
                      else ret logH) 0.0 ;;
                 setitem_attr "_Psats" i (exp (logH / 1) * 1e5)
               else ret tt) tt
        else ret tt) ;;;
       getattr_list "_Psats").

(** The body of the loop of the locked branch of [dPsats_dT]. *)
Definition dPsat_dT_fast (d : FitsData) (Psats : list R) (T : R) (i : nat)
    : result R :=
  Tmin <~ getitem (fit_0 d) i ;;
  if Rlt_dec T Tmin then
    s <~ getitem (fit_1 d) i ;;
    p <~ getitem Psats i ;;
    Ok (s * p)
  else
    Tmax <~ getitem (fit_3 d) i ;;
    if Rgt_dec T Tmax then
      s <~ getitem (fit_4 d) i ;;
      p <~ getitem Psats i ;;
      Ok (s * p)
    else
      cs <~ getitem (fit_7 d) i ;;
      p <~ getitem Psats i ;;
      Ok (horner cs T * p).

Definition GibbsExcessLiquid_dPsats_dT : Method (list R) :=
  try_except (getattr_list "_dPsats_dT") any_exception
    (T <- attr obj_T ;;
     cmps <- attr obj_cmps ;;
     setattr_list "_dPsats_dT" [] ;;;
     Psats_locked <- field Psats_locked ;;
     if (Psats_locked : bool) then
       Psats <- GibbsExcessLiquid_Psats ;;
       Psats_data <- field Psats_data ;;
       d <- not_None Psats_data ;;
       for_each cmps
         (fun i (_ : unit) =>
            v <- lift (dPsat_dT_fast d Psats T i) ;;
            append_attr "_dPsats_dT" v) tt ;;;
       getattr_list "_dPsats_dT"
     else
       objs <- field VaporPressures ;;
       objs <- not_None objs ;;
       setattr_list "_dPsats_dT"
         (map (fun obj => T_dependent_property_derivative obj T 1) objs) ;;;
       getattr_list "_dPsats_dT").

Definition GibbsExcessLiquid_Vms_sat : Method (list R) :=
  try_except (getattr_list "_Vms_sat") is_AttributeError
    (T <- attr obj_T ;;
     cmps <- attr obj_cmps ;;
     Vms_sat_locked <- field Vms_sat_locked ;;
     if (Vms_sat_locked : bool) then
       d <- field Vms_sat_data ;;
       v <- lift (evaluate_linear_fits d T) ;;
       setattr_list "_Vms_sat" v ;;;
       getattr_list "_Vms_sat"
     else
       VolumeLiquids <- field VolumeLiquids ;;
       v <- comprehension
              (fun i => lift (obj <~ subscript VolumeLiquids i ;;
                              Ok (T_dependent_property obj T))) cmps ;;
       setattr_list "_Vms_sat" v ;;;
       getattr_list "_Vms_sat").

Definition GibbsExcessLiquid_dVms_sat_dT : Method (list R) :=
  try_except (getattr_list "_Vms_sat_dT") any_exception
    (T <- attr obj_T ;;
     Vms_sat_locked <- field Vms_sat_locked ;;
     if (Vms_sat_locked : bool) then
       d <- field Vms_sat_data ;;
       v <- lift (evaluate_linear_fits_d d T) ;;
       setattr_list "_Vms_sat_dT" v ;;;
       getattr_list "_Vms_sat_dT"
     else
       VolumeLiquids <- field VolumeLiquids ;;
       objs <- not_None VolumeLiquids ;;
       setattr_list "_Vms_sat_dT"
         (map (fun obj => T_dependent_property_derivative obj T 1) objs) ;;;
       getattr_list "_Vms_sat_dT").

Definition GibbsExcessLiquid_Vms_sat_T_ref : Method (list R) :=
  try_except (getattr_list "_Vms_sat_T_ref") is_AttributeError
    (Vms_sat_locked <- field Vms_sat_locked ;;
     (if (Vms_sat_locked : bool) then
        d <- field Vms_sat_data ;;
        v <- lift (evaluate_linear_fits d T_REF_IG) ;;
        setattr_list "_Vms_sat_T_ref" v
      else
        VolumeLiquids <- field VolumeLiquids ;;
        cmps <- attr obj_cmps ;;
        v <- comprehension
               (fun i => lift (obj <~ subscript VolumeLiquids i ;;
                               Ok (T_dependent_property obj T_REF_IG))) cmps ;;
        setattr_list "_Vms_sat_T_ref" v) ;;;
     getattr_list "_Vms_sat_T_ref").

(** [dVms_sat_dT_T_ref].  The locked branch passes the name [T] to
    [evaluate_linear_fits_d]; the method binds [T_REF_IG] only and the module
    has no global [T], so evaluating the argument raises [NameError]. *)
Definition GibbsExcessLiquid_dVms_sat_dT_T_ref : Method (list R) :=
  try_except (getattr_list "_dVms_sat_dT_T_ref") is_AttributeError
    (Vms_sat_locked <- field Vms_sat_locked ;;
     (if (Vms_sat_locked : bool) then
        d <- field Vms_sat_data ;;
        T <- raise NameError ;;
        v <- lift (evaluate_linear_fits_d d T) ;;
        setattr_list "_dVms_sat_dT_T_ref" v
      else
        VolumeLiquids <- field VolumeLiquids ;;
        cmps <- attr obj_cmps ;;
        v <- comprehension
               (fun i => lift (obj <~ subscript VolumeLiquids i ;;
                               Ok (T_dependent_property_derivative obj
                                     T_REF_IG 1))) cmps ;;
        setattr_list "_dVms_sat_dT_T_ref" v) ;;;
     getattr_list "_dVms_sat_dT_T_ref").

Definition GibbsExcessLiquid_Vms : Method (list R) :=
  GibbsExcessLiquid_Vms_sat.

(** The body of the loop of the locked branch of [Hvaps]. *)
Definition Hvap_fast (d : HvapData) (T : R) (i : nat) : result R :=
  Tc <~ getitem (Hvap_2 d) i ;;
  if Rlt_dec T Tc then
    Tc_inv <~ getitem (Hvap_3 d) i ;;
    x <~ log (1.0 - T * Tc_inv) ;;
    cs <~ getitem (Hvap_4 d) i ;;
    Ok (horner cs x)
  else Ok 0.0.

Definition GibbsExcessLiquid_Hvaps : Method (list R) :=
  try_except (getattr_list "_Hvaps") is_AttributeError
    (T <- attr obj_T ;;
     EnthalpyVaporizations <- field EnthalpyVaporizations ;;
     cmps <- attr obj_cmps ;;
     setattr_list "_Hvaps" [] ;;;
     Hvap_locked <- field Hvap_locked ;;
     if (Hvap_locked : bool) then
       Hvap_data <- field Hvap_data ;;
       d <- not_None Hvap_data ;;
       for_each cmps
         (fun i (_ : unit) =>
            v <- lift (Hvap_fast d T i) ;; append_attr "_Hvaps" v) tt ;;;
       getattr_list "_Hvaps"
     else
       (* a [None] from the correlation is replaced by [0.0] *)
       v <- comprehension
              (fun i => lift (obj <~ subscript EnthalpyVaporizations i ;;
                              Ok (default 0.0 (call obj T)))) cmps ;;
       setattr_list "_Hvaps" v ;;;
       getattr_list "_Hvaps").

Definition GibbsExcessLiquid_Hvaps_T_ref : Method (list R) :=
  try_except (getattr_list "_Hvaps_T_ref") is_AttributeError
    (EnthalpyVaporizations <- field EnthalpyVaporizations ;;
     cmps <- attr obj_cmps ;;
     v <- comprehension
            (fun i => lift (obj <~ subscript EnthalpyVaporizations i ;;
                            as_float (call obj T_REF_IG))) cmps ;;
     setattr_list "_Hvaps_T_ref" v ;;;
     getattr_list "_Hvaps_T_ref").

(** *** Tait pressure correction *)

Definition Tait_accessor (name : string) (data : PhaseObj -> option FitsData)
    (evaluate : option FitsData -> R -> result (list R)) : Method (list R) :=
  try_except (getattr_list name) any_exception
    (d <- field data ;;
     T <- attr obj_T ;;
     v <- lift (evaluate d T) ;;
     setattr_list name v ;;;
     getattr_list name).

Definition GibbsExcessLiquid_Tait_Bs : Method (list R) :=
  Tait_accessor "_Tait_Bs" Tait_B_data evaluate_linear_fits.
Definition GibbsExcessLiquid_dTait_B_dTs : Method (list R) :=
  Tait_accessor "_dTait_B_dTs" Tait_B_data evaluate_linear_fits_d.
Definition GibbsExcessLiquid_Tait_Cs : Method (list R) :=
  Tait_accessor "_Tait_Cs" Tait_C_data evaluate_linear_fits.
Definition GibbsExcessLiquid_dTait_C_dTs : Method (list R) :=
  Tait_accessor "_dTait_C_dTs" Tait_C_data evaluate_linear_fits_d.

(** The body of the loop of [dH_dP_integrals_Tait]. *)
Definition dH_dP_integral_Tait (T P : R)
    (Psats Vms_sat dVms_sat_dT dPsats_dT Tait_Bs Tait_Cs dTait_C_dTs
       dTait_B_dTs : list R) (i : nat) : result R :=
  x0 <~ getitem Tait_Bs i ;;
  let x1 := P + x0 in
  x2 <~ getitem Psats i ;;
  let x3 := x0 + x2 in
  x4 <~ div 1.0 x3 ;;
  x5 <~ getitem Tait_Cs i ;;
  x6 <~ getitem Vms_sat i ;;
  let x7 := x5 * x6 in
  dV <~ getitem dVms_sat_dT i ;;
  let x8 := T * dV in
  let x9 := x5 * x8 in
  dC <~ getitem dTait_C_dTs i ;;
  let x10 := T * dC in
  let x11 := x0 * x6 in
  let x12 := T * x7 in
  dB <~ getitem dTait_B_dTs i ;;
  let x13 := - x0 * x7 + x0 * x9 + x10 * x11 + x12 * dB in
  let x14 := x2 * x6 in
  dPs <~ getitem dPsats_dT i ;;
  let x15 := x4 * (x0 * x8 + x10 * x14 - x11 + x12 * dPs + x13 - x14
                   - x2 * x7 + x2 * x8 + x2 * x9) in
  l1 <~ log (x1 * x4) ;;
  l2 <~ log x1 ;;
  l3 <~ log x3 ;;
  Ok (- P * x15 + P * (x10 * x6 - x7 + x9) * l1 + x13 * l2 - x13 * l3
      + x15 * x2).

Definition GibbsExcessLiquid_dH_dP_integrals_Tait : Method (list R) :=
  try_except (getattr_list "_dH_dP_integrals_Tait") is_AttributeError
    (Psats <- GibbsExcessLiquid_Psats ;;
     Vms_sat <- GibbsExcessLiquid_Vms_sat ;;
     dVms_sat_dT <- GibbsExcessLiquid_dVms_sat_dT ;;
     dPsats_dT <- GibbsExcessLiquid_dPsats_dT ;;
     Tait_Bs <- GibbsExcessLiquid_Tait_Bs ;;
     Tait_Cs <- GibbsExcessLiquid_Tait_Cs ;;
     dTait_C_dTs <- GibbsExcessLiquid_dTait_C_dTs ;;
     dTait_B_dTs <- GibbsExcessLiquid_dTait_B_dTs ;;
     T <- attr obj_T ;;
     P <- attr obj_P ;;
     zs <- attr obj_zs ;;
     setattr_list "_dH_dP_integrals_Tait" [] ;;;
     cmps <- attr obj_cmps ;;
     for_each cmps
       (fun i (_ : unit) =>
          v <- lift (dH_dP_integral_Tait T P Psats Vms_sat dVms_sat_dT
                       dPsats_dT Tait_Bs Tait_Cs dTait_C_dTs dTait_B_dTs i) ;;
          append_attr "_dH_dP_integrals_Tait" v) tt ;;;
     getattr_list "_dH_dP_integrals_Tait").

(** *** Enthalpy and entropy *)

Definition GibbsExcessLiquid_H : Method R :=
  try_except (getattr_float "_H") is_AttributeError
    (T <- attr obj_T ;;
     P <- attr obj_P ;;
     zs <- attr obj_zs ;;
     P_DEPENDENT_H_LIQ <- field P_DEPENDENT_H_LIQ ;;
     Cpig_integrals_pure <-
       try_except (getattr_list "_Cpig_integrals_pure") is_AttributeError
         Phase_Cpig_integrals_pure ;;
     let H := 0.0 in
     H <- (if (P_DEPENDENT_H_LIQ : bool) then
             use_IG_Cp <- field use_IG_Cp ;;
             if (use_IG_Cp : bool) then
               Psats <- GibbsExcessLiquid_Psats ;;
               Vms_sat <- GibbsExcessLiquid_Vms_sat ;;
               dVms_sat_dT <- GibbsExcessLiquid_dVms_sat_dT ;;
               dPsats_dT <- GibbsExcessLiquid_dPsats_dT ;;
               let H := 0.0 in
               cmps <- attr obj_cmps ;;
               H <- for_each cmps
                      (fun i H =>
                         lift (Psat <~ getitem Psats i ;;
                               q <~ div (Rgas * T) Psat ;;
                               Vm <~ getitem Vms_sat i ;;
                               let dV_vap := q - Vm in
                               dPs <~ getitem dPsats_dT i ;;
                               let dS_vap := dPs * dV_vap in
                               let Hvap := T * dS_vap in
                               zi <~ getitem zs i ;;
                               ci <~ getitem Cpig_integrals_pure i ;;
                               Ok (H + zi * (ci - Hvap)))) H ;;
               use_Tait <- field use_Tait ;;
               if (use_Tait : bool) then
                 dH_dP_integrals_Tait <-
                   GibbsExcessLiquid_dH_dP_integrals_Tait ;;
                 cmps <- attr obj_cmps ;;
                 for_each cmps
                   (fun i H =>
                      lift (zi <~ getitem zs i ;;
                            di <~ getitem dH_dP_integrals_Tait i ;;
                            Ok (H + zi * di))) H
               else
                 cmps <- attr obj_cmps ;;
                 for_each cmps
                   (fun i H =>
                      lift (Psat <~ getitem Psats i ;;
                            let dP := Rmax 0.0 (P - Psat) in
                            zi <~ getitem zs i ;;
                            Vm <~ getitem Vms_sat i ;;
                            dV <~ getitem dVms_sat_dT i ;;
                            Ok (H + zi * dP * (Vm - T * dV)))) H
             else
               Psats <- GibbsExcessLiquid_Psats ;;
               Vms_sat <- GibbsExcessLiquid_Vms_sat ;;
               dVms_sat_dT <- GibbsExcessLiquid_dVms_sat_dT ;;
               dPsats_dT <- GibbsExcessLiquid_dPsats_dT ;;
               Hvaps_T_ref <- GibbsExcessLiquid_Hvaps_T_ref ;;
               Cpl_integrals_pure <- Phase_Cpl_integrals_pure ;;
               dVms_sat_dT_T_ref <- GibbsExcessLiquid_dVms_sat_dT_T_ref ;;
               Vms_sat_T_ref <- GibbsExcessLiquid_Vms_sat_T_ref ;;
               Psats_T_ref <- GibbsExcessLiquid_Psats_T_ref ;;
               Hvaps <- GibbsExcessLiquid_Hvaps ;;
               let H := 0.0 in
               cmps <- attr obj_cmps ;;
               for_each cmps
                 (fun i H =>
                    lift (zi <~ getitem zs i ;;
                          ci <~ getitem Cpl_integrals_pure i ;;
                          hi <~ getitem Hvaps_T_ref i ;;
                          let H := H + zi * (ci - hi) in
                          pi <~ getitem Psats_T_ref i ;;
                          let dP := P - pi in
                          vi <~ getitem Vms_sat_T_ref i ;;
                          dvi <~ getitem dVms_sat_dT_T_ref i ;;
                          Ok (H + zi * dP * (vi - T_REF_IG * dvi)))) H
           else
             Hvaps <- GibbsExcessLiquid_Hvaps ;;
             cmps <- attr obj_cmps ;;
             for_each cmps
               (fun i H =>
                  lift (zi <~ getitem zs i ;;
                        ci <~ getitem Cpig_integrals_pure i ;;
                        hi <~ getitem Hvaps i ;;
                        Ok (H + zi * (ci - hi)))) H) ;;
     model <- field GibbsExcessModel ;;
     let H := H + HE model in
     setattr_float "_H" H ;;;
     ret H).

(** [S].  The last two statements are [self._S = S + SE()] and [return S]:
    the value stored and the value returned differ by the excess entropy. *)
Definition GibbsExcessLiquid_S : Method R :=
  try_except (getattr_float "_S") is_AttributeError
    (let S := 0.0 in
     T <- attr obj_T ;;
     P <- attr obj_P ;;
     zs <- attr obj_zs ;;
     cmps <- attr obj_cmps ;;
     log_zs <- Phase_log_zs ;;
     S <- for_each cmps
            (fun i S =>
               lift (zi <~ getitem zs i ;;
                     li <~ getitem log_zs i ;;
                     Ok (S - zi * li))) S ;;
     let S := S * Rgas in
     T_inv <- lift (div 1.0 T) ;;
     Cpig_integrals_over_T_pure <- Phase_Cpig_integrals_over_T_pure ;;
     Psats <- GibbsExcessLiquid_Psats ;;
     Vms_sat <- GibbsExcessLiquid_Vms_sat ;;
     dPsats_dT <- GibbsExcessLiquid_dPsats_dT ;;
     P_DEPENDENT_H_LIQ <- field P_DEPENDENT_H_LIQ ;;
     S <- (if (P_DEPENDENT_H_LIQ : bool) then
             dVms_sat_dT <- GibbsExcessLiquid_dVms_sat_dT ;;
             use_IG_Cp <- field use_IG_Cp ;;
             if (use_IG_Cp : bool) then
               cmps <- attr obj_cmps ;;
               for_each cmps
                 (fun i S =>
                    lift (dSi <~ getitem Cpig_integrals_over_T_pure i ;;
                          Psat <~ getitem Psats i ;;
                          q <~ div (Rgas * T) Psat ;;
                          Vm <~ getitem Vms_sat i ;;
                          let dVsat := q - Vm in
                          dPs <~ getitem dPsats_dT i ;;
                          let dSvap := dPs * dVsat in
                          let dSi := dSi - dSvap in
                          lg <~ log (Psat * P_REF_IG_INV) ;;
                          let dSi := dSi - Rgas * lg in
                          let dP := Rmax 0.0 (P - Psat) in
                          dV <~ getitem dVms_sat_dT i ;;
                          let dSi := dSi - dP * dV in
                          zi <~ getitem zs i ;;
                          Ok (S + dSi * zi))) S
             else
               Hvaps_T_ref <- GibbsExcessLiquid_Hvaps_T_ref ;;
               Psats_T_ref <- GibbsExcessLiquid_Psats_T_ref ;;
               Cpl_integrals_over_T_pure <- Phase_Cpl_integrals_over_T_pure ;;
               dVms_sat_dT_T_ref <- GibbsExcessLiquid_dVms_sat_dT_T_ref ;;
               Vms_sat_T_ref <- GibbsExcessLiquid_Vms_sat_T_ref ;;
               cmps <- attr obj_cmps ;;
               for_each cmps
                 (fun i S =>
                    lift (dSi <~ getitem Cpl_integrals_over_T_pure i ;;
                          hi <~ getitem Hvaps_T_ref i ;;
                          let dSi := dSi - hi * T_REF_IG_INV in
                          pi <~ getitem Psats_T_ref i ;;
                          lg <~ log (pi * P_REF_IG_INV) ;;
                          let dSi := dSi - Rgas * lg in
                          let dP := P - pi in
                          dvi <~ getitem dVms_sat_dT_T_ref i ;;
                          let dSi := dSi - dP * dvi in
                          zi <~ getitem zs i ;;
                          Ok (S + dSi * zi))) S
           else
             Hvaps <- GibbsExcessLiquid_Hvaps ;;
             for_each cmps
               (fun i S =>
                  lift (Sg298_to_T <~ getitem Cpig_integrals_over_T_pure i ;;
                        hi <~ getitem Hvaps i ;;
                        let Svap := - hi * T_inv in
                        zi <~ getitem zs i ;;
                        lg <~ log (P * P_REF_IG_INV) ;;
                        Ok (S + zi * (Sg298_to_T + Svap - Rgas * lg)))) S) ;;
     model <- field GibbsExcessModel ;;
     setattr_float "_S" (S + SE model) ;;;
     ret S).

Definition GibbsExcessLiquid_H_dep : Method R :=
  H <- GibbsExcessLiquid_H ;;
  H_ideal_gas <- Phase_H_ideal_gas ;;
  ret (H - H_ideal_gas).

(** [S_dep], as the source has it: [self.S() - self.H_ideal_gas()]. *)
Definition GibbsExcessLiquid_S_dep : Method R :=
  S <- GibbsExcessLiquid_S ;;
  H_ideal_gas <- Phase_H_ideal_gas ;;
  ret (S - H_ideal_gas).

Definition GibbsExcessLiquid_V : Method R :=
  try_except (getattr_float "_V") is_AttributeError
    (zs <- attr obj_zs ;;
     Vms <- GibbsExcessLiquid_Vms ;;
     let V := 0.0 in
     cmps <- attr obj_cmps ;;
     V <- for_each cmps
            (fun i V =>
               lift (zi <~ getitem zs i ;;
                     Vi <~ getitem Vms i ;;
                     Ok (V + zi * Vi))) V ;;
     setattr_float "_V" V ;;;
     ret V).

(** ** Method resolution for [V]

    [obj.V()] looks [V] up in the class of the object and its bases.
    [EOSGas], [EOSLiquid] and [GibbsExcessLiquid] (which [GibbsExcessSolid]
    inherits from) define it; [IdealGas] and [Phase] do not, so the lookup
    on an [IdealGas] object raises [AttributeError]. *)
Definition call_V : Method R :=
  fun self =>
    match cls self with
    | IdealGas => raise AttributeError self
    | EOSGas => EOSGas_V self
    | EOSLiquid => EOSLiquid_V self
    | GibbsExcessLiquid | GibbsExcessSolid => GibbsExcessLiquid_V self
    end.

(** The entry of [log_zs] for a mole fraction [zi]. *)
Definition log_or_floor (zi : R) : R :=
  if Rlt_dec 0 zi then ln zi else log_floor.

(** ** Example objects *)

(** The value of [R] in fluids.constants (CODATA 2018). *)
Definition R_CODATA : R := 8.31446261815324.

(** A stand-in for a helper of fluids.numerics on a path that does not
    reach it. *)
Definition no_fits : option FitsData -> R -> result (list R) :=
  fun _ _ => Raise TypeError.

(** A correlation object with the constant value [c], not locked. *)
Definition constant_property (c : R) : TDependentProperty :=
  {| locked := false;
     Tmax := 10000;
     call := fun _ => Some c;
     extrapolate_tabular := fun _ => c;
     T_dependent_property := fun _ => c;
     T_dependent_property_derivative := fun _ _ => 0;
     T_dependent_property_integral := fun T1 T2 => c * (T2 - T1);
     T_dependent_property_integral_over_T := fun T1 T2 => c * ln (T2 / T1);
     best_fit_Tmin := 0; best_fit_Tmin_slope := 0; best_fit_Tmin_value := 0;
     best_fit_Tmax := 0; best_fit_Tmax_slope := 0; best_fit_Tmax_value := 0;
     best_fit_log_coeff := 0;
     best_fit_coeffs := []; best_fit_d_coeffs := [];
     best_fit_d2_coeffs := []; best_fit_int_coeffs := [];
     best_fit_T_int_T_coeffs := []; best_fit_Tc := 0;
     Tait_data := ([], []) |}.

(** The two-component ideal gas of the end-to-end scenario: constant heat
    capacities of 30 J/mol/K, [zs = [0.4, 0.6]], [T = 350], [P = 200000]. *)
Definition ideal_gas_example : PhaseObj :=
  IdealGas_snapshot 350 200000 [0.4; 0.6]
    (IdealGas_init (Some [constant_property 30; constant_property 30])
       None None).

(** The same gas at a composition with a vanishing mole fraction. *)
Definition ideal_gas_pure_example : PhaseObj :=
  IdealGas_snapshot 350 200000 [1; 0]
    (IdealGas_init (Some [constant_property 30; constant_property 30])
       None None).

(** An equation-of-state solution with a gas root only, and stand-ins for
    the equation-of-state operations that always return it. *)
Definition example_root : EosRoot :=
  {| root_Z := 0.99; root_V := 0.0144; root_dP_dT := 580;
     root_dP_dV := -13800000; root_d2P_dT2 := 0; root_d2P_dV2 := 1900000000;
     root_d2P_dTdV := -40000; root_H_dep := -30; root_S_dep := -0.06;
     root_Cp_dep := 0.2;
     root_dlnphis_dT := [0.0001; 0.0001];
     root_dlnphis_dP := [-0.00000005; -0.00000005] |}.
Definition example_mix : EosMix :=
  {| eos_T := 350; eos_P := 200000; eos_zs := [0.4; 0.6];
     root_g := Some example_root; root_l := None |}.
Definition example_eos_class_call :
    string -> gmap string (list R) -> option R -> option R -> option R ->
    list R -> result EosMix :=
  fun _ _ _ _ _ _ => Ok example_mix.
Definition example_to_TP_zs_fast : EosMix -> R -> R -> list R -> result EosMix :=
  fun _ _ _ _ => Ok example_mix.
Definition example_to_TV_zs :
    EosMix -> option R -> option R -> R -> list R -> result EosMix :=
  fun _ _ _ _ _ => Ok example_mix.
Definition example_fugacity_coefficients : EosMix -> R -> list R -> list R :=
  fun _ _ zs => map (fun _ => -0.01) zs.

(** An [EOSGas] snapshot holding that solution. *)
Definition eos_gas_example : PhaseObj :=
  EOSGas_copy (new_object EOSGas) (Some 350) (Some 200000) [0.4; 0.6]
    (Some example_mix).

(** An activity model with a constant excess entropy [se]. *)
Definition constant_SE (se : R) : GibbsExcess :=
  {| GE_T := 0; GE_xs := [];
     GE_HE := fun _ _ => 0; GE_SE := fun _ _ => se; GE_CpE := fun _ _ => 0 |}.

(** A table of the 9-entry shape for one component with the constant value
    [c] on [200, 1000] K. *)
Definition constant_fits (c : R) : FitsData :=
  {| fit_0 := [200]; fit_1 := [0]; fit_2 := [c];
     fit_3 := [1000]; fit_4 := [0]; fit_5 := [c];
     fit_6 := [[c]]; fit_7 := [[0]]; fit_8 := [[0]] |}.

(** A one-component [GibbsExcessLiquid] object as its constructor leaves it
    when no state is given, with the flag [P_DEPENDENT_H_LIQ] then set on
    the instance: constant correlations, the activity model [model], liquid
    volumes locked or not, the pressure correction on or off, and the
    ideal-gas or the liquid-Cp reference path. *)
Definition gibbs_liquid_object (model : GibbsExcess)
    (volumes_locked pressure_dependent ideal_gas_Cp : bool) : PhaseObj :=
  let new := new_object GibbsExcessLiquid in
  {| cls := cls new;
     obj_T := obj_T new; obj_P := obj_P new; obj_zs := obj_zs new;
     obj_N := Some 1%nat; obj_cmps := Some (range 1);
     eos_mix := eos_mix new; eos_pures_STP := eos_pures_STP new;
     HeatCapacityGases := Some [constant_property 30];
     Hfs := None; Gfs := None; Sfs := None;
     Cpgs_locked := false; Cpgs_data := None;
     eos_class := eos_class new; eos_kwargs := eos_kwargs new;
     VaporPressures := Some [constant_property 101325];
     VolumeLiquids := Some [constant_property 0.0001];
     EnthalpyVaporizations := Some [constant_property 40000];
     HeatCapacityLiquids := Some [constant_property 75];
     eos_pure_instances := None;
     Psats_locked := false; Psats_data := None;
     Cpls_locked := Cpls_locked new; Cpls_data := Cpls_data new;
     Vms_sat_locked := volumes_locked;
     Vms_sat_data := if volumes_locked then Some (constant_fits 0.0001)
                     else None;
     Hvap_locked := false; Hvap_data := None;
     use_phis_sat := false; use_Poynting := false;
     P_DEPENDENT_H_LIQ := pressure_dependent;
     use_IG_Cp := ideal_gas_Cp;
     use_Tait := false; Tait_B_data := Tait_B_data new;
     Tait_C_data := Tait_C_data new; henry_data := None;
     henry_components := [false];
     has_henry_components := false;
     GibbsExcessModel := model;
     float_attrs := float_attrs new; list_attrs := list_attrs new |}.

(** The default configuration: volumes not locked, pressure correction
    on, ideal-gas reference. *)
Definition gibbs_liquid_base (model : GibbsExcess) : PhaseObj :=
  gibbs_liquid_object model false true true.

(** The value that a call returns, or [d] when it raises. *)
Definition returned {A} (d : A) (r : result A * PhaseObj) : A :=
  match r.1 with
  | Ok a => a
  | Raise _ => d
  end.

(** The snapshot of that liquid at [T = 350], [P = 101325], [zs = [1]]. *)
Definition gibbs_liquid_example (model : GibbsExcess) : PhaseObj :=
  returned (gibbs_liquid_base model)
    (GibbsExcessLiquid_to_TP_zs false 350 101325 [1]
       (gibbs_liquid_base model)).

(** A locked heat-capacity correlation: the constant 30 J/mol/K fitted on
    [200, 1000] K, with its antiderivative coefficients. *)
Definition locked_Cp_example : TDependentProperty :=
  {| locked := true;
     Tmax := 1000;
     call := fun _ => Some 30;
     extrapolate_tabular := fun _ => 30;
     T_dependent_property := fun _ => 30;
     T_dependent_property_derivative := fun _ _ => 0;
     T_dependent_property_integral := fun T1 T2 => 30 * (T2 - T1);
     T_dependent_property_integral_over_T := fun T1 T2 => 30 * ln (T2 / T1);
     best_fit_Tmin := 200; best_fit_Tmin_slope := 0;
     best_fit_Tmin_value := 30;
     best_fit_Tmax := 1000; best_fit_Tmax_slope := 0;
     best_fit_Tmax_value := 30;
     best_fit_log_coeff := 30;
     best_fit_coeffs := [30]; best_fit_d_coeffs := [0];
     best_fit_d2_coeffs := [0]; best_fit_int_coeffs := [30; 0];
     best_fit_T_int_T_coeffs := [0]; best_fit_Tc := 0;
     Tait_data := ([], []) |}.

(** Stand-ins for the helpers of fluids.numerics that [setup_Cpigs] calls
    for the reference offsets. *)
Definition example_horner_log : list R -> R -> R -> result R :=
  fun _ _ _ => Ok 0.
Definition example_best_fit_integral_value :
    R -> list R -> R -> R -> R -> R -> R -> R -> result R :=
  fun _ _ _ _ _ _ _ _ => Ok 0.
Definition example_best_fit_integral_over_T_value :
    R -> list R -> R -> R -> R -> R -> R -> R -> R -> result R :=
  fun _ _ _ _ _ _ _ _ _ => Ok 0.

(** The snapshot at the same state of the liquid with locked volume
    correlations on the liquid-Cp reference path. *)
Definition gibbs_locked_example : PhaseObj :=
  returned (gibbs_liquid_object IdealSolution true true false)
    (GibbsExcessLiquid_to_TP_zs false 350 101325 [1]
       (gibbs_liquid_object IdealSolution true true false)).

(** The snapshot at the same state of the ideal solution in the
    consistency mode that the two flags select. *)
Definition gibbs_liquid_mode (pressure_dependent ideal_gas_Cp : bool)
    : PhaseObj :=
  returned (gibbs_liquid_object IdealSolution false pressure_dependent
              ideal_gas_Cp)
    (GibbsExcessLiquid_to_TP_zs false 350 101325 [1]
       (gibbs_liquid_object IdealSolution false pressure_dependent
          ideal_gas_Cp)).

(** ** Statements *)

(** The two-way fallback of an [EOSGas] accessor for the quantity [X]: the
    gas-branch value when the gas root exists, the liquid-branch value when
    only the liquid root exists, and a failure only without both. *)
Definition two_way_fallback {A} (mix : EosMix) (X : EosRoot -> A)
    (r : result A) : Prop :=
  (forall g, root_g mix = Some g -> r = Ok (X g)) /\
  (forall l, root_g mix = None -> root_l mix = Some l -> r = Ok (X l)) /\
  (is_Ok r = false -> root_g mix = None /\ root_l mix = None).

(** A snapshot without memoized property values. *)
Definition no_memo (o : PhaseObj) : Prop :=
  float_attrs o = ∅ /\ list_attrs o = ∅.

(** The state that a state transform gives the new snapshot. *)
Definition at_state (T P : R) (zs : list R) (o : PhaseObj) : Prop :=
  obj_T o = Some T /\ obj_P o = Some P /\ obj_zs o = Some zs.

(** The correlation objects, correlation tables and formation properties
    that a new [EOSGas] snapshot takes from the receiver. *)
Definition shares_EOSGas_data (self new : PhaseObj) : Prop :=
  HeatCapacityGases new = HeatCapacityGases self /\
  Cpgs_data new = Cpgs_data self /\
  Cpgs_locked new = Cpgs_locked self /\
  eos_class new = eos_class self /\
  eos_kwargs new = eos_kwargs self /\
  Hfs new = Hfs self /\ Gfs new = Gfs self /\ Sfs new = Sfs self.

(** The same for a new [GibbsExcessLiquid] snapshot. *)
Definition shares_GibbsExcessLiquid_data (self new : PhaseObj) : Prop :=
  VaporPressures new = VaporPressures self /\
  VolumeLiquids new = VolumeLiquids self /\
  HeatCapacityGases new = HeatCapacityGases self /\
  EnthalpyVaporizations new = EnthalpyVaporizations self /\
  HeatCapacityLiquids new = HeatCapacityLiquids self /\
  Psats_data new = Psats_data self /\
  Psats_locked new = Psats_locked self /\
  Cpgs_data new = Cpgs_data self /\
  Cpgs_locked new = Cpgs_locked self /\
  Cpls_data new = Cpls_data self /\
  Cpls_locked new = Cpls_locked self /\
  Vms_sat_data new = Vms_sat_data self /\
  Vms_sat_locked new = Vms_sat_locked self /\
  Hvap_data new = Hvap_data self /\
  Hvap_locked new = Hvap_locked self /\
  Tait_B_data new = Tait_B_data self /\
  Tait_C_data new = Tait_C_data self /\
  Hfs new = Hfs self /\ Gfs new = Gfs self /\ Sfs new = Sfs self.

(** The departure closure of the entropy as a check on one snapshot runs
    it: [S() - (S_dep() + S_ideal_gas())], the three calls in their order of
    evaluation. *)
Definition S_closure_gap : Method R :=
  S <- GibbsExcessLiquid_S ;;
  S_dep <- GibbsExcessLiquid_S_dep ;;
  S_ideal_gas <- Phase_S_ideal_gas ;;
  ret (S - (S_dep + S_ideal_gas)).

(** The three pieces of the fast heat-capacity integral of a correlation
    object, written with its fit data: the quadratic below [Tmin], the
    polynomial antiderivative inside the fit range and the quadratic above
    [Tmax], each less the reference offset [c11]. *)
Definition Cp_integral_low (obj : TDependentProperty) (c11 T : R) : R :=
  T * (0.5 * best_fit_Tmin_slope obj * T
       + (best_fit_Tmin_value obj
          - best_fit_Tmin_slope obj * best_fit_Tmin obj)) - c11.
Definition Cp_integral_mid (obj : TDependentProperty) (c11 T : R) : R :=
  horner (best_fit_int_coeffs obj) T - setup_7 obj - c11.
Definition Cp_integral_high (obj : TDependentProperty) (c11 T : R) : R :=
  T * (0.5 * best_fit_Tmax_slope obj * T
       + (best_fit_Tmax_value obj
          - best_fit_Tmax_slope obj * best_fit_Tmax obj))
  - best_fit_Tmax obj * (0.5 * best_fit_Tmax_slope obj * best_fit_Tmax obj
                         + (best_fit_Tmax_value obj
                            - best_fit_Tmax_slope obj * best_fit_Tmax obj))
  + setup_8 obj - c11.
Definition Cp_integral_closed_form (obj : TDependentProperty) (c11 T : R)
    : R :=
  if Rlt_dec T (best_fit_Tmin obj) then Cp_integral_low obj c11 T
  else if Rle_dec T (best_fit_Tmax obj) then Cp_integral_mid obj c11 T
  else Cp_integral_high obj c11 T.

(** ** The derivative algebra of class [Phase]

    The methods below derive the other first derivatives from the
    primitives [V], [dP_dT] and [dP_dV] that a subclass defines; the
    embedding takes the methods of the subclass as arguments.  Python
    evaluates the operands of an expression from left to right. *)

Section Derivatives.

Variables V dP_dT dP_dV : Method R.

(** [1.0/self.dP_dT()] *)
Definition Phase_dT_dP : Method R :=
  x <- dP_dT ;; lift (div 1.0 x).

(** [-self.dP_dT()/self.dP_dV()] *)
Definition Phase_dV_dT : Method R :=
  a <- dP_dT ;; b <- dP_dV ;; lift (div (- a) b).

(** [-self.dV_dT()*self.dT_dP()] *)
Definition Phase_dV_dP : Method R :=
  a <- Phase_dV_dT ;; b <- Phase_dT_dP ;; ret (- a * b).

(** [1./self.dV_dT()] *)
Definition Phase_dT_dV : Method R :=
  a <- Phase_dV_dT ;; lift (div 1 a).

(** [1.0/self.V()] *)
Definition Phase_rho : Method R :=
  v <- V ;; lift (div 1.0 v).

(** The derivatives in the molar density basis. *)
Definition Phase_dP_drho : Method R :=
  v <- V ;; d <- dP_dV ;; ret (- v * v * d).
Definition Phase_drho_dP : Method R :=
  v <- V ;; d <- Phase_dV_dP ;; lift (div (- d) (v * v)).
Definition Phase_dT_drho : Method R :=
  v <- V ;; d <- Phase_dT_dV ;; ret (- v * v * d).
Definition Phase_drho_dT : Method R :=
  v <- V ;; d <- Phase_dV_dT ;; lift (div (- d) (v * v)).

End Derivatives.

(** [EOSGas] inherits these methods. *)
Definition EOSGas_dT_dP : Method R := Phase_dT_dP EOSGas_dP_dT.
Definition EOSGas_dV_dT : Method R := Phase_dV_dT EOSGas_dP_dT EOSGas_dP_dV.
Definition EOSGas_dV_dP : Method R := Phase_dV_dP EOSGas_dP_dT EOSGas_dP_dV.
Definition EOSGas_dT_dV : Method R := Phase_dT_dV EOSGas_dP_dT EOSGas_dP_dV.
Definition EOSGas_rho : Method R := Phase_rho EOSGas_V.
Definition EOSGas_dP_drho : Method R := Phase_dP_drho EOSGas_V EOSGas_dP_dV.
Definition EOSGas_drho_dP : Method R :=
  Phase_drho_dP EOSGas_V EOSGas_dP_dT EOSGas_dP_dV.
Definition EOSGas_dT_drho : Method R :=
  Phase_dT_drho EOSGas_V EOSGas_dP_dT EOSGas_dP_dV.
Definition EOSGas_drho_dT : Method R :=
  Phase_drho_dT EOSGas_V EOSGas_dP_dT EOSGas_dP_dV.

(** The root that the accessors of [EOSGas] read: the gas root, or the
    liquid root when there is no gas root. *)
Definition EOSGas_root (mix : EosMix) : option EosRoot :=
  match root_g mix with
  | Some g => Some g
  | None => root_l mix
  end.

(** An [EOSGas] snapshot whose gas root has [dP_dT = 0]. *)
Definition flat_root : EosRoot :=
  {| root_Z := 0.99; root_V := 0.0144; root_dP_dT := 0;
     root_dP_dV := -13800000; root_d2P_dT2 := 0; root_d2P_dV2 := 1900000000;
     root_d2P_dTdV := -40000; root_H_dep := -30; root_S_dep := -0.06;
     root_Cp_dep := 0.2;
     root_dlnphis_dT := [0.0001; 0.0001];
     root_dlnphis_dP := [-0.00000005; -0.00000005] |}.
Definition flat_mix : EosMix :=
  {| eos_T := 350; eos_P := 200000; eos_zs := [0.4; 0.6];
     root_g := Some flat_root; root_l := None |}.
Definition flat_eos_gas_example : PhaseObj :=
  EOSGas_copy (new_object EOSGas) (Some 350) (Some 200000) [0.4; 0.6]
    (Some flat_mix).

(** ** The formation properties of class [Phase]

    [zip(self.zs, self.Hfs)] raises [TypeError] when the formation
    enthalpies were not given. *)
Definition Phase_H_formation_ideal_gas : Method R :=
  try_except (getattr_float "_H_formation_ideal_gas") is_AttributeError
    (zs <- attr obj_zs ;;
     Hfs <- field Hfs ;;
     Hfs <- not_None Hfs ;;
     let Hf_ideal_gas :=
       fold_left (fun H p => H + fst p * snd p) (zip zs Hfs) 0.0 in
     setattr_float "_H_formation_ideal_gas" Hf_ideal_gas ;;;
     ret Hf_ideal_gas).

Definition Phase_S_formation_ideal_gas : Method R :=
  try_except (getattr_float "_S_formation_ideal_gas") any_exception
    (zs <- attr obj_zs ;;
     Sfs <- field Sfs ;;
     Sfs <- not_None Sfs ;;
     let Sf_ideal_gas :=
       fold_left (fun S p => S + fst p * snd p) (zip zs Sfs) 0.0 in
     setattr_float "_S_formation_ideal_gas" Sf_ideal_gas ;;;
     ret Sf_ideal_gas).

Definition Phase_G_formation_ideal_gas : Method R :=
  H <- Phase_H_formation_ideal_gas ;;
  S <- Phase_S_formation_ideal_gas ;;
  ret (H - T_REF_IG * S).

(** [sum(z*x for z, x in zip(zs, xs))] *)
Definition mole_average (zs xs : list R) : R :=
  fold_left (fun acc p => acc + fst p * snd p) (zip zs xs) 0.

(** The same object with locked vapour-pressure correlations and the
    table [d] that the constructor builds from them. *)
Definition with_locked_Psats (d : FitsData) (o : PhaseObj) : PhaseObj :=
  {| cls := cls o; obj_T := obj_T o; obj_P := obj_P o; obj_zs := obj_zs o;
     obj_N := obj_N o; obj_cmps := obj_cmps o; eos_mix := eos_mix o;
     eos_pures_STP := eos_pures_STP o;
     HeatCapacityGases := HeatCapacityGases o; Hfs := Hfs o; Gfs := Gfs o;
     Sfs := Sfs o; Cpgs_locked := Cpgs_locked o; Cpgs_data := Cpgs_data o;
     eos_class := eos_class o; eos_kwargs := eos_kwargs o;
     VaporPressures := VaporPressures o; VolumeLiquids := VolumeLiquids o;
     EnthalpyVaporizations := EnthalpyVaporizations o;
     HeatCapacityLiquids := HeatCapacityLiquids o;
     eos_pure_instances := eos_pure_instances o;
     Psats_locked := true; Psats_data := Some d;
     Cpls_locked := Cpls_locked o; Cpls_data := Cpls_data o;
     Vms_sat_locked := Vms_sat_locked o; Vms_sat_data := Vms_sat_data o;
     Hvap_locked := Hvap_locked o; Hvap_data := Hvap_data o;
     use_phis_sat := use_phis_sat o; use_Poynting := use_Poynting o;
     P_DEPENDENT_H_LIQ := P_DEPENDENT_H_LIQ o; use_IG_Cp := use_IG_Cp o;
     use_Tait := use_Tait o; Tait_B_data := Tait_B_data o;
     Tait_C_data := Tait_C_data o; henry_data := henry_data o;
     henry_components := henry_components o;
     has_henry_components := has_henry_components o;
     GibbsExcessModel := GibbsExcessModel o;
     float_attrs := float_attrs o; list_attrs := list_attrs o |}.

(** The snapshot of the example liquid with locked vapour-pressure
    correlations: the constant [exp 11.5] Pa fitted on [200, 1000] K. *)
Definition locked_Psats_example : PhaseObj :=
  with_locked_Psats (constant_fits 11.5) (gibbs_liquid_example IdealSolution).

(** The three pieces of the fast integral of [Cp/T] of a correlation object,
    written with its fit data: below [Tmin], inside the fit range and above
    [Tmax], each less the reference offset [c15].  [horner_log_value] is
    the antiderivative inside the fit range, [Cp_over_T_join] the value at
    [Tmin] of the antiderivative below it. *)
Definition horner_log_value (obj : TDependentProperty) (x : R) : R :=
  horner (best_fit_T_int_T_coeffs obj) x + best_fit_log_coeff obj * ln x.
Definition Cp_over_T_join (obj : TDependentProperty) : R :=
  best_fit_Tmin_slope obj * best_fit_Tmin obj
  + (best_fit_Tmin_value obj
     - best_fit_Tmin_slope obj * best_fit_Tmin obj) * ln (best_fit_Tmin obj).
Definition Cp_over_T_low (obj : TDependentProperty) (c15 T : R) : R :=
  best_fit_Tmin_slope obj * T
  + (best_fit_Tmin_value obj
     - best_fit_Tmin_slope obj * best_fit_Tmin obj) * ln T - c15.
Definition Cp_over_T_mid (obj : TDependentProperty) (c15 T : R) : R :=
  horner (best_fit_T_int_T_coeffs obj) T + best_fit_log_coeff obj * ln T
  - (horner_log_value obj (best_fit_Tmin obj) - Cp_over_T_join obj) - c15.
Definition Cp_over_T_high (obj : TDependentProperty) (c15 T : R) : R :=
  horner_log_value obj (best_fit_Tmax obj)
  - horner_log_value obj (best_fit_Tmin obj)
  + Cp_over_T_join obj
  - (best_fit_Tmax_value obj
     - best_fit_Tmax obj * best_fit_Tmax_slope obj) * ln (best_fit_Tmax obj)
  + (- best_fit_Tmax_slope obj * (best_fit_Tmax obj - T)
     + (best_fit_Tmax_value obj
        - best_fit_Tmax obj * best_fit_Tmax_slope obj) * ln T)
  - c15.
Definition Cp_over_T_closed_form (obj : TDependentProperty) (c15 T : R)
    : R :=
  if Rlt_dec T (best_fit_Tmin obj) then Cp_over_T_low obj c15 T
  else if Rle_dec T (best_fit_Tmax obj) then Cp_over_T_mid obj c15 T
  else Cp_over_T_high obj c15 T.

(** What fluids.numerics documents for [horner_log]: the polynomial plus
    the logarithmic term, for a positive argument. *)
Definition horner_log_spec : Prop :=
  forall (cs : list R) (log_coeff x : R),
    0 < x -> horner_log cs log_coeff x = Ok (horner cs x + log_coeff * ln x).

(** [horner_log] as fluids.numerics defines it, for the examples. *)
Definition documented_horner_log : list R -> R -> R -> result R :=
  fun cs log_coeff x => lg <~ log x ;; Ok (horner cs x + log_coeff * lg).

(** ** Fugacities

    [Phase.fugacities] computes the fugacities from [lnphis()];
    [IdealGas] overrides it. *)
Definition Phase_fugacities (lnphis_m : Method (list R)) : Method (list R) :=
  P <- attr obj_P ;;
  zs <- attr obj_zs ;;
  lnphis <- lnphis_m ;;
  comprehension
    (fun i => lift (zi <~ getitem zs i ;;
                    li <~ getitem lnphis i ;;
                    Ok (P * zi * exp li)))
    (range (length zs)).

Definition IdealGas_fugacities : Method (list R) :=
  P <- attr obj_P ;;
  zs <- attr obj_zs ;;
  ret (map (fun zi => P * zi) zs).

(** ** The memoized list of [Psats]

    The attribute [name] is set on the object. *)
Definition memoized_list (name : string) (s : PhaseObj) : Prop :=
  is_Some (list_attrs s !! name).

(** The list that a call returns is the memoized one. *)
Definition returns_memoized (name : string) (r : result (list R))
    (s : PhaseObj) : Prop :=
  exists l, list_attrs s !! name = Some l /\ forall v, r = Ok v -> v = l.

(** The same object constructed with [henry_components] and
    [henry_data]: [has_henry_components] is [any(henry_components)]. *)
Definition with_henry (components : list bool)
    (data : option (list (list (option (list R))))) (o : PhaseObj)
    : PhaseObj :=
  {| cls := cls o; obj_T := obj_T o; obj_P := obj_P o; obj_zs := obj_zs o;
     obj_N := obj_N o; obj_cmps := obj_cmps o; eos_mix := eos_mix o;
     eos_pures_STP := eos_pures_STP o;
     HeatCapacityGases := HeatCapacityGases o; Hfs := Hfs o; Gfs := Gfs o;
     Sfs := Sfs o; Cpgs_locked := Cpgs_locked o; Cpgs_data := Cpgs_data o;
     eos_class := eos_class o; eos_kwargs := eos_kwargs o;
     VaporPressures := VaporPressures o; VolumeLiquids := VolumeLiquids o;
     EnthalpyVaporizations := EnthalpyVaporizations o;
     HeatCapacityLiquids := HeatCapacityLiquids o;
     eos_pure_instances := eos_pure_instances o;
     Psats_locked := Psats_locked o; Psats_data := Psats_data o;
     Cpls_locked := Cpls_locked o; Cpls_data := Cpls_data o;
     Vms_sat_locked := Vms_sat_locked o; Vms_sat_data := Vms_sat_data o;
     Hvap_locked := Hvap_locked o; Hvap_data := Hvap_data o;
     use_phis_sat := use_phis_sat o; use_Poynting := use_Poynting o;
     P_DEPENDENT_H_LIQ := P_DEPENDENT_H_LIQ o; use_IG_Cp := use_IG_Cp o;
     use_Tait := use_Tait o; Tait_B_data := Tait_B_data o;
     Tait_C_data := Tait_C_data o; henry_data := data;
     henry_components := components;
     has_henry_components := existsb (fun b => b) components;
     GibbsExcessModel := GibbsExcessModel o;
     float_attrs := float_attrs o; list_attrs := list_attrs o |}.

(** The snapshot of the example liquid constructed with
    [henry_components=[True]] and no [henry_data]. *)
Definition henry_example : PhaseObj :=
  with_henry [true] None (gibbs_liquid_example IdealSolution).

(** ** [EOSGas.H] and [EOSGas.S]

    The departure property first, then the ideal-gas sum that
    [H_ideal_gas] and [S_ideal_gas] compute on their own. *)
Definition EOSGas_H : Method R :=
  try_except (getattr_float "_H") is_AttributeError
    (H <- EOSGas_H_dep ;;
     zs <- attr obj_zs ;;
     ints <- Phase_Cpig_integrals_pure ;;
     let H := fold_left (fun H p => H + fst p * snd p) (zip zs ints) H in
     setattr_float "_H" H ;;;
     ret H).

Definition EOSGas_S : Method R :=
  try_except (getattr_float "_S") is_AttributeError
    (Cpig_integrals_over_T_pure <- Phase_Cpig_integrals_over_T_pure ;;
     log_zs <- Phase_log_zs ;;
     T <- attr obj_T ;;
     P <- attr obj_P ;;
     zs <- attr obj_zs ;;
     cmps <- attr obj_cmps ;;
     let S := 0.0 in
     terms <- comprehension
                (fun i => lift (zi <~ getitem zs i ;;
                                li <~ getitem log_zs i ;;
                                Ok (zi * li))) cmps ;;
     let S := S - Rgas * sum terms in
     lg <- lift (log (P * P_REF_IG_INV)) ;;
     let S := S - Rgas * lg in
     S <- for_each cmps
            (fun i S => lift (zi <~ getitem zs i ;;
                              ci <~ getitem Cpig_integrals_over_T_pure i ;;
                              Ok (S + zi * ci))) S ;;
     S_dep <- EOSGas_S_dep ;;
     let S := S + S_dep in
     setattr_float "_S" S ;;;
     ret S).

(** [s] is [s0] with other memoized lists: the same fields and the same
    memoized floats. *)
Definition only_lists_changed (s0 s : PhaseObj) : Prop :=
  exists la, s = with_attrs (float_attrs s0) la s0.

(** The same object constructed with the heat-capacity correlations
    [objs], not locked: [N] and [cmps] are set from their number. *)
Definition with_HeatCapacityGases (objs : list TDependentProperty)
    (o : PhaseObj) : PhaseObj :=
  {| cls := cls o; obj_T := obj_T o; obj_P := obj_P o; obj_zs := obj_zs o;
     obj_N := Some (length objs); obj_cmps := Some (range (length objs));
     eos_mix := eos_mix o; eos_pures_STP := eos_pures_STP o;
     HeatCapacityGases := Some objs; Hfs := Hfs o; Gfs := Gfs o;
     Sfs := Sfs o; Cpgs_locked := false; Cpgs_data := None;
     eos_class := eos_class o; eos_kwargs := eos_kwargs o;
     VaporPressures := VaporPressures o; VolumeLiquids := VolumeLiquids o;
     EnthalpyVaporizations := EnthalpyVaporizations o;
     HeatCapacityLiquids := HeatCapacityLiquids o;
     eos_pure_instances := eos_pure_instances o;
     Psats_locked := Psats_locked o; Psats_data := Psats_data o;
     Cpls_locked := Cpls_locked o; Cpls_data := Cpls_data o;
     Vms_sat_locked := Vms_sat_locked o; Vms_sat_data := Vms_sat_data o;
     Hvap_locked := Hvap_locked o; Hvap_data := Hvap_data o;
     use_phis_sat := use_phis_sat o; use_Poynting := use_Poynting o;
     P_DEPENDENT_H_LIQ := P_DEPENDENT_H_LIQ o; use_IG_Cp := use_IG_Cp o;
     use_Tait := use_Tait o; Tait_B_data := Tait_B_data o;
     Tait_C_data := Tait_C_data o; henry_data := henry_data o;
     henry_components := henry_components o;
     has_henry_components := has_henry_components o;
     GibbsExcessModel := GibbsExcessModel o;
     float_attrs := float_attrs o; list_attrs := list_attrs o |}.

(** An [EOSGas] snapshot of two components with constant heat capacities
    of 30 J/mol/K, holding the example solution. *)
Definition eos_gas_Cp_example : PhaseObj :=
  EOSGas_copy
    (with_HeatCapacityGases [constant_property 30; constant_property 30]
       (new_object EOSGas))
    (Some 350) (Some 200000) [0.4; 0.6] (Some example_mix).

(** ** Gibbs, internal and Helmholtz energies of class [Phase]

    [Phase.G], [Phase.U] and [Phase.A] call the methods [H], [S] and [V]
    of the receiver's class. *)
Section Energies.

Variables H S V : Method R.

Definition Phase_G : Method R :=
  h <- H ;;
  T <- attr obj_T ;;
  s <- S ;;
  ret (h - T * s).

Definition Phase_U : Method R :=
  h <- H ;;
  P <- attr obj_P ;;
  v <- V ;;
  ret (h - P * v).

Definition Phase_A : Method R :=
  u <- Phase_U ;;
  T <- attr obj_T ;;
  s <- S ;;
  ret (u - T * s).

End Energies.

Definition EOSGas_G : Method R := Phase_G EOSGas_H EOSGas_S.
Definition EOSGas_U : Method R := Phase_U EOSGas_H EOSGas_V.
Definition EOSGas_A : Method R := Phase_A EOSGas_H EOSGas_S EOSGas_V.

(** ** Fugacity coefficients of [GibbsExcessLiquid]

    Two collaborators of other modules: [gammas()] of the activity model,
    whose memoized [_gammas] is what it returned, and [phi_sat(T)] of a
    pure-component equation of state. *)
Variable GibbsExcess_gammas : GibbsExcess -> result (list R).
Variable phi_sat : EosMix -> R -> result R.

Definition GibbsExcessLiquid_gammas : Method (list R) :=
  model <- field GibbsExcessModel ;;
  lift (GibbsExcess_gammas model).

Definition GibbsExcessLiquid_Poyntings : Method (list R) :=
  try_except (getattr_list "_Poyntings") is_AttributeError
    (use_Poynting <- field use_Poynting ;;
     if negb use_Poynting then
       N <- attr obj_N ;;
       setattr_list "_Poyntings" (replicate N 1.0) ;;;
       getattr_list "_Poyntings"
     else
       T <- attr obj_T ;;
       P <- attr obj_P ;;
       Psats <- GibbsExcessLiquid_Psats ;;
       Vmls <- GibbsExcessLiquid_Vms_sat ;;
       l <- comprehension
              (fun p => lift (q <~ div (snd p * (P - fst p)) (Rgas * T) ;;
                              Ok (exp q)))
              (zip Psats Vmls) ;;
       setattr_list "_Poyntings" l ;;;
       getattr_list "_Poyntings").

Definition GibbsExcessLiquid_phis_sat : Method (list R) :=
  try_except (getattr_list "_phis_sat") is_AttributeError
    (use_phis_sat <- field use_phis_sat ;;
     if negb use_phis_sat then
       N <- attr obj_N ;;
       setattr_list "_phis_sat" (replicate N 1.0) ;;;
       getattr_list "_phis_sat"
     else
       T <- attr obj_T ;;
       objs <- field eos_pure_instances ;;
       objs <- not_None objs ;;
       l <- comprehension (fun i => lift (phi_sat i T)) objs ;;
       setattr_list "_phis_sat" l ;;;
       getattr_list "_phis_sat").

Definition GibbsExcessLiquid_phis : Method (list R) :=
  try_except (getattr_list "_phis") is_AttributeError
    (P <- attr obj_P ;;
     gammas <- try_except (getattr_list "_gammas") is_AttributeError
                 GibbsExcessLiquid_gammas ;;
     Psats <- try_except (getattr_list "_Psats") is_AttributeError
                GibbsExcessLiquid_Psats ;;
     phis_sat <- try_except (getattr_list "_phis_sat") is_AttributeError
                   GibbsExcessLiquid_phis_sat ;;
     Poyntings <- try_except (getattr_list "_Poyntings") is_AttributeError
                    GibbsExcessLiquid_Poyntings ;;
     P_inv <- lift (div 1.0 P) ;;
     cmps <- attr obj_cmps ;;
     l <- comprehension
            (fun i => lift (g <~ getitem gammas i ;;
                            p <~ getitem Psats i ;;
                            po <~ getitem Poyntings i ;;
                            ps <~ getitem phis_sat i ;;
                            Ok (g * p * po * ps * P_inv))) cmps ;;
     setattr_list "_phis" l ;;;
     getattr_list "_phis").

Definition GibbsExcessLiquid_lnphis : Method (list R) :=
  try_except (getattr_list "_lnphis") is_AttributeError
    (phis <- GibbsExcessLiquid_phis ;;
     l <- comprehension (fun p => lift (log p)) phis ;;
     setattr_list "_lnphis" l ;;;
     getattr_list "_lnphis").

Definition GibbsExcessLiquid_fugacities : Method (list R) :=
  Phase_fugacities GibbsExcessLiquid_lnphis.

(** [s] is [s0] with the memoized list [name] set. *)
Definition only_list_set (name : string) (s0 s : PhaseObj) : Prop :=
  exists l,
    s = with_attrs (float_attrs s0) (<[name := l]> (list_attrs s0)) s0.

(** The fugacity coefficient of component [i] that [phis()] computes from
    the activity coefficients [gs] and the saturation pressures [ps] when
    both corrections are 1. *)
Definition uncorrected_phi (gs ps : list R) (P : R) (i : nat) : R :=
  default 0 (gs !! i) * default 0 (ps !! i) * 1.0 * 1.0 * (1.0 / P).

(** Stand-ins for the two collaborators: an activity model whose
    coefficients are 1 for every component, and saturation fugacity
    coefficients of 1. *)
Definition example_gammas : GibbsExcess -> result (list R) :=
  fun m => Ok (map (fun _ => 1) (GE_xs m)).
Definition example_phi_sat : EosMix -> R -> result R :=
  fun _ _ => Ok 1.

(** ** Volume derivatives of [GibbsExcessLiquid]

    [self.VolumeLiquidMixture]: no statement of the module assigns this
    attribute and no class defines it (the assignments in [__init__] and
    [to_TP_zs] are comments), so that reading it raises [AttributeError].
    [property_derivative_P] is the method of the mixture-volume object
    that [dP_dV] would call. *)
Variable property_derivative_P : unit -> R -> R -> list R -> result R.

Definition VolumeLiquidMixture : Method unit := raise AttributeError.

Definition GibbsExcessLiquid_dV_dT : Method R :=
  try_except (getattr_float "_dV_dT") is_AttributeError
    (zs <- attr obj_zs ;;
     dVms_sat_dT <- GibbsExcessLiquid_dVms_sat_dT ;;
     let dV_dT := 0.0 in
     cmps <- attr obj_cmps ;;
     dV_dT <- for_each cmps
                (fun i dV_dT =>
                   lift (zi <~ getitem zs i ;;
                         d <~ getitem dVms_sat_dT i ;;
                         Ok (dV_dT + zi * d))) dV_dT ;;
     setattr_float "_dV_dT" dV_dT ;;;
     ret dV_dT).

Definition GibbsExcessLiquid_dP_dV : Method R :=
  try_except (getattr_float "_dP_dV") is_AttributeError
    (mixture <- VolumeLiquidMixture ;;
     T <- attr obj_T ;;
     P <- attr obj_P ;;
     zs <- attr obj_zs ;;
     d <- lift (property_derivative_P mixture T P zs) ;;
     q <- lift (div 1.0 d) ;;
     setattr_float "_dP_dV" q ;;;
     getattr_float "_dP_dV").

Definition GibbsExcessLiquid_dP_dT : Method R :=
  try_except (getattr_float "_dP_dT") is_AttributeError
    (a <- GibbsExcessLiquid_dV_dT ;;
     b <- GibbsExcessLiquid_dP_dV ;;
     q <- lift (div a (- b)) ;;
     setattr_float "_dP_dT" q ;;;
     getattr_float "_dP_dT").

(** [Phase.dT_dP] and [Phase.dV_dP] on a [GibbsExcessLiquid], which
    overrides [dV_dT]. *)
Definition GibbsExcessLiquid_dT_dP : Method R :=
  Phase_dT_dP GibbsExcessLiquid_dP_dT.
Definition GibbsExcessLiquid_dV_dP : Method R :=
  a <- GibbsExcessLiquid_dV_dT ;;
  b <- GibbsExcessLiquid_dT_dP ;;
  ret (- a * b).

(** Neither [_dP_dV] nor [_dP_dT] is memoized. *)
Definition no_pressure_derivative (s : PhaseObj) : Prop :=
  float_attrs s !! "_dP_dV" = None /\ float_attrs s !! "_dP_dT" = None.

(** A stand-in for the method of the mixture-volume object. *)
Definition example_property_derivative_P
    : unit -> R -> R -> list R -> result R :=
  fun _ _ _ _ => Ok 1.

(** ** The pressure of the snapshot

    The same object at the pressure [p]. *)
Definition with_P (p : option R) (o : PhaseObj) : PhaseObj :=
  {| cls := cls o; obj_T := obj_T o; obj_P := p; obj_zs := obj_zs o;
     obj_N := obj_N o; obj_cmps := obj_cmps o; eos_mix := eos_mix o;
     eos_pures_STP := eos_pures_STP o;
     HeatCapacityGases := HeatCapacityGases o; Hfs := Hfs o; Gfs := Gfs o;
     Sfs := Sfs o; Cpgs_locked := Cpgs_locked o; Cpgs_data := Cpgs_data o;
     eos_class := eos_class o; eos_kwargs := eos_kwargs o;
     VaporPressures := VaporPressures o; VolumeLiquids := VolumeLiquids o;
     EnthalpyVaporizations := EnthalpyVaporizations o;
     HeatCapacityLiquids := HeatCapacityLiquids o;
     eos_pure_instances := eos_pure_instances o;
     Psats_locked := Psats_locked o; Psats_data := Psats_data o;
     Cpls_locked := Cpls_locked o; Cpls_data := Cpls_data o;
     Vms_sat_locked := Vms_sat_locked o; Vms_sat_data := Vms_sat_data o;
     Hvap_locked := Hvap_locked o; Hvap_data := Hvap_data o;
     use_phis_sat := use_phis_sat o; use_Poynting := use_Poynting o;
     P_DEPENDENT_H_LIQ := P_DEPENDENT_H_LIQ o; use_IG_Cp := use_IG_Cp o;
     use_Tait := use_Tait o; Tait_B_data := Tait_B_data o;
     Tait_C_data := Tait_C_data o; henry_data := henry_data o;
     henry_components := henry_components o;
     has_henry_components := has_henry_components o;
     GibbsExcessModel := GibbsExcessModel o;
     float_attrs := float_attrs o; list_attrs := list_attrs o |}.

(** The method does the same at every pressure: it returns or raises the
    same, and leaves the same object but for the pressure. *)
Definition ignores_P {A} (m : Method A) : Prop :=
  forall p s, m (with_P p s) = ((m s).1, with_P p (m s).2).

(** ** The reference offset of the heat-capacity integral

    Modelled from the spec: the offset of column 11 replaces the evaluation
    at the reference temperature of the closed-form integral of the same
    three-piece fit.  [documented_best_fit_integral_value] is that closed
    form, the one which [_Cp_integrals_pure_fast] keeps as a comment above
    its loop body: the antiderivative of the low extrapolation below
    [Tmin], continued by the polynomial antiderivative inside the fit range
    and by the antiderivative of the high extrapolation above [Tmax]. *)
Definition documented_best_fit_integral_value (T : R) (int_coeffs : list R)
    (Tmin Tmax Tmin_value Tmax_value Tmin_slope Tmax_slope : R) : result R :=
  let x1 := Tmin_value - Tmin_slope * Tmin in
  if Rlt_dec T Tmin then Ok (T * (0.5 * Tmin_slope * T + x1))
  else
    let tot := Tmin * (0.5 * Tmin_slope * Tmin + x1) in
    if Rle_dec T Tmax then
      Ok (tot + (horner int_coeffs T - horner int_coeffs Tmin))
    else
      let tot1 := horner int_coeffs Tmax - horner int_coeffs Tmin in
      let x1 := Tmax_value - Tmax_slope * Tmax in
      let tot2 := T * (0.5 * Tmax_slope * T + x1)
                  - Tmax * (0.5 * Tmax_slope * Tmax + x1) in
      Ok (tot + tot1 + tot2).

(** [best_fit_integral_value] of fluids.numerics computes that closed
    form. *)
Definition best_fit_integral_value_spec : Prop :=
  forall (T : R) (int_coeffs : list R)
         (Tmin Tmax Tmin_value Tmax_value Tmin_slope Tmax_slope : R),
    best_fit_integral_value T int_coeffs Tmin Tmax Tmin_value Tmax_value
      Tmin_slope Tmax_slope
    = documented_best_fit_integral_value T int_coeffs Tmin Tmax Tmin_value
        Tmax_value Tmin_slope Tmax_slope.

(** The closed-form integral of the three-piece fit of [obj], up to [T]. *)
Definition three_piece_integral (obj : TDependentProperty) (T : R) : R :=
  value_of
    (documented_best_fit_integral_value T (best_fit_int_coeffs obj)
       (best_fit_Tmin obj) (best_fit_Tmax obj) (best_fit_Tmin_value obj)
       (best_fit_Tmax_value obj) (best_fit_Tmin_slope obj)
       (best_fit_Tmax_slope obj)).

(** * Reasoning about methods *)

(** A Hoare triple for a method: from a receiver satisfying [Pre], the result
    and the receiver afterwards satisfy [Post]. *)
Definition hoare {A} (Pre : PhaseObj -> Prop) (m : Method A)
    (Post : result A -> PhaseObj -> Prop) : Prop :=
  forall s, Pre s -> Post (m s).1 (m s).2.

(** The method keeps the invariant [I] of the receiver, whatever it returns
    or raises. *)
Definition preserves {A} (I : PhaseObj -> Prop) (m : Method A) : Prop :=
  hoare I m (fun _ s' => I s').

(** The memoized attribute that [dVms_sat_dT_T_ref] stores. *)
Definition KEY : string := "_dVms_sat_dT_T_ref".

(** The receiver has locked liquid-volume correlations, selects the
    liquid-Cp reference path, and has not memoized [_dVms_sat_dT_T_ref]. *)
Definition locked_liquid_Cp_path (s : PhaseObj) : Prop :=
  Vms_sat_locked s = true /\
  P_DEPENDENT_H_LIQ s = true /\
  use_IG_Cp s = false /\
  list_attrs s !! KEY = None.

(** The call raises. *)
Definition raises {A} (r : result A) (s : PhaseObj) : Prop :=
  is_Ok r = false.

Lemma bind_Ok_inv {A B} (m : Method A) (k : A -> Method B) s v s' :
  bind m k s = (Ok v, s') ->
  exists a s1, m s = (Ok a, s1) /\ k a s1 = (Ok v, s').
Proof.
  unfold bind. destruct (m s) as [[a|e] s1]; intros H.
  - exists a, s1. split; [reflexivity | exact H].
  - discriminate H.
Qed.

Lemma hoare_conseq {A} (P P' : PhaseObj -> Prop) (m : Method A)
    (Q Q' : result A -> PhaseObj -> Prop) :
  hoare P' m Q' -> (forall s, P s -> P' s) ->
  (forall r s, Q' r s -> Q r s) -> hoare P m Q.
Proof. intros H HP HQ s Hs. apply HQ, H, HP, Hs. Qed.

Lemma hoare_bind {A B} (P P' : PhaseObj -> Prop) (m : Method A)
    (k : A -> Method B) (Q : result B -> PhaseObj -> Prop) :
  hoare P m (fun r s => match r with
                        | Ok _ => P' s
                        | Raise e => Q (Raise e) s
                        end) ->
  (forall a, hoare P' (k a) Q) ->
  hoare P (bind m k) Q.
Proof.
  intros Hm Hk s Hs. specialize (Hm s Hs). unfold bind.
  destruct (m s) as [[a|e] s1]; simpl in *.
  - apply Hk, Hm.
  - exact Hm.
Qed.

Section Frame.

Variable I : PhaseObj -> Prop.
Hypothesis I_float : forall s name v,
  I s -> I (with_attrs (<[name := v]> (float_attrs s)) (list_attrs s) s).
Hypothesis I_list : forall s name v,
  name <> KEY ->
  I s -> I (with_attrs (float_attrs s) (<[name := v]> (list_attrs s)) s).

Lemma preserves_ret {A} (a : A) : preserves I (ret a).
Proof. intros s Hs. exact Hs. Qed.
Lemma preserves_raise {A} e : preserves I (@raise A e).
Proof. intros s Hs. exact Hs. Qed.
Lemma preserves_lift {A} (r : result A) : preserves I (lift r).
Proof. intros s Hs. exact Hs. Qed.
Lemma preserves_attr {A} (f : PhaseObj -> option A) : preserves I (attr f).
Proof. intros s Hs. unfold attr. destruct (f s); exact Hs. Qed.
Lemma preserves_field {A} (f : PhaseObj -> A) : preserves I (field f).
Proof. intros s Hs. exact Hs. Qed.
Lemma preserves_not_None {A} (o : option A) : preserves I (not_None o).
Proof. intros s Hs. destruct o; exact Hs. Qed.
Lemma preserves_getattr_float name : preserves I (getattr_float name).
Proof.
  intros s Hs. unfold getattr_float. destruct (float_attrs s !! name); exact Hs.
Qed.
Lemma preserves_getattr_list name : preserves I (getattr_list name).
Proof.
  intros s Hs. unfold getattr_list. destruct (list_attrs s !! name); exact Hs.
Qed.
Lemma preserves_setattr_float name v : preserves I (setattr_float name v).
Proof using I_float. intros s Hs. apply I_float, Hs. Qed.
Lemma preserves_setattr_list name v :
  name <> KEY -> preserves I (setattr_list name v).
Proof using I_list. intros Hn s Hs. apply I_list; assumption. Qed.

Lemma preserves_bind {A B} (m : Method A) (k : A -> Method B) :
  preserves I m -> (forall a, preserves I (k a)) -> preserves I (bind m k).
Proof.
  intros Hm Hk. apply hoare_bind with (P' := I).
  - intros s Hs. specialize (Hm s Hs). destruct (m s) as [[a|e] s1]; exact Hm.
  - exact Hk.
Qed.

Lemma preserves_try_except {A} (m h : Method A) catches :
  preserves I m -> preserves I h -> preserves I (try_except m catches h).
Proof.
  intros Hm Hh s Hs. specialize (Hm s Hs). unfold try_except.
  destruct (m s) as [[a|e] s1]; simpl in *; [exact Hm |].
  destruct (catches e); [apply Hh, Hm | exact Hm].
Qed.

Lemma preserves_for_each {A B} (xs : list A) (body : A -> B -> Method B) acc :
  (forall x b, preserves I (body x b)) -> preserves I (for_each xs body acc).
Proof.
  intros Hb. revert acc.
  induction xs as [|x xs IH]; intros acc; simpl.
  - apply preserves_ret.
  - apply preserves_bind; [apply Hb | intros a; apply IH].
Qed.

Lemma preserves_comprehension {A B} (f : A -> Method B) (xs : list A) :
  (forall x, preserves I (f x)) -> preserves I (comprehension f xs).
Proof.
  intros Hf. induction xs as [|x xs IH]; simpl.
  - apply preserves_ret.
  - apply preserves_bind; [apply Hf | intros y].
    apply preserves_bind; [apply IH | intros ys; apply preserves_ret].
Qed.

Lemma preserves_append_attr name v :
  name <> KEY -> preserves I (append_attr name v).
Proof using I_list.
  intros Hn. unfold append_attr.
  apply preserves_bind; [apply preserves_getattr_list | intros l].
  apply preserves_setattr_list, Hn.
Qed.

Lemma preserves_setitem_attr name i v :
  name <> KEY -> preserves I (setitem_attr name i v).
Proof using I_list.
  intros Hn. unfold setitem_attr.
  apply preserves_bind; [apply preserves_getattr_list | intros l].
  apply preserves_bind; [apply preserves_lift | intros l'].
  apply preserves_setattr_list, Hn.
Qed.

(** One syntax-directed step of a proof that a method keeps [I]. *)
Ltac frame_step :=
  lazymatch goal with
  | |- preserves _ (bind _ _) => apply preserves_bind; [| intros ?]
  | |- preserves _ (try_except _ _ _) => apply preserves_try_except
  | |- preserves _ (for_each _ _ _) => apply preserves_for_each; intros ? ?
  | |- preserves _ (comprehension _ _) =>
      apply preserves_comprehension; intros ?
  | |- preserves _ (ret _) => apply preserves_ret
  | |- preserves _ (raise _) => apply preserves_raise
  | |- preserves _ (lift _) => apply preserves_lift
  | |- preserves _ (attr _) => apply preserves_attr
  | |- preserves _ (field _) => apply preserves_field
  | |- preserves _ (not_None _) => apply preserves_not_None
  | |- preserves _ (getattr_float _) => apply preserves_getattr_float
  | |- preserves _ (getattr_list _) => apply preserves_getattr_list
  | |- preserves _ (setattr_float _ _) => apply preserves_setattr_float
  | |- preserves _ (setattr_list _ _) =>
      apply preserves_setattr_list; discriminate
  | |- preserves _ (append_attr _ _) =>
      apply preserves_append_attr; discriminate
  | |- preserves _ (setitem_attr _ _ _) =>
      apply preserves_setitem_attr; discriminate
  | |- preserves _ (if ?b then _ else _) => destruct b
  | |- preserves _ (match ?x with _ => _ end) => destruct x
  | |- preserves _ _ => solve [eauto with frame]
  end.
Ltac frame := repeat frame_step.

Create HintDb frame.

Lemma preserves_log_zs : preserves I Phase_log_zs.
Proof using I_list. unfold Phase_log_zs. frame. Qed.
#[local] Hint Resolve preserves_log_zs : frame.

Lemma preserves_Cp_integrals_pure_fast d :
  preserves I (Phase__Cp_integrals_pure_fast d).
Proof. unfold Phase__Cp_integrals_pure_fast. frame. Qed.
Lemma preserves_Cp_integrals_over_T_pure_fast d :
  preserves I (Phase__Cp_integrals_over_T_pure_fast d).
Proof. unfold Phase__Cp_integrals_over_T_pure_fast. frame. Qed.
#[local] Hint Resolve preserves_Cp_integrals_pure_fast
  preserves_Cp_integrals_over_T_pure_fast : frame.

Lemma preserves_Cpig_integrals_pure : preserves I Phase_Cpig_integrals_pure.
Proof using I_list. unfold Phase_Cpig_integrals_pure. frame. Qed.
Lemma preserves_Cpig_integrals_over_T_pure :
  preserves I Phase_Cpig_integrals_over_T_pure.
Proof using I_list. unfold Phase_Cpig_integrals_over_T_pure. frame. Qed.
Lemma preserves_Cpl_integrals_pure : preserves I Phase_Cpl_integrals_pure.
Proof using I_list. unfold Phase_Cpl_integrals_pure. frame. Qed.
Lemma preserves_Cpl_integrals_over_T_pure :
  preserves I Phase_Cpl_integrals_over_T_pure.
Proof using I_list. unfold Phase_Cpl_integrals_over_T_pure. frame. Qed.
#[local] Hint Resolve preserves_Cpig_integrals_pure
  preserves_Cpig_integrals_over_T_pure preserves_Cpl_integrals_pure
  preserves_Cpl_integrals_over_T_pure : frame.

Lemma preserves_H_ideal_gas : preserves I Phase_H_ideal_gas.
Proof using I_float I_list. unfold Phase_H_ideal_gas. frame. Qed.
Lemma preserves_S_ideal_gas : preserves I Phase_S_ideal_gas.
Proof using I_float I_list. unfold Phase_S_ideal_gas. frame. Qed.

Lemma preserves_Psats_T_ref : preserves I GibbsExcessLiquid_Psats_T_ref.
Proof using I_list. unfold GibbsExcessLiquid_Psats_T_ref. frame. Qed.
Lemma preserves_Psats : preserves I GibbsExcessLiquid_Psats.
Proof using I_list. unfold GibbsExcessLiquid_Psats. frame. Qed.
#[local] Hint Resolve preserves_Psats_T_ref preserves_Psats : frame.
Lemma preserves_dPsats_dT : preserves I GibbsExcessLiquid_dPsats_dT.
Proof using I_list. unfold GibbsExcessLiquid_dPsats_dT. frame. Qed.
Lemma preserves_Vms_sat : preserves I GibbsExcessLiquid_Vms_sat.
Proof using I_list. unfold GibbsExcessLiquid_Vms_sat. frame. Qed.
Lemma preserves_dVms_sat_dT : preserves I GibbsExcessLiquid_dVms_sat_dT.
Proof using I_list. unfold GibbsExcessLiquid_dVms_sat_dT. frame. Qed.
Lemma preserves_Vms_sat_T_ref : preserves I GibbsExcessLiquid_Vms_sat_T_ref.
Proof using I_list. unfold GibbsExcessLiquid_Vms_sat_T_ref. frame. Qed.
Lemma preserves_Hvaps : preserves I GibbsExcessLiquid_Hvaps.
Proof using I_list. unfold GibbsExcessLiquid_Hvaps. frame. Qed.
Lemma preserves_Hvaps_T_ref : preserves I GibbsExcessLiquid_Hvaps_T_ref.
Proof using I_list. unfold GibbsExcessLiquid_Hvaps_T_ref. frame. Qed.
#[local] Hint Resolve preserves_dPsats_dT preserves_Vms_sat
  preserves_dVms_sat_dT preserves_Vms_sat_T_ref preserves_Hvaps
  preserves_Hvaps_T_ref : frame.

Lemma preserves_Tait_accessor name data evaluate :
  name <> KEY -> preserves I (Tait_accessor name data evaluate).
Proof using I_list.
  intros Hn. unfold Tait_accessor.
  repeat first [ apply preserves_setattr_list; exact Hn | frame_step ].
Qed.
Lemma preserves_dH_dP_integrals_Tait :
  preserves I GibbsExcessLiquid_dH_dP_integrals_Tait.
Proof using I_list.
  unfold GibbsExcessLiquid_dH_dP_integrals_Tait, GibbsExcessLiquid_Tait_Bs,
    GibbsExcessLiquid_Tait_Cs, GibbsExcessLiquid_dTait_B_dTs,
    GibbsExcessLiquid_dTait_C_dTs.
  repeat first [ apply preserves_Tait_accessor; discriminate | frame_step ].
Qed.
#[local] Hint Resolve preserves_dH_dP_integrals_Tait : frame.

End Frame.

(** ** log_zs *)

Lemma with_attrs_id s : with_attrs (float_attrs s) (list_attrs s) s = s.
Proof. destruct s; reflexivity. Qed.

Lemma log_pos x : 0 < x -> log x = Ok (ln x).
Proof. intros H. unfold log. destruct (Rlt_dec 0 x); [reflexivity | lra]. Qed.
Lemma log_nonpos x : x <= 0 -> log x = Raise ValueError.
Proof. intros H. unfold log. destruct (Rlt_dec 0 x); [lra | reflexivity]. Qed.

Lemma log_or_floor_pos x : 0 < x -> log_or_floor x = ln x.
Proof.
  intros H. unfold log_or_floor. destruct (Rlt_dec 0 x); [reflexivity | lra].
Qed.
Lemma log_or_floor_nonpos x : x <= 0 -> log_or_floor x = log_floor.
Proof.
  intros H. unfold log_or_floor. destruct (Rlt_dec 0 x); [lra | reflexivity].
Qed.

Lemma comprehension_log_pos zs s :
  Forall (fun z => 0 < z) zs ->
  comprehension (fun zi => lift (log zi)) zs s = (Ok (map log_or_floor zs), s).
Proof.
  induction 1 as [|z zs Hz Hzs IH]; [reflexivity |].
  simpl. unfold bind at 1. unfold lift at 1. rewrite (log_pos z Hz).
  unfold bind at 1. rewrite IH. rewrite (log_or_floor_pos z Hz). reflexivity.
Qed.

Lemma comprehension_log_neg zs s :
  ~ Forall (fun z => 0 < z) zs ->
  comprehension (fun zi => lift (log zi)) zs s = (Raise ValueError, s).
Proof.
  induction zs as [|z zs IH]; intros Hn.
  - exfalso. apply Hn. constructor.
  - simpl. unfold bind at 1. unfold lift at 1.
    destruct (Rlt_dec 0 z) as [Hz|Hz].
    + rewrite (log_pos z Hz). unfold bind at 1. rewrite IH; [reflexivity |].
      intros Hall. apply Hn. constructor; assumption.
    + rewrite log_nonpos by lra. reflexivity.
Qed.

Lemma log_zs_fallback zs : forall s acc,
  list_attrs s !! "_log_zs" = Some acc ->
  for_each zs
    (fun zi (_ : unit) =>
       try_except (v <- lift (log zi) ;; append_attr "_log_zs" v)
         is_ValueError (append_attr "_log_zs" log_floor)) tt s
  = (Ok tt,
     with_attrs (float_attrs s)
       (<["_log_zs" := (acc ++ map log_or_floor zs)%list]> (list_attrs s)) s).
Proof.
  induction zs as [|z zs IH]; intros s acc Hs.
  - simpl. rewrite app_nil_r, insert_id by exact Hs.
    rewrite with_attrs_id. reflexivity.
  - simpl. unfold bind at 1, try_except at 1, bind at 1, lift at 1.
    assert (Hstep : forall v,
      append_attr "_log_zs" v s
      = (Ok tt, with_attrs (float_attrs s)
                  (<["_log_zs" := (acc ++ [v])%list]> (list_attrs s)) s)).
    { intros v. unfold append_attr, bind, getattr_list. rewrite Hs.
      reflexivity. }
    assert (Hnext : forall v,
      for_each zs
        (fun zi (_ : unit) =>
           try_except (v <- lift (log zi) ;; append_attr "_log_zs" v)
             is_ValueError (append_attr "_log_zs" log_floor)) tt
        (with_attrs (float_attrs s)
           (<["_log_zs" := (acc ++ [v])%list]> (list_attrs s)) s)
      = (Ok tt,
         with_attrs (float_attrs s)
           (<["_log_zs" := (acc ++ v :: map log_or_floor zs)%list]>
              (list_attrs s)) s)).
    { intros v. rewrite (IH _ (acc ++ [v])%list).
      - simpl. rewrite insert_insert_eq, <- app_assoc. reflexivity.
      - simpl. apply lookup_insert_eq. }
    destruct (Rlt_dec 0 z) as [Hz|Hz].
    + rewrite (log_pos z Hz), Hstep, Hnext, (log_or_floor_pos z Hz).
      reflexivity.
    + rewrite log_nonpos by lra. simpl.
      rewrite Hstep, Hnext, log_or_floor_nonpos by lra. reflexivity.
Qed.

Lemma log_zs_eval self zs :
  obj_zs self = Some zs ->
  list_attrs self !! "_log_zs" = None ->
  Phase_log_zs self
  = (Ok (map log_or_floor zs),
     with_attrs (float_attrs self)
       (<["_log_zs" := map log_or_floor zs]> (list_attrs self)) self).
Proof.
  intros Hzs Hc.
  unfold Phase_log_zs, try_except at 1, getattr_list at 1. rewrite Hc. simpl.
  unfold bind at 1, try_except at 1, bind at 1, attr at 1. rewrite Hzs.
  unfold bind at 1.
  destruct (List.Forall_dec (fun z => 0 < z) (fun z => Rlt_dec 0 z) zs) as [Hp|Hn].
  - rewrite (comprehension_log_pos zs self Hp).
    unfold setattr_list, getattr_list. simpl.
    rewrite lookup_insert_eq. reflexivity.
  - rewrite (comprehension_log_neg zs self Hn). simpl.
    unfold bind at 1, setattr_list at 1. unfold bind at 1, attr at 1. simpl.
    rewrite Hzs.
    rewrite (log_zs_fallback zs _ []) by (simpl; apply lookup_insert_eq).
    simpl. unfold getattr_list. simpl.
    rewrite insert_insert_eq, lookup_insert_eq. reflexivity.
Qed.

(** C7: [log_zs()] does not raise; an entry with [zs_i > 0] is [log(zs_i)]
    and an entry with [zs_i <= 0] is the floor constant
    [-690.7755278982137]. *)
Theorem log_zs_floor (self : PhaseObj) (zs : list R) :
  obj_zs self = Some zs ->
  list_attrs self !! "_log_zs" = None ->
  exists l : list R,
    (Phase_log_zs self).1 = Ok l /\
    length l = length zs /\
    forall (i : nat) (zi : R), zs !! i = Some zi ->
      (0 < zi -> l !! i = Some (ln zi)) /\
      (zi <= 0 -> l !! i = Some (-690.7755278982137)).
Proof.
  intros Hzs Hc. exists (map log_or_floor zs).
  rewrite (log_zs_eval self zs Hzs Hc). split; [reflexivity |].
  split; [apply length_map |].
  intros i zi Hi. rewrite list_lookup_fmap_Some_2 with (x := zi) by exact Hi.
  split; intros Hz.
  - rewrite log_or_floor_pos by exact Hz. reflexivity.
  - rewrite log_or_floor_nonpos by exact Hz. reflexivity.
Qed.

(** ** IdealGas: volume and activity coefficients *)

Lemma zero_dot : 0.0 = 0.
Proof. lra. Qed.
Lemma exp_zero_dot : exp 0.0 = 1.
Proof. rewrite zero_dot. apply exp_0. Qed.

Lemma IdealGas_phis_eval T P zs self :
  IdealGas_phis (IdealGas_snapshot T P zs self)
  = (Ok (replicate (length zs) 1), IdealGas_snapshot T P zs self).
Proof.
  unfold IdealGas_phis, Phase_phis, IdealGas_lnphis, bind, attr, ret. simpl.
  rewrite fmap_replicate, exp_zero_dot. reflexivity.
Qed.

Lemma div_one_one : div 1 1 = Ok 1.0.
Proof.
  unfold div. destruct (Req_dec_T 1 0) as [H|H]; [lra |].
  f_equal. lra.
Qed.

Lemma IdealGas_pure_step T P zs self (N i : nat) (acc : list R) :
  (i < N)%nat ->
  (zeros <- lift (setitem (replicate N 0.0) i 1.0) ;;
   new <- IdealGas_to_TP_zs T P zeros ;;
   new_phis <- call_on new IdealGas_phis ;;
   phi <- lift (getitem new_phis i) ;;
   ret (acc ++ [phi])%list) (IdealGas_snapshot T P zs self)
  = (Ok (acc ++ [1])%list, IdealGas_snapshot T P zs self).
Proof.
  intros Hlt.
  unfold bind at 1, lift at 1, setitem. rewrite length_replicate.
  destruct (i <? N)%nat eqn:E; [| apply Nat.ltb_ge in E; lia].
  unfold bind at 1, IdealGas_to_TP_zs at 1.
  unfold bind at 1, call_on at 1. rewrite IdealGas_phis_eval.
  cbn [fst]. unfold bind at 1, lift at 1, getitem.
  rewrite length_insert, length_replicate.
  rewrite lookup_replicate_2 by exact Hlt. reflexivity.
Qed.

Lemma IdealGas_pure_loop T P zs self (N : nat) : forall (n a : nat) acc,
  (a + n <= N)%nat ->
  for_each (seq a n)
    (fun i (phis_pure : list R) =>
       zeros <- lift (setitem (replicate N 0.0) i 1.0) ;;
       new <- IdealGas_to_TP_zs T P zeros ;;
       new_phis <- call_on new IdealGas_phis ;;
       phi <- lift (getitem new_phis i) ;;
       ret (phis_pure ++ [phi])%list) acc (IdealGas_snapshot T P zs self)
  = (Ok (acc ++ replicate n 1)%list, IdealGas_snapshot T P zs self).
Proof.
  induction n as [|n IH]; intros a acc Ha; cbn [seq for_each].
  - unfold ret. rewrite app_nil_r. reflexivity.
  - unfold bind at 1. cbv beta.
    rewrite (IdealGas_pure_step T P zs self N a acc) by lia.
    rewrite IH by lia. rewrite <- app_assoc. reflexivity.
Qed.

Lemma gammas_ratio (N : nat) s : forall (n a : nat),
  (a + n <= N)%nat ->
  comprehension
    (fun i => lift (x <~ getitem (replicate N 1) i ;;
                    y <~ getitem (replicate N 1) i ;;
                    div x y)) (seq a n) s
  = (Ok (replicate n 1.0), s).
Proof.
  induction n as [|n IH]; intros a Ha; cbn [seq comprehension];
    [reflexivity |].
  unfold bind at 1. cbv beta. unfold lift at 1, getitem.
  rewrite lookup_replicate_2 by lia. cbn [rbind]. rewrite div_one_one.
  unfold bind at 1. rewrite IH by lia. reflexivity.
Qed.

(** C8: for an IdealGas snapshot of any composition [zs], [gammas()] is a
    list of [len(zs)] values [1.0]: the fugacity coefficients of the mixture
    and of each unit-composition sub-evaluation are all [exp(0)]. *)
Theorem IdealGas_gammas_all_one (self : PhaseObj) (T P : R) (zs : list R) :
  IdealGas_gammas (IdealGas_snapshot T P zs self)
  = (Ok (replicate (length zs) 1.0), IdealGas_snapshot T P zs self).
Proof.
  unfold IdealGas_gammas, Phase_gammas.
  unfold bind at 1. rewrite IdealGas_phis_eval.
  unfold bind at 1, attr at 1. simpl obj_T.
  unfold bind at 1, attr at 1. simpl obj_P.
  unfold bind at 1, attr at 1. simpl obj_zs.
  unfold bind at 1, attr at 1. simpl obj_cmps.
  unfold bind at 1, attr at 1. simpl obj_N.
  unfold bind at 1, range. cbv zeta.
  rewrite (IdealGas_pure_loop T P zs self (length zs) (length zs) 0%nat [])
    by lia.
  simpl app. apply gammas_ratio. lia.
Qed.

(** C4 (a defect of the code): the class [IdealGas] defines no accessor
    [V] and neither does [Phase], so that on every IdealGas object the call
    [V()] raises [AttributeError] where the claim says it returns [R*T/P],
    and with it [rho()], which [Phase] computes as [1.0/self.V()].  The
    value [R*T/P] is what [V_ideal_gas()] returns for a snapshot with
    temperature [T] and pressure [P <> 0]. *)
Theorem IdealGas_V_missing (self : PhaseObj) (T P : R) :
  cls self = IdealGas ->
  obj_T self = Some T ->
  obj_P self = Some P ->
  P <> 0 ->
  call_V self = (Raise AttributeError, self) /\
  (call_V self).1 <> Ok (Rgas * T / P) /\
  Phase_rho call_V self = (Raise AttributeError, self) /\
  Phase_V_ideal_gas self = (Ok (Rgas * T / P), self).
Proof.
  intros Hc HT HP HP0.
  assert (HV : call_V self = (Raise AttributeError, self))
    by (unfold call_V; rewrite Hc; reflexivity).
  split; [exact HV |].
  split; [rewrite HV; discriminate |].
  split.
  - unfold Phase_rho, bind. rewrite HV. reflexivity.
  - unfold Phase_V_ideal_gas, bind, attr, lift, div. rewrite HT, HP.
    destruct (Req_dec_T P 0) as [H|H]; [contradiction | reflexivity].
Qed.

(** ** Evaluation of the combinators *)

Lemma bind_eval_Ok {A B} (m : Method A) (k : A -> Method B) s a s' :
  m s = (Ok a, s') -> bind m k s = k a s'.
Proof. intros H. unfold bind. rewrite H. reflexivity. Qed.

Lemma bind_eval_Raise {A B} (m : Method A) (k : A -> Method B) s e s' :
  m s = (Raise e, s') -> bind m k s = (Raise e, s').
Proof. intros H. unfold bind. rewrite H. reflexivity. Qed.

Lemma try_eval_Ok {A} (m h : Method A) catches s a s' :
  m s = (Ok a, s') -> try_except m catches h s = (Ok a, s').
Proof. intros H. unfold try_except. rewrite H. reflexivity. Qed.

Lemma try_eval_caught {A} (m h : Method A) catches s e s' :
  m s = (Raise e, s') -> catches e = true ->
  try_except m catches h s = h s'.
Proof. intros H Hc. unfold try_except. rewrite H, Hc. reflexivity. Qed.

Lemma try_eval_uncaught {A} (m h : Method A) catches s e s' :
  m s = (Raise e, s') -> catches e = false ->
  try_except m catches h s = (Raise e, s').
Proof. intros H Hc. unfold try_except. rewrite H, Hc. reflexivity. Qed.

Lemma attr_eval {A} (f : PhaseObj -> option A) s a :
  f s = Some a -> attr f s = (Ok a, s).
Proof. intros H. unfold attr. rewrite H. reflexivity. Qed.

Lemma attr_eval_absent {A} (f : PhaseObj -> option A) s :
  f s = None -> attr f s = (Raise AttributeError, s).
Proof. intros H. unfold attr. rewrite H. reflexivity. Qed.

Lemma eos_attr_eval {A} (root : EosMix -> option EosRoot) (X : EosRoot -> A)
    s mix :
  eos_mix s = Some mix ->
  eos_attr root X s
  = (match root mix with
     | Some r => Ok (X r)
     | None => Raise AttributeError
     end, s).
Proof.
  intros Hm. unfold eos_attr.
  rewrite (bind_eval_Ok _ _ s mix s) by (apply attr_eval, Hm).
  destruct (root mix); reflexivity.
Qed.

(** ** EOSGas: branch fallback *)

Lemma EOS_accessor_eval {A} (first second : EosMix -> option EosRoot)
    (X : EosRoot -> A) self mix :
  eos_mix self = Some mix ->
  EOS_accessor first second X self
  = (match first mix with
     | Some r => Ok (X r)
     | None => match second mix with
               | Some r => Ok (X r)
               | None => Raise AttributeError
               end
     end, self).
Proof.
  intros Hm. unfold EOS_accessor.
  pose proof (eos_attr_eval first X self mix Hm) as H1.
  pose proof (eos_attr_eval second X self mix Hm) as H2.
  destruct (first mix).
  - apply (try_eval_Ok _ _ _ _ _ _ H1).
  - rewrite (try_eval_caught _ _ _ _ _ _ H1) by reflexivity. exact H2.
Qed.

Lemma two_way_fallback_intro {A} mix (X : EosRoot -> A) :
  two_way_fallback mix X
    (match root_g mix with
     | Some r => Ok (X r)
     | None => match root_l mix with
               | Some r => Ok (X r)
               | None => Raise AttributeError
               end
     end).
Proof.
  unfold two_way_fallback.
  destruct (root_g mix) as [g|]; [| destruct (root_l mix) as [l|]].
  - split; [intros g' [= <-]; reflexivity |].
    split; [intros l' Hg; discriminate Hg | intros H; discriminate H].
  - split; [intros g' Hg; discriminate Hg |].
    split; [intros l' _ [= <-]; reflexivity | intros H; discriminate H].
  - split; [intros g' Hg; discriminate Hg |].
    split; [intros l' _ Hl; discriminate Hl | intros _; split; reflexivity].
Qed.

Lemma EOS_accessor_fallback {A} (X : EosRoot -> A) self mix :
  eos_mix self = Some mix ->
  two_way_fallback mix X (EOS_accessor root_g root_l X self).1.
Proof.
  intros Hm. rewrite (EOS_accessor_eval root_g root_l X self mix Hm).
  apply two_way_fallback_intro.
Qed.

Lemma EOS_lnphis_of_eval root self mix zs :
  eos_mix self = Some mix ->
  obj_zs self = Some zs ->
  EOS_lnphis_of root self
  = (match root mix with
     | Some r => Ok (fugacity_coefficients mix (root_Z r) zs)
     | None => Raise AttributeError
     end, self).
Proof.
  intros Hm Hz. unfold EOS_lnphis_of.
  rewrite (bind_eval_Ok _ _ self mix self) by (apply attr_eval, Hm).
  pose proof (eos_attr_eval root root_Z self mix Hm) as HZ.
  destruct (root mix) as [r|].
  - rewrite (bind_eval_Ok _ _ _ _ _ HZ).
    rewrite (bind_eval_Ok _ _ self zs self) by (apply attr_eval, Hz).
    reflexivity.
  - apply (bind_eval_Raise _ _ _ _ _ HZ).
Qed.

Lemma EOSGas_lnphis_eval self mix zs :
  eos_mix self = Some mix ->
  obj_zs self = Some zs ->
  EOSGas_lnphis self
  = (match root_g mix with
     | Some r => Ok (fugacity_coefficients mix (root_Z r) zs)
     | None => match root_l mix with
               | Some r => Ok (fugacity_coefficients mix (root_Z r) zs)
               | None => Raise AttributeError
               end
     end, self).
Proof.
  intros Hm Hz. unfold EOSGas_lnphis.
  pose proof (EOS_lnphis_of_eval root_g self mix zs Hm Hz) as H1.
  pose proof (EOS_lnphis_of_eval root_l self mix zs Hm Hz) as H2.
  destruct (root_g mix).
  - apply (try_eval_Ok _ _ _ _ _ _ H1).
  - rewrite (try_eval_caught _ _ _ _ _ _ H1) by reflexivity. exact H2.
Qed.

Lemma EOSGas_dlnphis_eval (X : EosRoot -> list R) self mix :
  eos_mix self = Some mix ->
  try_except (eos_attr root_g X) any_exception (eos_attr root_l X) self
  = (match root_g mix with
     | Some r => Ok (X r)
     | None => match root_l mix with
               | Some r => Ok (X r)
               | None => Raise AttributeError
               end
     end, self).
Proof.
  intros Hm.
  pose proof (eos_attr_eval root_g X self mix Hm) as H1.
  pose proof (eos_attr_eval root_l X self mix Hm) as H2.
  destruct (root_g mix).
  - apply (try_eval_Ok _ _ _ _ _ _ H1).
  - rewrite (try_eval_caught _ _ _ _ _ _ H1) by reflexivity. exact H2.
Qed.

(** C5: on an [EOSGas] snapshot each primitive accessor returns the
    gas-branch quantity when the gas root exists, the liquid-branch quantity
    when the gas root is absent and the liquid root exists, and fails only
    when neither root exists; no accessor changes the snapshot. *)
Theorem EOSGas_accessors_fall_back (self : PhaseObj) (mix : EosMix)
    (zs : list R) :
  eos_mix self = Some mix ->
  obj_zs self = Some zs ->
  two_way_fallback mix root_V (EOSGas_V self).1 /\
  two_way_fallback mix root_dP_dT (EOSGas_dP_dT self).1 /\
  two_way_fallback mix root_dP_dV (EOSGas_dP_dV self).1 /\
  two_way_fallback mix root_d2P_dT2 (EOSGas_d2P_dT2 self).1 /\
  two_way_fallback mix root_d2P_dV2 (EOSGas_d2P_dV2 self).1 /\
  two_way_fallback mix root_d2P_dTdV (EOSGas_d2P_dTdV self).1 /\
  two_way_fallback mix root_H_dep (EOSGas_H_dep self).1 /\
  two_way_fallback mix root_S_dep (EOSGas_S_dep self).1 /\
  two_way_fallback mix root_Cp_dep (EOSGas_Cp_dep self).1 /\
  two_way_fallback mix
    (fun r => fugacity_coefficients mix (root_Z r) zs) (EOSGas_lnphis self).1 /\
  two_way_fallback mix root_dlnphis_dT (EOSGas_dlnphis_dT self).1 /\
  two_way_fallback mix root_dlnphis_dP (EOSGas_dlnphis_dP self).1.
Proof.
  intros Hm Hz.
  repeat (split; [apply EOS_accessor_fallback; exact Hm |]).
  split.
  { rewrite (EOSGas_lnphis_eval self mix zs Hm Hz).
    apply (two_way_fallback_intro mix
             (fun r => fugacity_coefficients mix (root_Z r) zs)). }
  split.
  - unfold EOSGas_dlnphis_dT, eos_dlnphis_dT.
    rewrite (EOSGas_dlnphis_eval root_dlnphis_dT self mix Hm).
    apply two_way_fallback_intro.
  - unfold EOSGas_dlnphis_dP, eos_dlnphis_dP.
    rewrite (EOSGas_dlnphis_eval root_dlnphis_dP self mix Hm).
    apply two_way_fallback_intro.
Qed.

(** ** State transforms *)

(** One step of a proof that a method without assignments keeps its
    receiver. *)
Ltac pure_step :=
  lazymatch goal with
  | |- preserves _ (bind _ _) => apply preserves_bind; [| intros ?]
  | |- preserves _ (try_except _ _ _) => apply preserves_try_except
  | |- preserves _ (ret _) => apply preserves_ret
  | |- preserves _ (raise _) => apply preserves_raise
  | |- preserves _ (lift _) => apply preserves_lift
  | |- preserves _ (attr _) => apply preserves_attr
  | |- preserves _ (field _) => apply preserves_field
  | |- preserves _ (not_None _) => apply preserves_not_None
  | |- preserves _ (getattr_float _) => apply preserves_getattr_float
  | |- preserves _ (getattr_list _) => apply preserves_getattr_list
  | |- preserves _ (if ?b then _ else _) => destruct b
  | |- preserves _ (match ?x with _ => _ end) => destruct x
  end.

Lemma result_state {A} (m : Method A) s r :
  (m s).1 = r -> (m s).2 = s -> m s = (r, s).
Proof. destruct (m s) as [r' s']. simpl. intros -> ->. reflexivity. Qed.

Lemma EOSGas_solve_TP_pure T P zs self :
  (EOSGas_solve_TP T P zs self).2 = self.
Proof.
  assert (H : preserves (fun s => s = self) (EOSGas_solve_TP T P zs)).
  { unfold EOSGas_solve_TP. repeat pure_step. }
  apply H. reflexivity.
Qed.
Lemma EOSGas_solve_TV_pure T V zs self :
  (EOSGas_solve_TV T V zs self).2 = self.
Proof.
  assert (H : preserves (fun s => s = self) (EOSGas_solve_TV T V zs)).
  { unfold EOSGas_solve_TV. repeat pure_step. }
  apply H. reflexivity.
Qed.
Lemma EOSGas_solve_PV_pure P V zs self :
  (EOSGas_solve_PV P V zs self).2 = self.
Proof.
  assert (H : preserves (fun s => s = self) (EOSGas_solve_PV P V zs)).
  { unfold EOSGas_solve_PV. repeat pure_step. }
  apply H. reflexivity.
Qed.

(** With [T] alone, [to_zs_TPV] raises nothing and returns an object
    without an equation-of-state solution. *)
Lemma to_zs_TPV_T_alone self zs T :
  EOSGas_to_zs_TPV zs (Some T) None None self
  = (Ok (EOSGas_copy self (Some T) None zs None), self).
Proof. reflexivity. Qed.

(** C3, as amended: [to_zs_TPV] raises [ValueError] when [T] is not given
    and [P] or [V] is not given either; with exactly two of [T], [P], [V]
    given and the equation of state solvable it returns a new snapshot whose
    third state variable comes from the solution; with all three given it
    does not fail but uses [T] and [P] and ignores [V]. *)
Theorem to_zs_TPV_two_of_three (self : PhaseObj) (zs : list R) :
  (forall P V : option R,
     P = None \/ V = None ->
     EOSGas_to_zs_TPV zs None P V self = (Raise ValueError, self)) /\
  (forall (T P : R) (mix : EosMix),
     (EOSGas_solve_TP T P zs self).1 = Ok mix ->
     EOSGas_to_zs_TPV zs (Some T) (Some P) None self
     = (Ok (EOSGas_copy self (Some T) (Some P) zs (Some mix)), self)) /\
  (forall (T V : R) (mix : EosMix),
     (EOSGas_solve_TV T V zs self).1 = Ok mix ->
     EOSGas_to_zs_TPV zs (Some T) None (Some V) self
     = (Ok (EOSGas_copy self (Some T) (Some (eos_P mix)) zs (Some mix)),
        self)) /\
  (forall (P V : R) (mix : EosMix),
     (EOSGas_solve_PV P V zs self).1 = Ok mix ->
     EOSGas_to_zs_TPV zs None (Some P) (Some V) self
     = (Ok (EOSGas_copy self (Some (eos_T mix)) (Some P) zs (Some mix)),
        self)) /\
  (forall T P V : R,
     EOSGas_to_zs_TPV zs (Some T) (Some P) (Some V) self
     = EOSGas_to_zs_TPV zs (Some T) (Some P) None self).
Proof.
  split; [| split; [| split; [| split]]].
  - intros P V [-> | ->]; [reflexivity |]. destruct P; reflexivity.
  - intros T P mix Hmix. unfold EOSGas_to_zs_TPV.
    pose proof (result_state _ self _ Hmix (EOSGas_solve_TP_pure T P zs self))
      as Hs.
    erewrite bind_eval_Ok; cycle 1.
    { erewrite bind_eval_Ok; [reflexivity | exact Hs]. }
    reflexivity.
  - intros T V mix Hmix. unfold EOSGas_to_zs_TPV.
    pose proof (result_state _ self _ Hmix (EOSGas_solve_TV_pure T V zs self))
      as Hs.
    erewrite bind_eval_Ok; cycle 1.
    { erewrite bind_eval_Ok; [reflexivity | exact Hs]. }
    reflexivity.
  - intros P V mix Hmix. unfold EOSGas_to_zs_TPV.
    pose proof (result_state _ self _ Hmix (EOSGas_solve_PV_pure P V zs self))
      as Hs.
    erewrite bind_eval_Ok; cycle 1.
    { erewrite bind_eval_Ok; [reflexivity | exact Hs]. }
    reflexivity.
  - intros T P V. reflexivity.
Qed.

Ltac bind_inv H :=
  let a := fresh "a" in
  let s := fresh "s" in
  let E := fresh "E" in
  apply bind_Ok_inv in H; destruct H as (a & s & E & H); cbv beta zeta in H.

Lemma GibbsExcessLiquid_to_TP_zs_pure same_zs T P zs self :
  (GibbsExcessLiquid_to_TP_zs same_zs T P zs self).2 = self.
Proof.
  assert (H : preserves (fun s => s = self)
                (GibbsExcessLiquid_to_TP_zs same_zs T P zs)).
  { unfold GibbsExcessLiquid_to_TP_zs. repeat pure_step;
      intros s Hs; exact Hs. }
  apply H. reflexivity.
Qed.

Lemma EOSGas_to_TP_zs_pure T P zs self :
  (EOSGas_to_TP_zs T P zs self).2 = self.
Proof.
  assert (H : preserves (fun s => s = self) (EOSGas_to_TP_zs T P zs)).
  { unfold EOSGas_to_TP_zs, EOSGas_solve_TP. repeat pure_step.
    intros s Hs; exact Hs. }
  apply H. reflexivity.
Qed.

(** The [try] block that ends [GibbsExcessLiquid.to_TP_zs] copies nothing:
    [1/0] raises before the assignment of [_Psats]. *)
Lemma to_TP_zs_copies_no_memo (T_equal : bool) s memo s' :
  try_except
    (if T_equal then
       try_except
         (_ <- lift (div 1 0) ;;
          Psats <- getattr_list "_Psats" ;;
          ret (<["_Psats" := Psats]> (∅ : gmap string (list R))))
         any_exception
         (ret ∅)
     else ret ∅)
    any_exception
    (ret ∅) s = (Ok memo, s') ->
  memo = ∅.
Proof.
  destruct T_equal.
  - unfold try_except, bind, lift, div, ret.
    destruct (Req_dec_T 0 0) as [_|H0]; [| contradiction].
    simpl. intros [= <- _]. reflexivity.
  - unfold try_except, ret. intros [= <- _]. reflexivity.
Qed.

(** C9: [to_TP_zs(T, P, zs)] leaves the receiver as it was, with its state
    and every memoized value; the snapshot it returns is at the new state,
    carries no memoized value, and takes its correlation objects and tables
    from the receiver. *)
Theorem to_TP_zs_isolation (self : PhaseObj) (T P : R) (zs : list R)
    (same_zs : bool) :
  ((EOSGas_to_TP_zs T P zs self).2 = self /\
   forall new, (EOSGas_to_TP_zs T P zs self).1 = Ok new ->
     at_state T P zs new /\ no_memo new /\ shares_EOSGas_data self new) /\
  ((GibbsExcessLiquid_to_TP_zs same_zs T P zs self).2 = self /\
   forall new, (GibbsExcessLiquid_to_TP_zs same_zs T P zs self).1 = Ok new ->
     at_state T P zs new /\ no_memo new /\
     shares_GibbsExcessLiquid_data self new) /\
  ((IdealGas_to_TP_zs T P zs self).2 = self /\
   forall new, (IdealGas_to_TP_zs T P zs self).1 = Ok new ->
     at_state T P zs new /\ no_memo new /\
     HeatCapacityGases new = HeatCapacityGases self).
Proof.
  split; [| split].
  - split; [apply EOSGas_to_TP_zs_pure |].
    intros new Hnew.
    pose proof (result_state _ self _ Hnew (EOSGas_to_TP_zs_pure T P zs self))
      as H.
    unfold EOSGas_to_TP_zs in H. bind_inv H.
    injection H as <- ->.
    repeat split.
  - split; [apply GibbsExcessLiquid_to_TP_zs_pure |].
    intros new Hnew.
    pose proof (result_state _ self _ Hnew
                  (GibbsExcessLiquid_to_TP_zs_pure same_zs T P zs self)) as H.
    unfold GibbsExcessLiquid_to_TP_zs in H.
    bind_inv H. bind_inv H. bind_inv H. bind_inv H. bind_inv H.
    match goal with
    | E : try_except _ _ _ _ = (Ok ?m, _) |- _ =>
        apply to_TP_zs_copies_no_memo in E; subst m
    end.
    injection H as <- ->.
    repeat split.
  - split; [reflexivity |].
    intros new [= <-]. repeat split.
Qed.

(** ** The fast path of the heat-capacity integral *)

Lemma rmap_lookup {A B} (f : A -> result B) (xs : list A) : forall ys i x,
  rmap f xs = Ok ys -> xs !! i = Some x ->
  exists y, ys !! i = Some y /\ f x = Ok y.
Proof.
  induction xs as [|x0 xs IH]; intros ys i x Hr Hi; [discriminate Hi |].
  simpl in Hr. destruct (f x0) as [y0|e] eqn:E0; [| discriminate Hr].
  simpl in Hr. destruct (rmap f xs) as [ys0|e] eqn:E1; [| discriminate Hr].
  simpl in Hr. injection Hr as <-.
  destruct i as [|i]; simpl in Hi.
  - injection Hi as <-. exists y0. split; [reflexivity | exact E0].
  - simpl. apply (IH ys0 i x eq_refl Hi).
Qed.

Lemma getitem_map {A B} (f : A -> B) (xs : list A) i x :
  xs !! i = Some x -> getitem (map f xs) i = Ok (f x).
Proof.
  intros H. unfold getitem. rewrite list_lookup_fmap, H. reflexivity.
Qed.

Lemma setup_Cpigs_columns objs d :
  setup_Cpigs (Some objs) = Ok (true, Some d) ->
  exists c9 c10 c11 c15,
    rmap setup_11 objs = Ok c11 /\
    d = {| Cps_0 := map best_fit_Tmin objs;
           Cps_1 := map best_fit_Tmin_slope objs;
           Cps_2 := map best_fit_Tmin_value objs;
           Cps_3 := map best_fit_Tmax objs;
           Cps_4 := map best_fit_Tmax_slope objs;
           Cps_5 := map best_fit_Tmax_value objs;
           Cps_6 := map best_fit_log_coeff objs;
           Cps_7 := map setup_7 objs;
           Cps_8 := map setup_8 objs;
           Cps_9 := c9;
           Cps_10 := c10;
           Cps_11 := c11;
           Cps_12 := map best_fit_coeffs objs;
           Cps_13 := map best_fit_int_coeffs objs;
           Cps_14 := map best_fit_T_int_T_coeffs objs;
           Cps_15 := c15 |}.
Proof.
  intros Hs. unfold setup_Cpigs in Hs.
  destruct (all_locked objs); [| discriminate Hs].
  destruct (rmap setup_9 objs) as [c9|]; [| discriminate Hs].
  destruct (rmap setup_10 objs) as [c10|]; [| discriminate Hs].
  destruct (rmap setup_11 objs) as [c11|]; [| discriminate Hs].
  destruct (rmap setup_15 objs) as [c15|]; [| discriminate Hs].
  simpl in Hs. injection Hs as <-.
  exists c9, c10, c11, c15. split; reflexivity.
Qed.

(** The closed form that [Cp_integral_fast] computes for a component whose
    table columns come from the correlation object [obj], with [c11] the
    entry of column 11. *)
Lemma Cp_integral_fast_eval objs d i obj :
  setup_Cpigs (Some objs) = Ok (true, Some d) ->
  objs !! i = Some obj ->
  exists c11 : R,
    setup_11 obj = Ok c11 /\
    forall T, Cp_integral_fast d T i = Ok (Cp_integral_closed_form obj c11 T).
Proof.
  intros Hs Hi.
  destruct (setup_Cpigs_columns objs d Hs) as (c9 & c10 & c11s & c15 & E11 & ->).
  destruct (rmap_lookup _ _ _ _ _ E11 Hi) as (c11 & Hc11 & Hf11).
  exists c11. split; [exact Hf11 |]. intros T.
  unfold Cp_integral_fast, Cp_integral_closed_form, Cp_integral_low,
    Cp_integral_mid, Cp_integral_high. simpl.
  assert (H11 : getitem c11s i = Ok c11)
    by (unfold getitem; rewrite Hc11; reflexivity).
  rewrite !(getitem_map _ objs i obj Hi), H11. simpl.
  destruct (Rlt_dec T (best_fit_Tmin obj)); simpl; [reflexivity |].
  destruct (Rle_dec T (best_fit_Tmax obj)); reflexivity.
Qed.

Lemma Cp_value_fast_eval objs d i obj T :
  setup_Cpigs (Some objs) = Ok (true, Some d) ->
  objs !! i = Some obj ->
  Cp_value_fast d T i
  = Ok (if Rlt_dec T (best_fit_Tmin obj) then
          (T - best_fit_Tmin obj) * best_fit_Tmin_slope obj
          + best_fit_Tmin_value obj
        else if Rgt_dec T (best_fit_Tmax obj) then
          (T - best_fit_Tmax obj) * best_fit_Tmax_slope obj
          + best_fit_Tmax_value obj
        else horner (best_fit_coeffs obj) T).
Proof.
  intros Hs Hi.
  destruct (setup_Cpigs_columns objs d Hs) as (c9 & c10 & c11s & c15 & _ & ->).
  unfold Cp_value_fast. simpl.
  rewrite !(getitem_map _ objs i obj Hi). simpl.
  destruct (Rlt_dec T (best_fit_Tmin obj)); simpl; [reflexivity |].
  destruct (Rgt_dec T (best_fit_Tmax obj)); reflexivity.
Qed.

(** Continuity of a function that near [a] takes the value of one of three
    functions, each continuous at [a] and all with the same value there. *)
Lemma continuity_pt_glue (h g1 g2 g3 : R -> R) (a r : R) :
  0 < r ->
  (forall x, Rabs (x - a) < r -> h x = g1 x \/ h x = g2 x \/ h x = g3 x) ->
  continuity_pt g1 a -> continuity_pt g2 a -> continuity_pt g3 a ->
  g1 a = h a -> g2 a = h a -> g3 a = h a ->
  continuity_pt h a.
Proof.
  intros Hr Hh C1 C2 C3 E1 E2 E3 eps Heps.
  destruct (C1 eps Heps) as (d1 & Hd1 & P1).
  destruct (C2 eps Heps) as (d2 & Hd2 & P2).
  destruct (C3 eps Heps) as (d3 & Hd3 & P3).
  exists (Rmin r (Rmin d1 (Rmin d2 d3))). split.
  - repeat apply Rmin_glb_lt; assumption.
  - intros x [Hx Hd]. simpl in Hd. unfold Rdist in Hd.
    assert (Hxr : Rabs (x - a) < r)
      by (eapply Rlt_le_trans; [exact Hd | apply Rmin_l]).
    assert (Hx1 : Rabs (x - a) < d1).
    { eapply Rlt_le_trans; [exact Hd |].
      eapply Rle_trans; [apply Rmin_r | apply Rmin_l]. }
    assert (Hx2 : Rabs (x - a) < d2).
    { eapply Rlt_le_trans; [exact Hd |].
      eapply Rle_trans; [apply Rmin_r |].
      eapply Rle_trans; [apply Rmin_r | apply Rmin_l]. }
    assert (Hx3 : Rabs (x - a) < d3).
    { eapply Rlt_le_trans; [exact Hd |].
      eapply Rle_trans; [apply Rmin_r |].
      eapply Rle_trans; [apply Rmin_r | apply Rmin_r]. }
    destruct (Hh x Hxr) as [E | [E | E]]; rewrite E.
    + rewrite <- E1. apply P1. split; assumption.
    + rewrite <- E2. apply P2. split; assumption.
    + rewrite <- E3. apply P3. split; assumption.
Qed.

(** Horner evaluation is continuous in its argument. *)
Lemma horner_fold_continuity (cs : list R) : forall (a : R -> R) (x0 : R),
  continuity_pt a x0 ->
  continuity_pt (fun x => fold_left (fun tot c => tot * x + c) cs (a x)) x0.
Proof.
  induction cs as [|c cs IH]; intros a x0 Ha; simpl; [exact Ha |].
  apply (IH (fun x => a x * x + c)).
  change (continuity_pt ((a * id) + fct_cte c)%F x0).
  apply continuity_pt_plus.
  - apply continuity_pt_mult; [exact Ha |].
    apply derivable_continuous_pt, derivable_pt_id.
  - apply continuity_pt_const. intros x y. reflexivity.
Qed.

Lemma horner_continuity (cs : list R) (x0 : R) :
  continuity_pt (horner cs) x0.
Proof.
  unfold horner.
  apply (horner_fold_continuity cs (fun _ => 0) x0).
  apply continuity_pt_const. intros x y. reflexivity.
Qed.

(** The derivative of one quadratic piece. *)
Lemma quadratic_piece_derivative (s b c x : R) :
  derivable_pt_lim (fun T => T * (0.5 * s * T + b) - c) x (s * x + b).
Proof.
  assert (H : derivable_pt_lim
                ((id * ((fct_cte (0.5 * s) * id) + fct_cte b)) - fct_cte c)%F
                x
                (1 * ((fct_cte (0.5 * s) * id) + fct_cte b)%F x
                 + id x * ((0 * id x + fct_cte (0.5 * s) x * 1) + 0) - 0)).
  { apply derivable_pt_lim_minus; [| apply derivable_pt_lim_const].
    apply derivable_pt_lim_mult; [apply derivable_pt_lim_id |].
    apply derivable_pt_lim_plus; [| apply derivable_pt_lim_const].
    apply derivable_pt_lim_mult;
      [apply derivable_pt_lim_const | apply derivable_pt_lim_id]. }
  unfold plus_fct, mult_fct, minus_fct, fct_cte, id in H.
  replace (s * x + b)
    with (1 * (0.5 * s * x + b) + x * (0 * x + 0.5 * s * 1 + 0) - 0)
    by lra.
  exact H.
Qed.

Lemma quadratic_piece_continuity (s b c x : R) :
  continuity_pt (fun T => T * (0.5 * s * T + b) - c) x.
Proof.
  apply derivable_continuous_pt. exists (s * x + b).
  apply quadratic_piece_derivative.
Qed.

Lemma Cp_integral_low_continuity obj c11 x :
  continuity_pt (Cp_integral_low obj c11) x.
Proof. apply quadratic_piece_continuity. Qed.

Lemma Cp_integral_mid_continuity obj c11 x :
  continuity_pt (Cp_integral_mid obj c11) x.
Proof.
  unfold Cp_integral_mid.
  change (continuity_pt
            (horner (best_fit_int_coeffs obj)
             - fct_cte (setup_7 obj) - fct_cte c11)%F x).
  repeat apply continuity_pt_minus;
    try (apply continuity_pt_const; intros y z; reflexivity).
  apply horner_continuity.
Qed.

Lemma Cp_integral_high_continuity obj c11 x :
  continuity_pt (Cp_integral_high obj c11) x.
Proof.
  unfold Cp_integral_high.
  set (k := best_fit_Tmax obj
            * (0.5 * best_fit_Tmax_slope obj * best_fit_Tmax obj
               + (best_fit_Tmax_value obj
                  - best_fit_Tmax_slope obj * best_fit_Tmax obj))).
  apply (continuity_pt_locally_ext
           (fun T => T * (0.5 * best_fit_Tmax_slope obj * T
                          + (best_fit_Tmax_value obj
                             - best_fit_Tmax_slope obj * best_fit_Tmax obj))
                     - (k - setup_8 obj + c11)) _ 1 x).
  - lra.
  - intros y _. lra.
  - apply quadratic_piece_continuity.
Qed.

(** The pieces join at the two breakpoints. *)
Lemma Cp_integral_join_Tmin obj c11 :
  Cp_integral_low obj c11 (best_fit_Tmin obj)
  = Cp_integral_mid obj c11 (best_fit_Tmin obj).
Proof. unfold Cp_integral_low, Cp_integral_mid, setup_7. lra. Qed.

Lemma Cp_integral_join_Tmax obj c11 :
  Cp_integral_high obj c11 (best_fit_Tmax obj)
  = Cp_integral_mid obj c11 (best_fit_Tmax obj).
Proof. unfold Cp_integral_high, Cp_integral_mid, setup_7, setup_8. lra. Qed.

Lemma Cp_integral_closed_form_continuity_Tmin obj c11 :
  best_fit_Tmin obj <= best_fit_Tmax obj ->
  continuity_pt (Cp_integral_closed_form obj c11) (best_fit_Tmin obj).
Proof.
  intros Hle.
  assert (Hat : Cp_integral_closed_form obj c11 (best_fit_Tmin obj)
                = Cp_integral_mid obj c11 (best_fit_Tmin obj)).
  { unfold Cp_integral_closed_form.
    destruct (Rlt_dec (best_fit_Tmin obj) (best_fit_Tmin obj)); [lra |].
    destruct (Rle_dec (best_fit_Tmin obj) (best_fit_Tmax obj));
      [reflexivity | lra]. }
  destruct (Rle_lt_or_eq_dec _ _ Hle) as [Hlt | Heq].
  - apply (continuity_pt_glue _ (Cp_integral_low obj c11)
             (Cp_integral_mid obj c11) (Cp_integral_mid obj c11) _
             (best_fit_Tmax obj - best_fit_Tmin obj)).
    + lra.
    + intros x Hx. apply Rabs_def2 in Hx. unfold Cp_integral_closed_form.
      destruct (Rlt_dec x (best_fit_Tmin obj)); [left; reflexivity |].
      destruct (Rle_dec x (best_fit_Tmax obj)); [right; left; reflexivity |].
      lra.
    + apply Cp_integral_low_continuity.
    + apply Cp_integral_mid_continuity.
    + apply Cp_integral_mid_continuity.
    + rewrite Hat. apply Cp_integral_join_Tmin.
    + symmetry. exact Hat.
    + symmetry. exact Hat.
  - apply (continuity_pt_glue _ (Cp_integral_low obj c11)
             (Cp_integral_mid obj c11) (Cp_integral_high obj c11) _ 1).
    + lra.
    + intros x _. unfold Cp_integral_closed_form.
      destruct (Rlt_dec x (best_fit_Tmin obj)); [left; reflexivity |].
      destruct (Rle_dec x (best_fit_Tmax obj));
        [right; left; reflexivity | right; right; reflexivity].
    + apply Cp_integral_low_continuity.
    + apply Cp_integral_mid_continuity.
    + apply Cp_integral_high_continuity.
    + rewrite Hat. apply Cp_integral_join_Tmin.
    + symmetry. exact Hat.
    + rewrite Hat, Heq. apply Cp_integral_join_Tmax.
Qed.

Lemma Cp_integral_closed_form_continuity_Tmax obj c11 :
  best_fit_Tmin obj <= best_fit_Tmax obj ->
  continuity_pt (Cp_integral_closed_form obj c11) (best_fit_Tmax obj).
Proof.
  intros Hle.
  assert (Hat : Cp_integral_closed_form obj c11 (best_fit_Tmax obj)
                = Cp_integral_mid obj c11 (best_fit_Tmax obj)).
  { unfold Cp_integral_closed_form.
    destruct (Rlt_dec (best_fit_Tmax obj) (best_fit_Tmin obj)); [lra |].
    destruct (Rle_dec (best_fit_Tmax obj) (best_fit_Tmax obj));
      [reflexivity | lra]. }
  destruct (Rle_lt_or_eq_dec _ _ Hle) as [Hlt | Heq].
  - apply (continuity_pt_glue _ (Cp_integral_mid obj c11)
             (Cp_integral_mid obj c11) (Cp_integral_high obj c11) _
             (best_fit_Tmax obj - best_fit_Tmin obj)).
    + lra.
    + intros x Hx. apply Rabs_def2 in Hx. unfold Cp_integral_closed_form.
      destruct (Rlt_dec x (best_fit_Tmin obj)); [lra |].
      destruct (Rle_dec x (best_fit_Tmax obj));
        [left; reflexivity | right; right; reflexivity].
    + apply Cp_integral_mid_continuity.
    + apply Cp_integral_mid_continuity.
    + apply Cp_integral_high_continuity.
    + symmetry. exact Hat.
    + symmetry. exact Hat.
    + rewrite Hat. apply Cp_integral_join_Tmax.
  - rewrite <- Heq. apply Cp_integral_closed_form_continuity_Tmin. exact Hle.
Qed.

Lemma three_piece_integral_closed_form obj T :
  documented_best_fit_integral_value T (best_fit_int_coeffs obj)
    (best_fit_Tmin obj) (best_fit_Tmax obj) (best_fit_Tmin_value obj)
    (best_fit_Tmax_value obj) (best_fit_Tmin_slope obj)
    (best_fit_Tmax_slope obj)
  = Ok (Cp_integral_closed_form obj 0 T).
Proof.
  unfold documented_best_fit_integral_value, Cp_integral_closed_form,
    Cp_integral_low, Cp_integral_mid, Cp_integral_high, setup_7, setup_8.
  cbv zeta.
  destruct (Rlt_dec T (best_fit_Tmin obj)); [f_equal; lra |].
  destruct (Rle_dec T (best_fit_Tmax obj)); f_equal; lra.
Qed.

Lemma Cp_integral_closed_form_offset obj c11 T :
  Cp_integral_closed_form obj c11 T = Cp_integral_closed_form obj 0 T - c11.
Proof.
  unfold Cp_integral_closed_form, Cp_integral_low, Cp_integral_mid,
    Cp_integral_high.
  destruct (Rlt_dec T (best_fit_Tmin obj)); [lra |].
  destruct (Rle_dec T (best_fit_Tmax obj)); lra.
Qed.


(** ** The liquid-Cp reference path on locked volume correlations *)

Lemma locked_liquid_Cp_path_float s name v :
  locked_liquid_Cp_path s ->
  locked_liquid_Cp_path
    (with_attrs (<[name := v]> (float_attrs s)) (list_attrs s) s).
Proof. intros H. exact H. Qed.

Lemma locked_liquid_Cp_path_list s name v :
  name <> KEY ->
  locked_liquid_Cp_path s ->
  locked_liquid_Cp_path
    (with_attrs (float_attrs s) (<[name := v]> (list_attrs s)) s).
Proof.
  intros Hn (H1 & H2 & H3 & H4). repeat split; try assumption.
  simpl. rewrite lookup_insert_ne by exact Hn. exact H4.
Qed.

Lemma raises_bind_now {A B} (I : PhaseObj -> Prop) (m : Method A)
    (k : A -> Method B) :
  hoare I m raises -> hoare I (bind m k) raises.
Proof.
  intros Hm s Hs. specialize (Hm s Hs). unfold raises, bind in *.
  destruct (m s) as [[a|e] s1]; simpl in *; [discriminate Hm | reflexivity].
Qed.

Lemma raises_bind_later {A B} (I : PhaseObj -> Prop) (m : Method A)
    (k : A -> Method B) :
  preserves I m -> (forall a, hoare I (k a) raises) ->
  hoare I (bind m k) raises.
Proof.
  intros Hm Hk. apply hoare_bind with (P' := I); [| exact Hk].
  intros s Hs. specialize (Hm s Hs).
  destruct (m s) as [[a|e] s1]; simpl in *; [exact Hm | reflexivity].
Qed.

Lemma hoare_bind_field {A B} (I : PhaseObj -> Prop) (f : PhaseObj -> A)
    (v : A) (k : A -> Method B) (Q : result B -> PhaseObj -> Prop) :
  (forall s, I s -> f s = v) -> hoare I (k v) Q ->
  hoare I (bind (field f) k) Q.
Proof.
  intros Hf Hk s Hs. unfold bind, field. rewrite (Hf s Hs). apply Hk, Hs.
Qed.

Lemma hoare_try_getattr_float (I : PhaseObj -> Prop) name
    (body : Method R) (Q : result R -> PhaseObj -> Prop) :
  (forall s, I s -> float_attrs s !! name = None) ->
  hoare I body Q ->
  hoare I (try_except (getattr_float name) is_AttributeError body) Q.
Proof.
  intros Hn Hb s Hs. unfold try_except, getattr_float.
  rewrite (Hn s Hs). simpl. apply Hb, Hs.
Qed.

Lemma dVms_sat_dT_T_ref_eval s :
  Vms_sat_locked s = true ->
  list_attrs s !! KEY = None ->
  GibbsExcessLiquid_dVms_sat_dT_T_ref s = (Raise NameError, s).
Proof.
  intros Hl Hc.
  unfold GibbsExcessLiquid_dVms_sat_dT_T_ref, try_except, getattr_list.
  fold KEY. rewrite Hc. simpl. unfold bind, field. rewrite Hl. reflexivity.
Qed.

Lemma dVms_sat_dT_T_ref_raises :
  hoare locked_liquid_Cp_path GibbsExcessLiquid_dVms_sat_dT_T_ref raises.
Proof.
  intros s (Hl & _ & _ & Hc).
  rewrite (dVms_sat_dT_T_ref_eval s Hl Hc). reflexivity.
Qed.

(** One step of a proof that a method keeps an invariant given with its two
    closure properties [HF] and [HL]. *)
Ltac frames HF HL :=
  repeat lazymatch goal with
  | |- preserves _ (bind _ _) => apply preserves_bind; [| intros ?]
  | |- preserves _ (try_except _ _ _) => apply preserves_try_except
  | |- preserves _ (for_each _ _ _) => apply preserves_for_each; intros ? ?
  | |- preserves _ (comprehension _ _) =>
      apply preserves_comprehension; intros ?
  | |- preserves _ (ret _) => apply preserves_ret
  | |- preserves _ (raise _) => apply preserves_raise
  | |- preserves _ (lift _) => apply preserves_lift
  | |- preserves _ (attr _) => apply preserves_attr
  | |- preserves _ (field _) => apply preserves_field
  | |- preserves _ (not_None _) => apply preserves_not_None
  | |- preserves _ (getattr_float _) => apply preserves_getattr_float
  | |- preserves _ (getattr_list _) => apply preserves_getattr_list
  | |- preserves _ (setattr_float _ _) =>
      apply preserves_setattr_float; exact HF
  | |- preserves _ (setattr_list _ _) =>
      apply preserves_setattr_list; [exact HL | discriminate]
  | |- preserves _ (if ?b then _ else _) => destruct b
  | |- preserves _ Phase_log_zs => apply preserves_log_zs; exact HL
  | |- preserves _ Phase_Cpig_integrals_pure =>
      apply preserves_Cpig_integrals_pure; exact HL
  | |- preserves _ Phase_Cpig_integrals_over_T_pure =>
      apply preserves_Cpig_integrals_over_T_pure; exact HL
  | |- preserves _ Phase_Cpl_integrals_pure =>
      apply preserves_Cpl_integrals_pure; exact HL
  | |- preserves _ Phase_Cpl_integrals_over_T_pure =>
      apply preserves_Cpl_integrals_over_T_pure; exact HL
  | |- preserves _ GibbsExcessLiquid_Psats => apply preserves_Psats; exact HL
  | |- preserves _ GibbsExcessLiquid_Psats_T_ref =>
      apply preserves_Psats_T_ref; exact HL
  | |- preserves _ GibbsExcessLiquid_dPsats_dT =>
      apply preserves_dPsats_dT; exact HL
  | |- preserves _ GibbsExcessLiquid_Vms_sat =>
      apply preserves_Vms_sat; exact HL
  | |- preserves _ GibbsExcessLiquid_dVms_sat_dT =>
      apply preserves_dVms_sat_dT; exact HL
  | |- preserves _ GibbsExcessLiquid_Vms_sat_T_ref =>
      apply preserves_Vms_sat_T_ref; exact HL
  | |- preserves _ GibbsExcessLiquid_Hvaps => apply preserves_Hvaps; exact HL
  | |- preserves _ GibbsExcessLiquid_Hvaps_T_ref =>
      apply preserves_Hvaps_T_ref; exact HL
  | |- preserves _ GibbsExcessLiquid_dH_dP_integrals_Tait =>
      apply preserves_dH_dP_integrals_Tait; exact HL
  end.

(** One step towards the call of [dVms_sat_dT_T_ref] on the liquid-Cp
    path. *)
Ltac raises_step :=
  lazymatch goal with
  | |- hoare _ (bind (field P_DEPENDENT_H_LIQ) _) _ =>
      apply (hoare_bind_field _ P_DEPENDENT_H_LIQ true);
      [intros ? Hs; apply Hs | cbv beta iota]
  | |- hoare _ (bind (field use_IG_Cp) _) _ =>
      apply (hoare_bind_field _ use_IG_Cp false);
      [intros ? Hs; apply Hs | cbv beta iota]
  | |- hoare _ (bind GibbsExcessLiquid_dVms_sat_dT_T_ref _) _ =>
      apply raises_bind_now, dVms_sat_dT_T_ref_raises
  | |- hoare _ (bind _ _) _ =>
      first [ apply raises_bind_later;
              [solve [frames locked_liquid_Cp_path_float
                        locked_liquid_Cp_path_list]
              | intros ?]
            | apply raises_bind_now ]
  end.

Lemma GibbsExcessLiquid_S_raises (self : PhaseObj) :
  locked_liquid_Cp_path self ->
  float_attrs self !! "_S" = None ->
  is_Ok (GibbsExcessLiquid_S self).1 = false.
Proof.
  intros HI HS.
  assert (H : hoare (fun s => locked_liquid_Cp_path s /\ s = self)
                GibbsExcessLiquid_S raises).
  { unfold GibbsExcessLiquid_S.
    apply hoare_try_getattr_float; [intros s [_ ->]; exact HS |].
    apply (hoare_conseq _ locked_liquid_Cp_path _ _ raises);
      [| intros s [Hs _]; exact Hs | intros r s Hr; exact Hr].
    cbv zeta. repeat raises_step. }
  apply (H self). split; [exact HI | reflexivity].
Qed.

Lemma GibbsExcessLiquid_H_raises (self : PhaseObj) :
  locked_liquid_Cp_path self ->
  float_attrs self !! "_H" = None ->
  is_Ok (GibbsExcessLiquid_H self).1 = false.
Proof.
  intros HI HS.
  assert (H : hoare (fun s => locked_liquid_Cp_path s /\ s = self)
                GibbsExcessLiquid_H raises).
  { unfold GibbsExcessLiquid_H.
    apply hoare_try_getattr_float; [intros s [_ ->]; exact HS |].
    apply (hoare_conseq _ locked_liquid_Cp_path _ _ raises);
      [| intros s [Hs _]; exact Hs | intros r s Hr; exact Hr].
    cbv zeta. repeat raises_step. }
  apply (H self). split; [exact HI | reflexivity].
Qed.

(** C10: on a snapshot whose liquid-volume correlations are locked and whose
    [_dVms_sat_dT_T_ref] is not memoized, [dVms_sat_dT_T_ref()] returns no
    value: it raises [NameError] and leaves the snapshot as it was.  On the
    liquid-Cp reference path ([use_IG_Cp = False], with the pressure
    dependence on) neither [H()] nor [S()] then returns a value. *)
Theorem dVms_sat_dT_T_ref_unbound_T (self : PhaseObj) :
  Vms_sat_locked self = true ->
  list_attrs self !! "_dVms_sat_dT_T_ref" = None ->
  GibbsExcessLiquid_dVms_sat_dT_T_ref self = (Raise NameError, self) /\
  (P_DEPENDENT_H_LIQ self = true ->
   use_IG_Cp self = false ->
   (float_attrs self !! "_H" = None ->
    is_Ok (GibbsExcessLiquid_H self).1 = false) /\
   (float_attrs self !! "_S" = None ->
    is_Ok (GibbsExcessLiquid_S self).1 = false)).
Proof.
  intros Hl Hc. split; [apply dVms_sat_dT_T_ref_eval; assumption |].
  intros HP HU.
  assert (HI : locked_liquid_Cp_path self) by (repeat split; assumption).
  split; intros Hm.
  - apply GibbsExcessLiquid_H_raises; assumption.
  - apply GibbsExcessLiquid_S_raises; assumption.
Qed.

(** ** Memoization of the entropy *)

Lemma preserves_dVms_sat_dT_T_ref (I : PhaseObj -> Prop) :
  (forall s name v,
     I s -> I (with_attrs (float_attrs s) (<[name := v]> (list_attrs s)) s)) ->
  preserves I GibbsExcessLiquid_dVms_sat_dT_T_ref.
Proof.
  intros HA.
  assert (Hset : forall name v, preserves I (setattr_list name v)).
  { intros name v s Hs. apply HA, Hs. }
  unfold GibbsExcessLiquid_dVms_sat_dT_T_ref.
  repeat first
    [ apply Hset
    | lazymatch goal with
      | |- preserves _ (bind _ _) => apply preserves_bind; [| intros ?]
      | |- preserves _ (try_except _ _ _) => apply preserves_try_except
      | |- preserves _ (comprehension _ _) =>
          apply preserves_comprehension; intros ?
      | |- preserves _ (raise _) => apply preserves_raise
      | |- preserves _ (lift _) => apply preserves_lift
      | |- preserves _ (attr _) => apply preserves_attr
      | |- preserves _ (field _) => apply preserves_field
      | |- preserves _ (getattr_list _) => apply preserves_getattr_list
      | |- preserves _ (if ?b then _ else _) => destruct b
      end ].
Qed.

(** The steps of [frames], for an invariant that every assignment of a
    memoized attribute keeps. *)
Ltac frames_all HF HA :=
  repeat first
    [ apply preserves_dVms_sat_dT_T_ref; exact HA
    | progress (frames HF (fun s name v (_ : name <> KEY) => HA s name v)) ].

(** A postcondition that holds of every raised exception. *)
Lemma hoare_bind_returning {A B} (I : PhaseObj -> Prop) (m : Method A)
    (k : A -> Method B) (Q : result B -> PhaseObj -> Prop) :
  (forall e s, Q (Raise e) s) ->
  preserves I m -> (forall a, hoare I (k a) Q) ->
  hoare I (bind m k) Q.
Proof.
  intros HQ Hm Hk. apply hoare_bind with (P' := I); [| exact Hk].
  intros s Hs. specialize (Hm s Hs).
  destruct (m s) as [[a|e] s1]; simpl in *; [exact Hm | apply HQ].
Qed.

Lemma GibbsExcessLiquid_S_memoizes (m : GibbsExcess) :
  hoare (fun s => GibbsExcessModel s = m /\ float_attrs s !! "_S" = None)
    GibbsExcessLiquid_S
    (fun r s' => forall v, r = Ok v ->
                 GibbsExcessModel s' = m /\
                 float_attrs s' !! "_S" = Some (v + SE m)).
Proof.
  set (I := fun s : PhaseObj => GibbsExcessModel s = m).
  assert (HF : forall s name v,
             I s -> I (with_attrs (<[name := v]> (float_attrs s))
                         (list_attrs s) s)) by (intros s name v Hs; exact Hs).
  assert (HA : forall s name v,
             I s -> I (with_attrs (float_attrs s)
                         (<[name := v]> (list_attrs s)) s))
    by (intros s name v Hs; exact Hs).
  unfold GibbsExcessLiquid_S.
  apply hoare_try_getattr_float; [intros s [_ Hs]; exact Hs |].
  apply (hoare_conseq _ I _ _
           (fun r s' => forall v, r = Ok v ->
                        GibbsExcessModel s' = m /\
                        float_attrs s' !! "_S" = Some (v + SE m)));
    [| intros s [Hs _]; exact Hs | intros r s Hr; exact Hr].
  cbv zeta.
  repeat lazymatch goal with
  | |- hoare _ (bind (field GibbsExcessModel) _) _ => fail
  | |- hoare _ (bind _ _) _ =>
      apply hoare_bind_returning;
      [intros e s v Hv; discriminate Hv
      | solve [frames_all HF HA]
      | intros ?]
  end.
  intros s Hs. unfold bind, field, setattr_float, ret. simpl.
  intros v [= <-]. rewrite Hs. split; [reflexivity |].
  apply lookup_insert_eq.
Qed.

(** What [S()] does on its first and second call (C2): on a snapshot that
    has not memoized [_S], when the first call returns [v], the second call
    returns the memoized [v + SE()], the first value plus the excess entropy
    of the activity model. *)
Theorem GibbsExcessLiquid_S_second_call (self s1 : PhaseObj) (v : R) :
  float_attrs self !! "_S" = None ->
  GibbsExcessLiquid_S self = (Ok v, s1) ->
  GibbsExcessLiquid_S s1 = (Ok (v + SE (GibbsExcessModel self)), s1).
Proof.
  intros Hc H1.
  pose proof (GibbsExcessLiquid_S_memoizes (GibbsExcessModel self) self
                (conj eq_refl Hc)) as Hm.
  rewrite H1 in Hm. simpl in Hm. destruct (Hm v eq_refl) as (_ & Hs).
  unfold GibbsExcessLiquid_S at 1, try_except, getattr_float.
  rewrite Hs. reflexivity.
Qed.

(** ** The entropy departure *)

(** What [S_dep] computes on every snapshot and in every mode: the entropy
    less the ideal-gas enthalpy. *)
Lemma GibbsExcessLiquid_S_dep_eval (self s1 s2 : PhaseObj) (S H : R) :
  GibbsExcessLiquid_S self = (Ok S, s1) ->
  Phase_H_ideal_gas s1 = (Ok H, s2) ->
  GibbsExcessLiquid_S_dep self = (Ok (S - H), s2).
Proof.
  intros HS HH. unfold GibbsExcessLiquid_S_dep.
  rewrite (bind_eval_Ok _ _ _ _ _ HS), (bind_eval_Ok _ _ _ _ _ HH).
  reflexivity.
Qed.

(** ** Memoization of the enthalpy *)

(** A memoizing accessor: the memoized value when there is one, the body
    otherwise. *)
Lemma hoare_memo_float (I : PhaseObj -> Prop) name (body : Method R)
    (Q : result R -> PhaseObj -> Prop) :
  (forall s v, I s -> float_attrs s !! name = Some v -> Q (Ok v) s) ->
  hoare I body Q ->
  hoare I (try_except (getattr_float name) is_AttributeError body) Q.
Proof.
  intros Hc Hb s Hs. unfold try_except, getattr_float.
  destruct (float_attrs s !! name) as [v|] eqn:E; simpl.
  - apply (Hc s v Hs E).
  - apply Hb, Hs.
Qed.

(** Whenever [H()] returns, [_H] holds the value returned. *)
Lemma GibbsExcessLiquid_H_memoizes :
  hoare (fun _ => True) GibbsExcessLiquid_H
    (fun r s' => forall v, r = Ok v -> float_attrs s' !! "_H" = Some v).
Proof.
  set (I := fun _ : PhaseObj => True).
  assert (HF : forall s name v,
             I s -> I (with_attrs (<[name := v]> (float_attrs s))
                         (list_attrs s) s)) by (intros; exact Logic.I).
  assert (HA : forall s name v,
             I s -> I (with_attrs (float_attrs s)
                         (<[name := v]> (list_attrs s)) s))
    by (intros; exact Logic.I).
  unfold GibbsExcessLiquid_H.
  apply hoare_memo_float; [intros s v _ E w [= <-]; exact E |].
  cbv zeta.
  repeat lazymatch goal with
  | |- hoare _ (bind (field GibbsExcessModel) _) _ => fail
  | |- hoare _ (bind _ _) _ =>
      apply hoare_bind_returning;
      [intros e s v Hv; discriminate Hv
      | solve [frames_all HF HA]
      | intros ?]
  end.
  intros s Hs. unfold bind, field, setattr_float, ret. simpl.
  intros v [= <-]. apply lookup_insert_eq.
Qed.

(** Whenever [H_ideal_gas()] returns, [_H_ideal_gas] holds the value
    returned. *)
Lemma Phase_H_ideal_gas_memoizes :
  hoare (fun _ => True) Phase_H_ideal_gas
    (fun r s' => forall v, r = Ok v ->
                 float_attrs s' !! "_H_ideal_gas" = Some v).
Proof.
  set (I := fun _ : PhaseObj => True).
  assert (HF : forall s name v,
             I s -> I (with_attrs (<[name := v]> (float_attrs s))
                         (list_attrs s) s)) by (intros; exact Logic.I).
  assert (HA : forall s name v,
             I s -> I (with_attrs (float_attrs s)
                         (<[name := v]> (list_attrs s)) s))
    by (intros; exact Logic.I).
  unfold Phase_H_ideal_gas.
  apply hoare_memo_float; [intros s v _ E w [= <-]; exact E |].
  cbv zeta.
  repeat lazymatch goal with
  | |- hoare _ (bind (setattr_float _ _) _) _ => fail
  | |- hoare _ (bind _ _) _ =>
      apply hoare_bind_returning;
      [intros e s v Hv; discriminate Hv
      | solve [frames_all HF HA]
      | intros ?]
  end.
  intros s Hs. unfold bind, setattr_float, ret. simpl.
  intros v [= <-]. apply lookup_insert_eq.
Qed.

(** A second call of a memoizing accessor reads the memoized value. *)
Lemma memo_float_cached name (body : Method R) s v :
  float_attrs s !! name = Some v ->
  try_except (getattr_float name) is_AttributeError body s = (Ok v, s).
Proof.
  intros E. unfold try_except, getattr_float. rewrite E. reflexivity.
Qed.

Lemma GibbsExcessLiquid_H_cached (self s1 : PhaseObj) (h : R) :
  GibbsExcessLiquid_H self = (Ok h, s1) ->
  GibbsExcessLiquid_H s1 = (Ok h, s1).
Proof.
  intros H1.
  pose proof (GibbsExcessLiquid_H_memoizes self Logic.I) as Hm.
  rewrite H1 in Hm. simpl in Hm.
  apply memo_float_cached, Hm. reflexivity.
Qed.

Lemma Phase_H_ideal_gas_cached (self s1 : PhaseObj) (g : R) :
  Phase_H_ideal_gas self = (Ok g, s1) ->
  Phase_H_ideal_gas s1 = (Ok g, s1).
Proof.
  intros H1.
  pose proof (Phase_H_ideal_gas_memoizes self Logic.I) as Hm.
  rewrite H1 in Hm. simpl in Hm.
  apply memo_float_cached, Hm. reflexivity.
Qed.

(** [H()] is idempotent on every [GibbsExcessLiquid] snapshot: when a call
    returns [h], the next call on the snapshot as that call left it returns
    [h] again and changes nothing. *)
Theorem GibbsExcessLiquid_H_idempotent (self s1 : PhaseObj) (h : R) :
  GibbsExcessLiquid_H self = (Ok h, s1) ->
  GibbsExcessLiquid_H s1 = (Ok h, s1).
Proof.
  intros H1.
  assert (Hmemo : float_attrs s1 !! "_H" = Some h).
  { pose proof (GibbsExcessLiquid_H_memoizes self Logic.I) as Hm.
    rewrite H1 in Hm. simpl in Hm. apply Hm. reflexivity. }
  unfold GibbsExcessLiquid_H, try_except, getattr_float.
  rewrite Hmemo. reflexivity.
Qed.

(** The departure closure of the enthalpy: on every [GibbsExcessLiquid]
    snapshot, in every mode, when [H()], then [H_dep()], then
    [H_ideal_gas()] return [h], [d] and [g], then [h = d + g]. *)
Theorem GibbsExcessLiquid_H_departure_closure
    (self s1 s2 s3 : PhaseObj) (h d g : R) :
  GibbsExcessLiquid_H self = (Ok h, s1) ->
  GibbsExcessLiquid_H_dep s1 = (Ok d, s2) ->
  Phase_H_ideal_gas s2 = (Ok g, s3) ->
  h = d + g.
Proof.
  intros H1 H2 H3.
  apply GibbsExcessLiquid_H_cached in H1.
  unfold GibbsExcessLiquid_H_dep in H2.
  rewrite (bind_eval_Ok _ _ _ _ _ H1) in H2.
  apply bind_Ok_inv in H2. destruct H2 as (g' & s2' & Hg & Hr).
  unfold ret in Hr. injection Hr as <- <-.
  apply Phase_H_ideal_gas_cached in Hg.
  rewrite Hg in H3. injection H3 as <- _. lra.
Qed.

(** ** The derivative algebra on an equation-of-state snapshot *)

Lemma div_nonzero (a b : R) : b <> 0 -> div a b = Ok (a / b).
Proof. intros H. unfold div. destruct (Req_dec_T b 0); [contradiction | reflexivity]. Qed.
Lemma div_zero (a : R) : div a 0 = Raise ZeroDivisionError.
Proof. unfold div. destruct (Req_dec_T 0 0); [reflexivity | contradiction]. Qed.

Lemma EOSGas_accessor_root {A} (X : EosRoot -> A) self mix r :
  eos_mix self = Some mix -> EOSGas_root mix = Some r ->
  EOS_accessor root_g root_l X self = (Ok (X r), self).
Proof.
  intros Hm Hr. rewrite (EOS_accessor_eval _ _ _ _ _ Hm).
  unfold EOSGas_root in Hr. destruct (root_g mix) as [g|].
  - injection Hr as ->. reflexivity.
  - rewrite Hr. reflexivity.
Qed.

(** Evaluation of a sequence whose first call is known. *)
Ltac eval_accessors Hm Hr :=
  repeat first
    [ rewrite (bind_eval_Ok _ _ _ _ _ (EOSGas_accessor_root _ _ _ _ Hm Hr))
    | progress cbv beta ].

Lemma rbind_Ok_inv {A B} (r : result A) (k : A -> result B) (v : B) :
  rbind r k = Ok v -> exists a, r = Ok a /\ k a = Ok v.
Proof.
  destruct r as [a|e]; simpl; intros H; [| discriminate H].
  exists a. split; [reflexivity | exact H].
Qed.

(** A call followed by a computation on its value. *)
Lemma bind_eval_result {A B} (m : Method A) (k : A -> result B) s r :
  m s = (r, s) -> bind m (fun a => lift (k a)) s = (rbind r k, s).
Proof. intros E. unfold bind. rewrite E. destruct r; reflexivity. Qed.

Lemma div_Ok_inv (a b v : R) : div a b = Ok v -> b <> 0 /\ v = a / b.
Proof.
  unfold div. destruct (Req_dec_T b 0); intros H; [discriminate H |].
  injection H as <-. split; [assumption | reflexivity].
Qed.

(** What the derived first derivatives evaluate on an [EOSGas] snapshot:
    the divisions of [Phase] on [dP_dT] and [dP_dV] of the root read. *)
Lemma EOSGas_first_derivatives_eval self mix r :
  eos_mix self = Some mix -> EOSGas_root mix = Some r ->
  EOSGas_dT_dP self = (div 1.0 (root_dP_dT r), self) /\
  EOSGas_dV_dT self = (div (- root_dP_dT r) (root_dP_dV r), self) /\
  EOSGas_dV_dP self
  = (dV_dT <~ div (- root_dP_dT r) (root_dP_dV r) ;;
     dT_dP <~ div 1.0 (root_dP_dT r) ;;
     Ok (- dV_dT * dT_dP), self) /\
  EOSGas_dT_dV self
  = (dV_dT <~ div (- root_dP_dT r) (root_dP_dV r) ;; div 1 dV_dT, self).
Proof.
  intros Hm Hr.
  assert (E1 : EOSGas_dT_dP self = (div 1.0 (root_dP_dT r), self)).
  { unfold EOSGas_dT_dP, Phase_dT_dP, EOSGas_dP_dT.
    eval_accessors Hm Hr. reflexivity. }
  assert (E2 : EOSGas_dV_dT self
               = (div (- root_dP_dT r) (root_dP_dV r), self)).
  { unfold EOSGas_dV_dT, Phase_dV_dT, EOSGas_dP_dT, EOSGas_dP_dV.
    eval_accessors Hm Hr. reflexivity. }
  split; [exact E1 |]. split; [exact E2 |]. split.
  - unfold EOSGas_dV_dP, Phase_dV_dP.
    fold EOSGas_dV_dT. fold EOSGas_dT_dP.
    destruct (div (- root_dP_dT r) (root_dP_dV r)) as [b|e] eqn:Eb.
    + rewrite (bind_eval_Ok _ _ _ _ _ E2). cbn [rbind].
      destruct (div 1.0 (root_dP_dT r)) as [a|e] eqn:Ea.
      * rewrite (bind_eval_Ok _ _ _ _ _ E1). reflexivity.
      * rewrite (bind_eval_Raise _ _ _ _ _ E1). reflexivity.
    + rewrite (bind_eval_Raise _ _ _ _ _ E2). reflexivity.
  - unfold EOSGas_dT_dV, Phase_dT_dV. fold EOSGas_dV_dT.
    destruct (div (- root_dP_dT r) (root_dP_dV r)) as [b|e] eqn:Eb.
    + rewrite (bind_eval_Ok _ _ _ _ _ E2). reflexivity.
    + rewrite (bind_eval_Raise _ _ _ _ _ E2). reflexivity.
Qed.

(** The first derivatives of an [EOSGas] snapshot: when [dT_dP()],
    [dV_dT()], [dV_dP()] and [dT_dV()] return, they leave the snapshot as it
    was and their values are the expressions of [Phase] on [dP_dT] and
    [dP_dV] of the root read: [1.0/dP_dT], [-dP_dT/dP_dV], [-dV_dT*dT_dP]
    and [1./dV_dT].  Over the reals these values satisfy the reciprocity and
    cyclic relations [dT_dP * dP_dT = 1], [dV_dP * dP_dV = 1],
    [dT_dV * dV_dT = 1] and [dV_dT * dT_dP * dP_dV = -1]. *)
Theorem EOSGas_cyclic_relation (self : PhaseObj) (mix : EosMix)
    (r : EosRoot) (dT_dP dV_dT dV_dP dT_dV : R) (s1 s2 s3 s4 : PhaseObj) :
  eos_mix self = Some mix -> EOSGas_root mix = Some r ->
  EOSGas_dT_dP self = (Ok dT_dP, s1) ->
  EOSGas_dV_dT self = (Ok dV_dT, s2) ->
  EOSGas_dV_dP self = (Ok dV_dP, s3) ->
  EOSGas_dT_dV self = (Ok dT_dV, s4) ->
  (s1 = self /\ s2 = self /\ s3 = self /\ s4 = self) /\
  (dT_dP = 1.0 / root_dP_dT r /\
   dV_dT = - root_dP_dT r / root_dP_dV r /\
   dV_dP = - dV_dT * dT_dP /\
   dT_dV = 1 / dV_dT) /\
  (dT_dP * root_dP_dT r = 1 /\
   dV_dP * root_dP_dV r = 1 /\
   dT_dV * dV_dT = 1 /\
   dV_dT * dT_dP * root_dP_dV r = -1).
Proof.
  intros Hm Hr H1 H2 H3 H4.
  destruct (EOSGas_first_derivatives_eval self mix r Hm Hr)
    as (E1 & E2 & E3 & E4).
  rewrite E1 in H1. injection H1 as H1 <-.
  rewrite E2 in H2. injection H2 as H2 <-.
  rewrite E3 in H3. injection H3 as H3 <-.
  rewrite E4 in H4. injection H4 as H4 <-.
  rewrite H2 in H3, H4. rewrite H1 in H3. cbn [rbind] in H3, H4.
  injection H3 as <-.
  apply div_Ok_inv in H1. destruct H1 as [HT ->].
  apply div_Ok_inv in H2. destruct H2 as [HV ->].
  apply div_Ok_inv in H4. destruct H4 as [Hn ->].
  split; [repeat split |]. split; [repeat split |].
  assert (H10 : 1.0 = 1) by lra. rewrite H10.
  repeat split; field; auto.
Qed.

(** Where the root read has [dP_dT = 0], [dT_dP], [dV_dP] and [dT_dV]
    raise [ZeroDivisionError], also when [dP_dV <> 0] and the volume
    derivative [1 / dP_dV] exists; [dV_dT] returns 0. *)
Theorem EOSGas_isochoric_zero (self : PhaseObj) (mix : EosMix)
    (r : EosRoot) :
  eos_mix self = Some mix -> EOSGas_root mix = Some r ->
  root_dP_dT r = 0 -> root_dP_dV r <> 0 ->
  EOSGas_dT_dP self = (Raise ZeroDivisionError, self) /\
  EOSGas_dV_dT self = (Ok 0, self) /\
  EOSGas_dV_dP self = (Raise ZeroDivisionError, self) /\
  EOSGas_dT_dV self = (Raise ZeroDivisionError, self).
Proof.
  intros Hm Hr HT HV.
  assert (E1 : EOSGas_dT_dP self = (Raise ZeroDivisionError, self)).
  { unfold EOSGas_dT_dP, Phase_dT_dP, EOSGas_dP_dT.
    eval_accessors Hm Hr. unfold lift. rewrite HT, div_zero. reflexivity. }
  assert (E2 : EOSGas_dV_dT self = (Ok 0, self)).
  { unfold EOSGas_dV_dT, Phase_dV_dT, EOSGas_dP_dT, EOSGas_dP_dV.
    eval_accessors Hm Hr. unfold lift. rewrite div_nonzero by exact HV.
    rewrite HT. do 2 f_equal. field. exact HV. }
  split; [exact E1 |]. split; [exact E2 |]. split.
  - unfold EOSGas_dV_dP, Phase_dV_dP.
    fold EOSGas_dV_dT. fold EOSGas_dT_dP.
    rewrite (bind_eval_Ok _ _ _ _ _ E2), (bind_eval_Raise _ _ _ _ _ E1).
    reflexivity.
  - unfold EOSGas_dT_dV, Phase_dT_dV. fold EOSGas_dV_dT.
    rewrite (bind_eval_Ok _ _ _ _ _ E2). unfold lift.
    rewrite div_zero. reflexivity.
Qed.

(** What the molar density and its derivatives evaluate on an [EOSGas]
    snapshot. *)
Lemma EOSGas_density_eval self mix r :
  eos_mix self = Some mix -> EOSGas_root mix = Some r ->
  EOSGas_rho self = (div 1.0 (root_V r), self) /\
  EOSGas_dP_drho self
  = (Ok (- root_V r * root_V r * root_dP_dV r), self) /\
  EOSGas_drho_dP self
  = (d <~ (EOSGas_dV_dP self).1 ;; div (- d) (root_V r * root_V r), self) /\
  EOSGas_dT_drho self
  = (d <~ (EOSGas_dT_dV self).1 ;; Ok (- root_V r * root_V r * d), self) /\
  EOSGas_drho_dT self
  = (d <~ (EOSGas_dV_dT self).1 ;; div (- d) (root_V r * root_V r), self).
Proof.
  intros Hm Hr.
  destruct (EOSGas_first_derivatives_eval self mix r Hm Hr)
    as (_ & E2 & E3 & E4).
  split.
  { unfold EOSGas_rho, Phase_rho, EOSGas_V. eval_accessors Hm Hr.
    reflexivity. }
  split.
  { unfold EOSGas_dP_drho, Phase_dP_drho, EOSGas_V, EOSGas_dP_dV.
    eval_accessors Hm Hr. reflexivity. }
  split.
  { unfold EOSGas_drho_dP, Phase_drho_dP. fold EOSGas_dV_dP.
    unfold EOSGas_V. eval_accessors Hm Hr. rewrite E3. cbn [fst].
    apply (bind_eval_result EOSGas_dV_dP
             (fun d => div (- d) (root_V r * root_V r)) self _ E3). }
  split.
  { unfold EOSGas_dT_drho, Phase_dT_drho. fold EOSGas_dT_dV.
    unfold EOSGas_V. eval_accessors Hm Hr. rewrite E4. cbn [fst].
    apply (bind_eval_result EOSGas_dT_dV
             (fun d => Ok (- root_V r * root_V r * d)) self _ E4). }
  unfold EOSGas_drho_dT, Phase_drho_dT. fold EOSGas_dV_dT.
  unfold EOSGas_V. eval_accessors Hm Hr. rewrite E2. cbn [fst].
  apply (bind_eval_result EOSGas_dV_dT
           (fun d => div (- d) (root_V r * root_V r)) self _ E2).
Qed.

(** In the molar density basis: when [rho()], [dP_drho()], [drho_dP()],
    [dT_drho()] and [drho_dT()] return on an [EOSGas] snapshot, their values
    are the expressions of [Phase] on [V] and [dP_dV] of the root read and
    on the values of [dV_dP()], [dT_dV()] and [dV_dT()]: [1.0/V],
    [-V*V*dP_dV], [-dV_dP/(V*V)], [-V*V*dT_dV] and [-dV_dT/(V*V)].  Over
    the reals these values are consistent: [rho * V = 1],
    [dP_drho * drho_dP = 1] and [dT_drho * drho_dT = 1]. *)
Theorem EOSGas_density_basis (self : PhaseObj) (mix : EosMix) (r : EosRoot)
    (rho dP_drho drho_dP dT_drho drho_dT : R) (s1 s2 s3 s4 s5 : PhaseObj) :
  eos_mix self = Some mix -> EOSGas_root mix = Some r ->
  EOSGas_rho self = (Ok rho, s1) ->
  EOSGas_dP_drho self = (Ok dP_drho, s2) ->
  EOSGas_drho_dP self = (Ok drho_dP, s3) ->
  EOSGas_dT_drho self = (Ok dT_drho, s4) ->
  EOSGas_drho_dT self = (Ok drho_dT, s5) ->
  (exists dV_dP dT_dV dV_dT : R,
     EOSGas_dV_dP self = (Ok dV_dP, self) /\
     EOSGas_dT_dV self = (Ok dT_dV, self) /\
     EOSGas_dV_dT self = (Ok dV_dT, self) /\
     rho = 1.0 / root_V r /\
     dP_drho = - root_V r * root_V r * root_dP_dV r /\
     drho_dP = - dV_dP / (root_V r * root_V r) /\
     dT_drho = - root_V r * root_V r * dT_dV /\
     drho_dT = - dV_dT / (root_V r * root_V r)) /\
  (rho * root_V r = 1 /\
   dP_drho * drho_dP = 1 /\
   dT_drho * drho_dT = 1).
Proof.
  intros Hm Hr H1 H2 H3 H4 H5.
  destruct (EOSGas_first_derivatives_eval self mix r Hm Hr)
    as (E1 & E2 & E3 & E4).
  destruct (EOSGas_density_eval self mix r Hm Hr)
    as (D1 & D2 & D3 & D4 & D5).
  rewrite D1 in H1. injection H1 as H1 _.
  rewrite D2 in H2. injection H2 as <- _.
  rewrite D3 in H3. injection H3 as H3 _.
  rewrite D4 in H4. injection H4 as H4 _.
  rewrite D5 in H5. injection H5 as H5 _.
  apply div_Ok_inv in H1. destruct H1 as [H0 ->].
  apply rbind_Ok_inv in H5. destruct H5 as (dV_dT & F2 & H5).
  apply div_Ok_inv in H5. destruct H5 as [Hvv ->].
  apply rbind_Ok_inv in H3. destruct H3 as (dV_dP & F3 & H3).
  apply div_Ok_inv in H3. destruct H3 as [_ ->].
  apply rbind_Ok_inv in H4. destruct H4 as (dT_dV & F4 & H4).
  injection H4 as <-.
  rewrite E2 in F2. cbn [fst] in F2.
  rewrite E3, F2 in F3. cbn [fst rbind] in F3.
  rewrite E4, F2 in F4. cbn [fst rbind] in F4.
  apply rbind_Ok_inv in F3. destruct F3 as (dT_dP & F1 & F3).
  injection F3 as <-.
  split.
  { exists (- dV_dT * dT_dP), dT_dV, dV_dT.
    rewrite E3, E4, E2, F2, F1. cbn [rbind]. rewrite F4.
    repeat split. }
  apply div_Ok_inv in F1. destruct F1 as [HT ->].
  apply div_Ok_inv in F2. destruct F2 as [HV ->].
  apply div_Ok_inv in F4. destruct F4 as [Hn ->].
  assert (H10 : 1.0 = 1) by lra. rewrite H10.
  repeat split; field; auto.
Qed.

(** ** [to_zs_TPV] with the temperature alone *)

(** With [T] given and neither [P] nor [V], [to_zs_TPV] raises nothing: it
    returns a snapshot at [T] and [zs] to which no equation-of-state
    solution was assigned, so that every primitive accessor of the new
    snapshot, and [lnphis], raises [AttributeError]. *)
Theorem to_zs_TPV_T_alone_unusable (self : PhaseObj) (zs : list R) (T : R) :
  exists new : PhaseObj,
    EOSGas_to_zs_TPV zs (Some T) None None self = (Ok new, self) /\
    obj_T new = Some T /\ obj_zs new = Some zs /\ eos_mix new = None /\
    (forall (A : Type) (X : EosRoot -> A),
       EOS_accessor root_g root_l X new = (Raise AttributeError, new)) /\
    EOSGas_lnphis new = (Raise AttributeError, new).
Proof.
  exists (EOSGas_copy self (Some T) None zs None).
  split; [apply to_zs_TPV_T_alone |].
  do 3 (split; [reflexivity |]).
  assert (Hm : forall B (k : EosMix -> Method B),
             bind (attr eos_mix) k (EOSGas_copy self (Some T) None zs None)
             = (Raise AttributeError,
                EOSGas_copy self (Some T) None zs None)).
  { intros B k. apply bind_eval_Raise. apply attr_eval_absent. reflexivity. }
  split.
  - intros A X. unfold EOS_accessor, eos_attr.
    rewrite (try_eval_caught _ _ _ _ _ _ (Hm _ _) eq_refl). apply Hm.
  - unfold EOSGas_lnphis, EOS_lnphis_of.
    rewrite (try_eval_caught _ _ _ _ _ _ (Hm _ _) eq_refl). apply Hm.
Qed.

(** ** Formation properties of an ideal gas *)

Lemma memo_float_miss name (catches : exn -> bool) (body : Method R) s :
  catches AttributeError = true ->
  float_attrs s !! name = None ->
  try_except (getattr_float name) catches body s = body s.
Proof.
  intros Hc E. unfold try_except, getattr_float. rewrite E, Hc. reflexivity.
Qed.

(** The entropies of formation that [IdealGas.__init__] derives give the
    Gibbs energies of formation back. *)
Lemma formation_sum (zs hs gs : list R) (a b : R) :
  length hs = length gs ->
  fold_left (fun H p => H + fst p * snd p) (zip zs hs) a
  - 298.15 * fold_left (fun S p => S + fst p * snd p)
               (zip zs (zip_with (fun Hfi Gfi => (Hfi - Gfi) / 298.15) hs gs))
               b
  = fold_left (fun acc p => acc + fst p * snd p) (zip zs gs)
      (a - 298.15 * b).
Proof.
  revert hs gs a b.
  induction zs as [|z zs IH]; intros hs gs a b Hlen; [reflexivity |].
  destruct hs as [|h hs], gs as [|g gs]; try discriminate Hlen;
    [reflexivity |].
  injection Hlen as Hlen. cbn [zip zip_with fold_left fst snd].
  rewrite (IH hs gs _ _ Hlen). f_equal. lra.
Qed.

(** For an ideal gas built from formation enthalpies [hs] and Gibbs
    energies [gs] of the same length, [G_formation_ideal_gas()] of every
    snapshot returns [sum(zi*Hf) - T_REF_IG*sum(zi*Sf)], the two sums
    accumulated from [0.0] over the mole fractions, with the entropies of
    formation [Sf = (Hf - Gf)/298.15] that the constructor derives.  Over
    the reals this value is the mole-fraction average of [gs]: the division
    by 298.15 is undone at the reference temperature [T_REF_IG = 298.15]. *)
Theorem IdealGas_G_formation (Cps : option (list TDependentProperty))
    (hs gs zs : list R) (T P : R) :
  length hs = length gs ->
  exists (G : R) (s' : PhaseObj),
    Phase_G_formation_ideal_gas
      (IdealGas_snapshot T P zs (IdealGas_init Cps (Some hs) (Some gs)))
    = (Ok G, s') /\
    G = fold_left (fun H p => H + fst p * snd p) (zip zs hs) 0.0
        - T_REF_IG
          * fold_left (fun S p => S + fst p * snd p)
              (zip zs (zip_with (fun Hfi Gfi => (Hfi - Gfi) / 298.15) hs gs))
              0.0 /\
    G = mole_average zs gs.
Proof.
  intros Hlen.
  set (self := IdealGas_snapshot T P zs (IdealGas_init Cps (Some hs) (Some gs))).
  set (Hf := fold_left (fun H p => H + fst p * snd p) (zip zs hs) 0.0).
  set (Sf := fold_left (fun S p => S + fst p * snd p)
               (zip zs (zip_with (fun Hfi Gfi => (Hfi - Gfi) / 298.15) hs gs))
               0.0).
  set (s1 := with_attrs (<["_H_formation_ideal_gas" := Hf]> (float_attrs self))
               (list_attrs self) self).
  assert (E1 : Phase_H_formation_ideal_gas self = (Ok Hf, s1)).
  { unfold Phase_H_formation_ideal_gas.
    rewrite memo_float_miss by reflexivity. reflexivity. }
  set (s2 := with_attrs (<["_S_formation_ideal_gas" := Sf]> (float_attrs s1))
               (list_attrs s1) s1).
  assert (E2 : Phase_S_formation_ideal_gas s1 = (Ok Sf, s2)).
  { unfold Phase_S_formation_ideal_gas.
    rewrite memo_float_miss; [reflexivity | reflexivity |].
    unfold s1. cbn [float_attrs with_attrs].
    rewrite lookup_insert_ne by discriminate. reflexivity. }
  exists (Hf - T_REF_IG * Sf), s2. split; [| split; [reflexivity |]].
  - unfold Phase_G_formation_ideal_gas.
    rewrite (bind_eval_Ok _ _ _ _ _ E1), (bind_eval_Ok _ _ _ _ _ E2).
    reflexivity.
  - unfold Hf, Sf, T_REF_IG, mole_average.
    rewrite (formation_sum zs hs gs _ _ Hlen). f_equal. lra.
Qed.

(** ** Saturation pressures on the locked path *)

Lemma Psat_fast_not_negative (d : FitsData) (T : R) (i : nat) (v : R) :
  Psat_fast d T i = Ok v -> 0 <= v.
Proof.
  unfold Psat_fast. intros H.
  repeat match type of H with
         | rbind _ _ = Ok _ =>
             apply rbind_Ok_inv in H; destruct H as (? & _ & H)
         | (if ?c then _ else _) = Ok _ => destruct c
         end.
  all: injection H as <-; left; apply exp_pos.
Qed.

Lemma Psats_locked_loop (d : FitsData) (T : R) (cmps : list nat) :
  forall (s s' : PhaseObj) (l0 : list R),
    list_attrs s !! "_Psats" = Some l0 ->
    Forall (fun p => 0 <= p) l0 ->
    for_each cmps
      (fun i (_ : unit) =>
         v <- lift (Psat_fast d T i) ;; append_attr "_Psats" v) tt s
    = (Ok tt, s') ->
    exists l,
      list_attrs s' !! "_Psats" = Some l /\
      Forall (fun p => 0 <= p) l /\
      length l = (length l0 + length cmps)%nat.
Proof.
  induction cmps as [|i cmps IH]; intros s s' l0 Hl Hpos Hrun.
  - simpl in Hrun. injection Hrun as <-. exists l0.
    repeat split; [exact Hl | exact Hpos | simpl; lia].
  - cbn [for_each] in Hrun.
    apply bind_Ok_inv in Hrun. destruct Hrun as ([] & s1 & Hbody & Hrest).
    apply bind_Ok_inv in Hbody. destruct Hbody as (v & s0 & Hv & Happ).
    unfold lift in Hv. injection Hv as Hv <-.
    unfold append_attr, bind, getattr_list, setattr_list in Happ.
    rewrite Hl in Happ. injection Happ as Hs1.
    assert (Hl1 : list_attrs s1 !! "_Psats" = Some (l0 ++ [v])%list).
    { rewrite <- Hs1. cbn [list_attrs with_attrs]. apply lookup_insert_eq. }
    assert (Hpos1 : Forall (fun p => 0 <= p) (l0 ++ [v])%list).
    { apply Forall_app. split; [exact Hpos |].
      constructor; [| constructor]. apply (Psat_fast_not_negative _ _ _ _ Hv). }
    destruct (IH s1 s' _ Hl1 Hpos1 Hrest) as (l & E & P & L).
    exists l. repeat split; [exact E | exact P |].
    rewrite L, length_app. simpl. lia.
Qed.

(** On the locked fast path no saturation pressure is negative: when
    [Psats()] computes and returns its list, the list has one entry per
    component, each the exponential of a fit value and so not below zero
    (the exponential of the reals is positive; [math.exp] underflows to
    [0.0]), and [_Psats] holds the list. *)
Theorem Psats_locked_not_negative (self s1 : PhaseObj) (l : list R) :
  Psats_locked self = true ->
  list_attrs self !! "_Psats" = None ->
  GibbsExcessLiquid_Psats self = (Ok l, s1) ->
  Forall (fun p => 0 <= p) l /\
  (exists cmps, obj_cmps self = Some cmps /\ length l = length cmps) /\
  list_attrs s1 !! "_Psats" = Some l.
Proof.
  intros Hlocked Hmiss Hrun.
  unfold GibbsExcessLiquid_Psats, try_except in Hrun.
  unfold getattr_list at 1 in Hrun. rewrite Hmiss in Hrun.
  cbn [is_AttributeError] in Hrun.
  bind_inv Hrun. unfold attr in E. destruct (obj_T self) as [T|];
    [| discriminate E]. injection E as <- <-.
  bind_inv Hrun. unfold attr in E.
  destruct (obj_cmps self) as [cmps|] eqn:Hcmps; [| discriminate E].
  injection E as <- <-.
  bind_inv Hrun. unfold setattr_list in E. injection E as _ <-.
  bind_inv Hrun. unfold field in E. injection E as <- <-.
  cbn [Psats_locked with_attrs] in Hrun. rewrite Hlocked in Hrun.
  bind_inv Hrun. unfold field in E. injection E as <- <-.
  bind_inv Hrun. cbn [Psats_data with_attrs] in E.
  destruct (Psats_data self) as [d|]; [| discriminate E].
  unfold not_None, ret in E. injection E as <- <-.
  bind_inv Hrun. destruct a0.
  assert (H0 : list_attrs
                 (with_attrs (float_attrs self)
                    (<["_Psats" := []]> (list_attrs self)) self)
               !! "_Psats" = Some [])
    by (cbn [list_attrs with_attrs]; apply lookup_insert_eq).
  destruct (Psats_locked_loop d T cmps _ s [] H0 (List.Forall_nil _) E)
    as (l' & El & Pl & Ll).
  unfold getattr_list in Hrun. rewrite El in Hrun. injection Hrun as <- <-.
  split; [exact Pl |]. split; [| exact El].
  exists cmps. split; [reflexivity | exact Ll].
Qed.

(** ** The temperature derivative of the saturation pressures *)

Lemma linear_piece_derivative (c s v x : R) :
  derivable_pt_lim (fun T => (T - c) * s + v) x s.
Proof.
  intros eps Heps. exists (mkposreal 1 Rlt_0_1). intros h Hh _.
  replace (((x + h - c) * s + v - ((x - c) * s + v)) / h - s) with 0
    by (field; exact Hh).
  rewrite Rabs_R0. exact Heps.
Qed.

Lemma exp_linear_derivative (c s v x : R) :
  derivable_pt_lim (fun T => exp ((T - c) * s + v)) x
    (s * exp ((x - c) * s + v)).
Proof.
  rewrite Rmult_comm.
  apply (derivable_pt_lim_comp (fun T => (T - c) * s + v) exp).
  - apply linear_piece_derivative.
  - apply derivable_pt_lim_exp.
Qed.

(** Outside the fit range the locked path of [dPsats_dT] returns the
    derivative of what the locked path of [Psats] returns: for a component
    [i] with fit range [[Tmin, Tmax]] and a temperature [T0] below [Tmin],
    or above [Tmax] where [Tmin <= Tmax], the entry that [dPsats_dT]
    computes from the saturation pressure [p] at [T0] is the derivative at
    [T0] of the saturation pressure as a function of the temperature. *)
Theorem dPsats_dT_derivative_outside_fit (d : FitsData) (i : nat)
    (Psats : list R) (T0 Tmin Tmax p dp : R) :
  fit_0 d !! i = Some Tmin ->
  fit_3 d !! i = Some Tmax ->
  T0 < Tmin \/ (Tmin <= Tmax /\ Tmax < T0) ->
  Psat_fast d T0 i = Ok p ->
  Psats !! i = Some p ->
  dPsat_dT_fast d Psats T0 i = Ok dp ->
  derivable_pt_lim (fun T => value_of (Psat_fast d T i)) T0 dp.
Proof.
  intros Hmin Hmax Hout Hp Hi Hdp.
  unfold Psat_fast, getitem in Hp. unfold dPsat_dT_fast, getitem in Hdp.
  rewrite Hmin in Hp, Hdp. cbn [rbind] in Hp, Hdp.
  rewrite Hi in Hdp.
  destruct Hout as [Hlow | [Hle Hhigh]].
  - destruct (Rlt_dec T0 Tmin) as [_|]; [| lra].
    destruct (fit_1 d !! i) as [s|] eqn:Hs; [| discriminate Hp].
    destruct (fit_2 d !! i) as [v|] eqn:Hv; [| discriminate Hp].
    cbn [rbind] in Hp, Hdp. injection Hp as <-. injection Hdp as <-.
    apply (derivable_pt_lim_locally_ext
             (fun T => exp ((T - Tmin) * s + v)) _ T0 (T0 - 1) Tmin).
    + lra.
    + intros z Hz. unfold Psat_fast, getitem. rewrite Hmin. cbn [rbind].
      destruct (Rlt_dec z Tmin); [| lra]. rewrite Hs, Hv. reflexivity.
    + apply exp_linear_derivative.
  - destruct (Rlt_dec T0 Tmin); [lra |].
    rewrite Hmax in Hp, Hdp. cbn [rbind] in Hp, Hdp.
    destruct (Rgt_dec T0 Tmax) as [_|]; [| lra].
    destruct (fit_4 d !! i) as [s|] eqn:Hs; [| discriminate Hp].
    destruct (fit_5 d !! i) as [v|] eqn:Hv; [| discriminate Hp].
    cbn [rbind] in Hp, Hdp. injection Hp as <-. injection Hdp as <-.
    apply (derivable_pt_lim_locally_ext
             (fun T => exp ((T - Tmax) * s + v)) _ T0 Tmax (T0 + 1)).
    + lra.
    + intros z Hz. unfold Psat_fast, getitem. rewrite Hmin. cbn [rbind].
      destruct (Rlt_dec z Tmin); [lra |]. rewrite Hmax. cbn [rbind].
      destruct (Rgt_dec z Tmax); [| lra]. rewrite Hs, Hv. reflexivity.
    + apply exp_linear_derivative.
Qed.

(** ** The fast integral of Cp/T *)

Lemma setup_Cpigs_columns_over_T objs d :
  setup_Cpigs (Some objs) = Ok (true, Some d) ->
  exists c9 c10 c11 c15,
    rmap setup_9 objs = Ok c9 /\ rmap setup_10 objs = Ok c10 /\
    rmap setup_15 objs = Ok c15 /\
    d = {| Cps_0 := map best_fit_Tmin objs;
           Cps_1 := map best_fit_Tmin_slope objs;
           Cps_2 := map best_fit_Tmin_value objs;
           Cps_3 := map best_fit_Tmax objs;
           Cps_4 := map best_fit_Tmax_slope objs;
           Cps_5 := map best_fit_Tmax_value objs;
           Cps_6 := map best_fit_log_coeff objs;
           Cps_7 := map setup_7 objs;
           Cps_8 := map setup_8 objs;
           Cps_9 := c9;
           Cps_10 := c10;
           Cps_11 := c11;
           Cps_12 := map best_fit_coeffs objs;
           Cps_13 := map best_fit_int_coeffs objs;
           Cps_14 := map best_fit_T_int_T_coeffs objs;
           Cps_15 := c15 |}.
Proof.
  intros Hs. unfold setup_Cpigs in Hs.
  destruct (all_locked objs); [| discriminate Hs].
  destruct (rmap setup_9 objs) as [c9|]; [| discriminate Hs].
  destruct (rmap setup_10 objs) as [c10|]; [| discriminate Hs].
  destruct (rmap setup_11 objs) as [c11|]; [| discriminate Hs].
  destruct (rmap setup_15 objs) as [c15|]; [| discriminate Hs].
  simpl in Hs. injection Hs as <-.
  exists c9, c10, c11, c15. repeat split; reflexivity.
Qed.

Lemma getitem_Ok {A} (xs : list A) i x :
  xs !! i = Some x -> getitem xs i = Ok x.
Proof. intros H. unfold getitem. rewrite H. reflexivity. Qed.

(** The closed form that [Cp_integral_over_T_fast] computes, with [c15] the
    entry of column 15. *)
Lemma Cp_integral_over_T_fast_eval objs d i obj :
  horner_log_spec ->
  setup_Cpigs (Some objs) = Ok (true, Some d) ->
  objs !! i = Some obj ->
  0 < best_fit_Tmin obj -> best_fit_Tmin obj <= best_fit_Tmax obj ->
  exists c15 : R,
    setup_15 obj = Ok c15 /\
    forall T logT,
      Cp_integral_over_T_fast d T logT i
      = Ok (if Rlt_dec T (best_fit_Tmin obj) then
              best_fit_Tmin_slope obj * T
              + (best_fit_Tmin_value obj
                 - best_fit_Tmin_slope obj * best_fit_Tmin obj) * logT - c15
            else if Rle_dec T (best_fit_Tmax obj) then
              horner (best_fit_T_int_T_coeffs obj) T
              + best_fit_log_coeff obj * logT
              - (horner_log_value obj (best_fit_Tmin obj)
                 - Cp_over_T_join obj) - c15
            else
              horner_log_value obj (best_fit_Tmax obj)
              - horner_log_value obj (best_fit_Tmin obj)
              + Cp_over_T_join obj
              - (best_fit_Tmax_value obj
                 - best_fit_Tmax obj * best_fit_Tmax_slope obj)
                * ln (best_fit_Tmax obj)
              + (- best_fit_Tmax_slope obj * (best_fit_Tmax obj - T)
                 + (best_fit_Tmax_value obj
                    - best_fit_Tmax obj * best_fit_Tmax_slope obj) * logT)
              - c15).
Proof.
  intros Hhl Hs Hi Hpos Hle.
  destruct (setup_Cpigs_columns_over_T objs d Hs)
    as (c9s & c10s & c11s & c15s & E9 & E10 & E15 & ->).
  destruct (rmap_lookup _ _ _ _ _ E9 Hi) as (c9 & Hc9 & Hf9).
  destruct (rmap_lookup _ _ _ _ _ E10 Hi) as (c10 & Hc10 & Hf10).
  destruct (rmap_lookup _ _ _ _ _ E15 Hi) as (c15 & Hc15 & Hf15).
  assert (Hposmax : 0 < best_fit_Tmax obj) by lra.
  unfold setup_9 in Hf9. rewrite (Hhl _ _ _ Hpos), (log_pos _ Hpos) in Hf9.
  cbn [rbind] in Hf9. injection Hf9 as Hf9.
  unfold setup_10 in Hf10.
  rewrite (Hhl _ _ _ Hpos), (Hhl _ _ _ Hposmax), (log_pos _ Hpos),
    (log_pos _ Hposmax) in Hf10.
  cbn [rbind] in Hf10. injection Hf10 as Hf10.
  exists c15. split; [exact Hf15 |]. intros T logT.
  unfold Cp_integral_over_T_fast. cbn [Cps_0 Cps_1 Cps_2 Cps_3 Cps_4 Cps_5
    Cps_6 Cps_9 Cps_10 Cps_14 Cps_15].
  rewrite !(getitem_map _ objs i obj Hi).
  rewrite (getitem_Ok _ _ _ Hc9), (getitem_Ok _ _ _ Hc10),
    (getitem_Ok _ _ _ Hc15).
  cbn [rbind].
  unfold horner_log_value, Cp_over_T_join.
  destruct (Rlt_dec T (best_fit_Tmin obj)); cbn [rbind];
    [reflexivity |].
  destruct (Rle_dec (best_fit_Tmin obj) T); [| lra].
  destruct (Rle_dec T (best_fit_Tmax obj)); cbn [rbind];
    f_equal; rewrite <- ?Hf9, <- ?Hf10; lra.
Qed.

Lemma ln_continuity (x : R) : 0 < x -> continuity_pt ln x.
Proof.
  intros Hx. apply derivable_continuous_pt. exists (/ x).
  apply derivable_pt_lim_ln, Hx.
Qed.

Lemma linear_log_derivative (a b k x : R) :
  0 < x ->
  derivable_pt_lim (fun T => a * T + b * ln T + k) x (a + b / x).
Proof.
  intros Hx.
  assert (H : derivable_pt_lim
                ((fct_cte a * id) + (fct_cte b * ln) + fct_cte k)%F x
                ((0 * id x + fct_cte a x * 1)
                 + (0 * ln x + fct_cte b x * / x) + 0)).
  { apply derivable_pt_lim_plus; [| apply derivable_pt_lim_const].
    apply derivable_pt_lim_plus.
    - apply derivable_pt_lim_mult;
        [apply derivable_pt_lim_const | apply derivable_pt_lim_id].
    - apply derivable_pt_lim_mult;
        [apply derivable_pt_lim_const | apply derivable_pt_lim_ln, Hx]. }
  unfold plus_fct, mult_fct, fct_cte, id in H.
  replace (a + b / x) with (0 * x + a * 1 + (0 * ln x + b * / x) + 0)
    by (unfold Rdiv; ring).
  exact H.
Qed.

Lemma Cp_over_T_low_derivative obj c15 x :
  0 < x ->
  derivable_pt_lim (Cp_over_T_low obj c15) x
    (((x - best_fit_Tmin obj) * best_fit_Tmin_slope obj
      + best_fit_Tmin_value obj) / x).
Proof.
  intros Hx.
  apply (derivable_pt_lim_ext
           (fun T => best_fit_Tmin_slope obj * T
                     + (best_fit_Tmin_value obj
                        - best_fit_Tmin_slope obj * best_fit_Tmin obj) * ln T
                     + - c15)).
  - intros z. unfold Cp_over_T_low. lra.
  - replace (((x - best_fit_Tmin obj) * best_fit_Tmin_slope obj
              + best_fit_Tmin_value obj) / x)
      with (best_fit_Tmin_slope obj
            + (best_fit_Tmin_value obj
               - best_fit_Tmin_slope obj * best_fit_Tmin obj) / x)
      by (field; lra).
    apply linear_log_derivative, Hx.
Qed.

Lemma Cp_over_T_high_derivative obj c15 x :
  0 < x ->
  derivable_pt_lim (Cp_over_T_high obj c15) x
    (((x - best_fit_Tmax obj) * best_fit_Tmax_slope obj
      + best_fit_Tmax_value obj) / x).
Proof.
  intros Hx.
  set (K := horner_log_value obj (best_fit_Tmax obj)
            - horner_log_value obj (best_fit_Tmin obj)
            + Cp_over_T_join obj
            - (best_fit_Tmax_value obj
               - best_fit_Tmax obj * best_fit_Tmax_slope obj)
              * ln (best_fit_Tmax obj)).
  apply (derivable_pt_lim_ext
           (fun T => best_fit_Tmax_slope obj * T
                     + (best_fit_Tmax_value obj
                        - best_fit_Tmax obj * best_fit_Tmax_slope obj) * ln T
                     + (K - best_fit_Tmax_slope obj * best_fit_Tmax obj
                        - c15))).
  - intros z. unfold Cp_over_T_high. fold K. lra.
  - replace (((x - best_fit_Tmax obj) * best_fit_Tmax_slope obj
              + best_fit_Tmax_value obj) / x)
      with (best_fit_Tmax_slope obj
            + (best_fit_Tmax_value obj
               - best_fit_Tmax obj * best_fit_Tmax_slope obj) / x)
      by (field; lra).
    apply linear_log_derivative, Hx.
Qed.

Lemma Cp_over_T_low_continuity obj c15 x :
  0 < x -> continuity_pt (Cp_over_T_low obj c15) x.
Proof.
  intros Hx. apply derivable_continuous_pt.
  eexists. apply Cp_over_T_low_derivative, Hx.
Qed.

Lemma Cp_over_T_high_continuity obj c15 x :
  0 < x -> continuity_pt (Cp_over_T_high obj c15) x.
Proof.
  intros Hx. apply derivable_continuous_pt.
  eexists. apply Cp_over_T_high_derivative, Hx.
Qed.

Lemma Cp_over_T_mid_continuity obj c15 x :
  0 < x -> continuity_pt (Cp_over_T_mid obj c15) x.
Proof.
  intros Hx. unfold Cp_over_T_mid.
  set (k := horner_log_value obj (best_fit_Tmin obj) - Cp_over_T_join obj).
  apply (continuity_pt_minus
           (fun T => horner (best_fit_T_int_T_coeffs obj) T
                     + best_fit_log_coeff obj * ln T - k)
           (fct_cte c15));
    [| apply continuity_pt_const; intros y z; reflexivity].
  apply (continuity_pt_minus
           (fun T => horner (best_fit_T_int_T_coeffs obj) T
                     + best_fit_log_coeff obj * ln T)
           (fct_cte k));
    [| apply continuity_pt_const; intros y z; reflexivity].
  apply (continuity_pt_plus (horner (best_fit_T_int_T_coeffs obj))
           (fun T => best_fit_log_coeff obj * ln T));
    [apply horner_continuity |].
  apply (continuity_pt_mult (fct_cte (best_fit_log_coeff obj)) ln);
    [apply continuity_pt_const; intros y z; reflexivity
    | apply ln_continuity, Hx].
Qed.

Lemma Cp_over_T_join_Tmin obj c15 :
  Cp_over_T_low obj c15 (best_fit_Tmin obj)
  = Cp_over_T_mid obj c15 (best_fit_Tmin obj).
Proof.
  unfold Cp_over_T_low, Cp_over_T_mid, horner_log_value, Cp_over_T_join. lra.
Qed.

Lemma Cp_over_T_join_Tmax obj c15 :
  Cp_over_T_high obj c15 (best_fit_Tmax obj)
  = Cp_over_T_mid obj c15 (best_fit_Tmax obj).
Proof.
  unfold Cp_over_T_high, Cp_over_T_mid, horner_log_value, Cp_over_T_join. lra.
Qed.

Lemma Cp_over_T_closed_form_continuity_Tmin obj c15 :
  0 < best_fit_Tmin obj -> best_fit_Tmin obj <= best_fit_Tmax obj ->
  continuity_pt (Cp_over_T_closed_form obj c15) (best_fit_Tmin obj).
Proof.
  intros Hpos Hle.
  assert (Hat : Cp_over_T_closed_form obj c15 (best_fit_Tmin obj)
                = Cp_over_T_mid obj c15 (best_fit_Tmin obj)).
  { unfold Cp_over_T_closed_form.
    destruct (Rlt_dec (best_fit_Tmin obj) (best_fit_Tmin obj)); [lra |].
    destruct (Rle_dec (best_fit_Tmin obj) (best_fit_Tmax obj));
      [reflexivity | lra]. }
  destruct (Rle_lt_or_eq_dec _ _ Hle) as [Hlt | Heq].
  - apply (continuity_pt_glue _ (Cp_over_T_low obj c15)
             (Cp_over_T_mid obj c15) (Cp_over_T_mid obj c15) _
             (best_fit_Tmax obj - best_fit_Tmin obj)).
    + lra.
    + intros x Hx. apply Rabs_def2 in Hx. unfold Cp_over_T_closed_form.
      destruct (Rlt_dec x (best_fit_Tmin obj)); [left; reflexivity |].
      destruct (Rle_dec x (best_fit_Tmax obj)); [right; left; reflexivity |].
      lra.
    + apply Cp_over_T_low_continuity, Hpos.
    + apply Cp_over_T_mid_continuity, Hpos.
    + apply Cp_over_T_mid_continuity, Hpos.
    + rewrite Hat. apply Cp_over_T_join_Tmin.
    + symmetry. exact Hat.
    + symmetry. exact Hat.
  - apply (continuity_pt_glue _ (Cp_over_T_low obj c15)
             (Cp_over_T_mid obj c15) (Cp_over_T_high obj c15) _ 1).
    + lra.
    + intros x _. unfold Cp_over_T_closed_form.
      destruct (Rlt_dec x (best_fit_Tmin obj)); [left; reflexivity |].
      destruct (Rle_dec x (best_fit_Tmax obj));
        [right; left; reflexivity | right; right; reflexivity].
    + apply Cp_over_T_low_continuity, Hpos.
    + apply Cp_over_T_mid_continuity, Hpos.
    + apply Cp_over_T_high_continuity, Hpos.
    + rewrite Hat. apply Cp_over_T_join_Tmin.
    + symmetry. exact Hat.
    + rewrite Hat, Heq. apply Cp_over_T_join_Tmax.
Qed.

Lemma Cp_over_T_closed_form_continuity_Tmax obj c15 :
  0 < best_fit_Tmin obj -> best_fit_Tmin obj <= best_fit_Tmax obj ->
  continuity_pt (Cp_over_T_closed_form obj c15) (best_fit_Tmax obj).
Proof.
  intros Hpos Hle.
  assert (Hposmax : 0 < best_fit_Tmax obj) by lra.
  assert (Hat : Cp_over_T_closed_form obj c15 (best_fit_Tmax obj)
                = Cp_over_T_mid obj c15 (best_fit_Tmax obj)).
  { unfold Cp_over_T_closed_form.
    destruct (Rlt_dec (best_fit_Tmax obj) (best_fit_Tmin obj)); [lra |].
    destruct (Rle_dec (best_fit_Tmax obj) (best_fit_Tmax obj));
      [reflexivity | lra]. }
  destruct (Rle_lt_or_eq_dec _ _ Hle) as [Hlt | Heq].
  - apply (continuity_pt_glue _ (Cp_over_T_mid obj c15)
             (Cp_over_T_mid obj c15) (Cp_over_T_high obj c15) _
             (best_fit_Tmax obj - best_fit_Tmin obj)).
    + lra.
    + intros x Hx. apply Rabs_def2 in Hx. unfold Cp_over_T_closed_form.
      destruct (Rlt_dec x (best_fit_Tmin obj)); [lra |].
      destruct (Rle_dec x (best_fit_Tmax obj));
        [left; reflexivity | right; right; reflexivity].
    + apply Cp_over_T_mid_continuity, Hposmax.
    + apply Cp_over_T_mid_continuity, Hposmax.
    + apply Cp_over_T_high_continuity, Hposmax.
    + symmetry. exact Hat.
    + symmetry. exact Hat.
    + rewrite Hat. apply Cp_over_T_join_Tmax.
  - apply (continuity_pt_glue _ (Cp_over_T_low obj c15)
             (Cp_over_T_mid obj c15) (Cp_over_T_high obj c15) _ 1).
    + lra.
    + intros x _. unfold Cp_over_T_closed_form.
      destruct (Rlt_dec x (best_fit_Tmin obj)); [left; reflexivity |].
      destruct (Rle_dec x (best_fit_Tmax obj));
        [right; left; reflexivity | right; right; reflexivity].
    + apply Cp_over_T_low_continuity, Hposmax.
    + apply Cp_over_T_mid_continuity, Hposmax.
    + apply Cp_over_T_high_continuity, Hposmax.
    + rewrite Hat, <- Heq. apply Cp_over_T_join_Tmin.
    + symmetry. exact Hat.
    + rewrite Hat. apply Cp_over_T_join_Tmax.
Qed.


(** ** [EOSLiquid] against [EOSGas] *)

(** [EOSLiquid] is [EOSGas] with the two roots exchanged: where the
    equation of state has both roots, an accessor of [EOSGas] returns the
    gas-branch quantity and the same accessor of [EOSLiquid] the
    liquid-branch one; where it has one root only, or none, the two classes
    return the same result. *)
Theorem EOSLiquid_mirrors_EOSGas {A} (X : EosRoot -> A) (self : PhaseObj)
    (mix : EosMix) :
  eos_mix self = Some mix ->
  (forall g l, root_g mix = Some g -> root_l mix = Some l ->
     EOS_accessor root_g root_l X self = (Ok (X g), self) /\
     EOS_accessor root_l root_g X self = (Ok (X l), self)) /\
  (root_g mix = None \/ root_l mix = None ->
   EOS_accessor root_l root_g X self = EOS_accessor root_g root_l X self).
Proof.
  intros Hm.
  rewrite (EOS_accessor_eval root_g root_l X self mix Hm).
  rewrite (EOS_accessor_eval root_l root_g X self mix Hm).
  split.
  - intros g l Hg Hl. rewrite Hg, Hl. split; reflexivity.
  - intros [Hg | Hl].
    + rewrite Hg. destruct (root_l mix); reflexivity.
    + rewrite Hl. destruct (root_g mix); reflexivity.
Qed.

(** ** The table that [setup_Cpigs] builds *)

Lemma rmap_length {A B} (f : A -> result B) (xs : list A) (ys : list B) :
  rmap f xs = Ok ys -> length ys = length xs.
Proof.
  revert ys. induction xs as [|x xs IH]; intros ys H.
  - injection H as <-. reflexivity.
  - simpl in H. destruct (f x) as [y|]; [| discriminate H].
    simpl in H. destruct (rmap f xs) as [ys0|]; [| discriminate H].
    simpl in H. injection H as <-. simpl. f_equal. apply IH. reflexivity.
Qed.

Lemma getitem_out_of_range {A} (xs : list A) (i : nat) :
  (length xs <= i)%nat -> getitem xs i = Raise IndexError.
Proof.
  intros H. unfold getitem. rewrite (lookup_ge_None_2 _ _ H). reflexivity.
Qed.

(** [setup_Cpigs] enables the fast path exactly when heat-capacity objects
    are given and all of them are locked, and only then builds a table; in
    a table that it builds all sixteen columns have one entry per
    component, so that the fast paths return for every component index and
    raise [IndexError] exactly for an index out of range. *)
Theorem setup_Cpigs_table_shape
    (HeatCapacityGases : option (list TDependentProperty))
    (locked_flag : bool) (table : option CpsData) :
  setup_Cpigs HeatCapacityGases = Ok (locked_flag, table) ->
  (locked_flag = true <->
   exists objs, HeatCapacityGases = Some objs /\
                Forall (fun o => locked o = true) objs) /\
  (locked_flag = true <-> table <> None) /\
  (forall d objs,
     table = Some d -> HeatCapacityGases = Some objs ->
     let N := length objs in
     length (Cps_0 d) = N /\ length (Cps_1 d) = N /\ length (Cps_2 d) = N /\
     length (Cps_3 d) = N /\ length (Cps_4 d) = N /\ length (Cps_5 d) = N /\
     length (Cps_6 d) = N /\ length (Cps_7 d) = N /\ length (Cps_8 d) = N /\
     length (Cps_9 d) = N /\ length (Cps_10 d) = N /\
     length (Cps_11 d) = N /\ length (Cps_12 d) = N /\
     length (Cps_13 d) = N /\ length (Cps_14 d) = N /\
     length (Cps_15 d) = N /\
     forall T i,
       ((i < N)%nat -> is_Ok (Cp_integral_fast d T i) = true /\
                       is_Ok (Cp_value_fast d T i) = true) /\
       ((N <= i)%nat -> Cp_integral_fast d T i = Raise IndexError /\
                        Cp_value_fast d T i = Raise IndexError)).
Proof.
  intros Hs. destruct HeatCapacityGases as [objs|].
  - destruct (all_locked objs) eqn:Hall.
    + assert (Hall' : Forall (fun o => locked o = true) objs).
      { apply Forall_forall. intros o Ho. unfold all_locked in Hall.
        rewrite forallb_forall in Hall. apply Hall.
        apply list_elem_of_In. exact Ho. }
      destruct locked_flag, table as [d|];
        try (unfold setup_Cpigs in Hs; rewrite Hall in Hs;
             destruct (rmap setup_9 objs); [| discriminate Hs];
             destruct (rmap setup_10 objs); [| discriminate Hs];
             destruct (rmap setup_11 objs); [| discriminate Hs];
             destruct (rmap setup_15 objs); discriminate Hs).
      split; [split; [intros _; exists objs; split; trivial | trivial] |].
      split; [split; [discriminate | trivial] |].
      intros d' objs' [= <-] [= <-] N.
      destruct (setup_Cpigs_columns_over_T objs d Hs)
        as (c9 & c10 & c11 & c15 & E9 & E10 & E15 & Hd).
      destruct (setup_Cpigs_columns objs d Hs)
        as (c9' & c10' & c11' & c15' & E11 & Hd').
      assert (L11 : length (Cps_11 d) = N).
      { rewrite Hd'. cbn [Cps_11]. apply (rmap_length _ _ _ E11). }
      rewrite Hd in L11 |- *.
      cbn [Cps_0 Cps_1 Cps_2 Cps_3 Cps_4 Cps_5 Cps_6 Cps_7 Cps_8 Cps_9
             Cps_10 Cps_11 Cps_12 Cps_13 Cps_14 Cps_15] in L11 |- *.
      rewrite !length_map, (rmap_length _ _ _ E9), (rmap_length _ _ _ E10),
        (rmap_length _ _ _ E15), L11.
      do 16 (split; [reflexivity |]).
      intros T i. split.
      * intros Hi. apply lookup_lt_is_Some_2 in Hi. destruct Hi as (obj & Hi).
        rewrite <- Hd.
        destruct (Cp_integral_fast_eval objs d i obj Hs Hi) as (x & _ & Hx).
        rewrite Hx, (Cp_value_fast_eval objs d i obj T Hs Hi).
        split; reflexivity.
      * intros Hi. unfold Cp_integral_fast, Cp_value_fast.
        cbn [Cps_0].
        rewrite (getitem_out_of_range (map best_fit_Tmin objs) i)
          by (rewrite length_map; exact Hi).
        split; reflexivity.
    + unfold setup_Cpigs in Hs. rewrite Hall in Hs. injection Hs as <- <-.
      split; [split; [discriminate |] |].
      { intros (objs' & [= <-] & HF). exfalso.
        assert (H : all_locked objs = true).
        { unfold all_locked. apply forallb_forall. intros o Ho.
          rewrite Forall_forall in HF. apply HF.
          apply list_elem_of_In. exact Ho. }
        rewrite Hall in H. discriminate H. }
      split; [split; [discriminate | intros H; contradiction] |].
      intros d objs' Hd. discriminate Hd.
  - injection Hs as <- <-.
    split; [split; [discriminate | intros (objs & H & _); discriminate H] |].
    split; [split; [discriminate | intros H; contradiction] |].
    intros d objs' Hd. discriminate Hd.
Qed.

(** ** Fugacities of an ideal gas *)

Lemma comprehension_lift {A B} (f : A -> result B) (xs : list A) s :
  comprehension (fun x => lift (f x)) xs s = (rmap f xs, s).
Proof.
  induction xs as [|x xs IH]; [reflexivity |].
  cbn [comprehension rmap]. unfold bind at 1, lift at 1.
  destruct (f x) as [y|e]; [| reflexivity]. cbn [rbind].
  unfold bind at 1. rewrite IH.
  destruct (rmap f xs) as [ys|e]; reflexivity.
Qed.

Lemma rmap_map {A B} (f : A -> result B) (g : A -> B) (xs : list A) :
  (forall x, x ∈ xs -> f x = Ok (g x)) -> rmap f xs = Ok (map g xs).
Proof.
  induction xs as [|x xs IH]; intros H; [reflexivity |].
  cbn [rmap map]. rewrite (H x) by apply list_elem_of_here. cbn [rbind].
  rewrite IH; [reflexivity |].
  intros y Hy. apply H. apply list_elem_of_further, Hy.
Qed.

Lemma sum_scaled (P : R) (zs : list R) (a : R) :
  fold_left Rplus (map (fun zi => P * zi) zs) (P * a)
  = P * fold_left Rplus zs a.
Proof.
  revert a. induction zs as [|z zs IH]; intros a; [reflexivity |].
  cbn [map fold_left]. rewrite <- IH. f_equal. ring.
Qed.

(** On a snapshot that [IdealGas.to_TP_zs] builds, the override
    [IdealGas.fugacities] returns [P*zi] for every component, the formula of
    [Phase.fugacities] with the ideal-gas [lnphis()] returns the same list,
    and the fugacities sum to [P] times the sum of the mole fractions. *)
Theorem IdealGas_fugacities_partial_pressures (self : PhaseObj) (T P : R)
    (zs : list R) :
  let snapshot := IdealGas_snapshot T P zs self in
  IdealGas_fugacities snapshot = (Ok (map (fun zi => P * zi) zs), snapshot) /\
  Phase_fugacities IdealGas_lnphis snapshot
  = (Ok (map (fun zi => P * zi) zs), snapshot) /\
  sum (map (fun zi => P * zi) zs) = P * sum zs.
Proof.
  intros snapshot. split; [reflexivity |]. split.
  - unfold Phase_fugacities, IdealGas_lnphis.
    rewrite (bind_eval_Ok _ _ snapshot P snapshot) by reflexivity.
    rewrite (bind_eval_Ok _ _ snapshot zs snapshot) by reflexivity.
    rewrite (bind_eval_Ok _ _ snapshot (replicate (length zs) 0.0) snapshot)
      by reflexivity.
    rewrite comprehension_lift. f_equal.
    rewrite (rmap_map _ (fun i => P * default 0 (zs !! i) * exp 0.0)).
    + f_equal. apply list_eq. intros i.
      rewrite !list_lookup_fmap. unfold range.
      destruct (decide (i < length zs)%nat) as [Hi|Hi].
      * rewrite lookup_seq_lt by exact Hi.
        destruct (lookup_lt_is_Some_2 zs i Hi) as (z & Hz).
        cbn [fmap option_fmap option_map Nat.add]. rewrite Hz.
        cbn [default].
        assert (H00 : exp 0.0 = 1) by (replace 0.0 with 0 by lra; apply exp_0).
        rewrite H00. apply (f_equal Some). unfold Datatypes.id. ring.
      * rewrite lookup_seq_ge by lia.
        rewrite (lookup_ge_None_2 zs i) by lia. reflexivity.
    + intros i Hi. unfold range in Hi. apply elem_of_seq in Hi.
      destruct (lookup_lt_is_Some_2 zs i) as (z & Hz); [lia |].
      unfold getitem. rewrite Hz. cbn [rbind].
      rewrite lookup_replicate_2 by lia. reflexivity.
  - unfold sum. rewrite <- sum_scaled. f_equal. ring.
Qed.

(** ** The memoized list of [Psats] after a call *)

Lemma memoized_list_float name s n v :
  memoized_list name s ->
  memoized_list name
    (with_attrs (<[n := v]> (float_attrs s)) (list_attrs s) s).
Proof. intros H. exact H. Qed.

Lemma memoized_list_list name s n v :
  memoized_list name s ->
  memoized_list name
    (with_attrs (float_attrs s) (<[n := v]> (list_attrs s)) s).
Proof.
  unfold memoized_list. intros H. cbn [list_attrs with_attrs].
  destruct (decide (n = name)) as [->|Hn].
  - rewrite lookup_insert_eq. eexists. reflexivity.
  - rewrite lookup_insert_ne by exact Hn. exact H.
Qed.

(** Sequencing under an invariant that implies the postcondition of every
    raised exception. *)
Lemma hoare_bind_invariant {A B} (I : PhaseObj -> Prop) (m : Method A)
    (k : A -> Method B) (Q : result B -> PhaseObj -> Prop) :
  (forall e s, I s -> Q (Raise e) s) ->
  preserves I m -> (forall a, hoare I (k a) Q) ->
  hoare I (bind m k) Q.
Proof.
  intros HQ Hm Hk. apply hoare_bind with (P' := I); [| exact Hk].
  intros s Hs. specialize (Hm s Hs).
  destruct (m s) as [[a|e] s1]; simpl in *; [exact Hm | apply HQ, Hm].
Qed.

Lemma hoare_getattr_memoized name :
  hoare (memoized_list name) (getattr_list name) (returns_memoized name).
Proof.
  intros s [l Hl]. unfold getattr_list. rewrite Hl. cbn [fst snd].
  exists l. split; [exact Hl |]. intros v [= <-]. reflexivity.
Qed.

Lemma Psats_first_call (s : PhaseObj) (T : R) (cmps : list nat) :
  obj_T s = Some T -> obj_cmps s = Some cmps ->
  list_attrs s !! "_Psats" = None ->
  returns_memoized "_Psats" (GibbsExcessLiquid_Psats s).1
    (GibbsExcessLiquid_Psats s).2.
Proof.
  intros HT Hc Hmiss.
  set (I := memoized_list "_Psats").
  assert (HF : forall s name v,
             I s -> I (with_attrs (<[name := v]> (float_attrs s))
                         (list_attrs s) s))
    by (intros; apply memoized_list_float; assumption).
  assert (HL : forall s name v, name <> KEY ->
             I s -> I (with_attrs (float_attrs s)
                         (<[name := v]> (list_attrs s)) s))
    by (intros; apply memoized_list_list; assumption).
  assert (HQ : forall (e : exn) s0,
             I s0 -> returns_memoized "_Psats" (Raise e) s0).
  { intros e s0 [l Hl]. exists l. split; [exact Hl |].
    intros v Hv. discriminate Hv. }
  unfold GibbsExcessLiquid_Psats.
  rewrite (try_eval_caught _ _ _ s AttributeError s)
    by (unfold getattr_list; rewrite ?Hmiss; reflexivity).
  rewrite (bind_eval_Ok _ _ s T s) by (apply attr_eval, HT).
  rewrite (bind_eval_Ok _ _ s cmps s) by (apply attr_eval, Hc).
  rewrite (bind_eval_Ok _ _ s tt
             (with_attrs (float_attrs s) (<["_Psats" := []]> (list_attrs s)) s))
    by reflexivity.
  lazymatch goal with
  | |- returns_memoized _ (fst (?m ?s0)) _ =>
      cut (hoare I m (returns_memoized "_Psats"));
      [ intros Hh; apply (Hh s0);
        eexists; cbn [list_attrs with_attrs]; apply lookup_insert_eq |]
  end.
  repeat lazymatch goal with
  | |- hoare _ (getattr_list _) _ => apply hoare_getattr_memoized
  | |- hoare _ (if ?b then _ else _) _ => destruct b
  | |- hoare _ (bind _ _) _ =>
      apply hoare_bind_invariant;
      [ exact HQ
      | solve [ repeat first
                  [ apply preserves_append_attr; [exact HL | discriminate]
                  | apply preserves_setitem_attr; [exact HL | discriminate]
                  | progress cbv zeta
                  | progress frames HF HL ] ]
      | intros ?; cbv beta ]
  end.
Qed.

(** After a call of [Psats()] on an object with [T] and [cmps] set, the
    list [_Psats] is memoized whether the call returned or raised: the next
    call raises nothing, leaves the object as it is and returns that list,
    which is the list of the first call when that call returned. *)
Theorem Psats_memoized_after_any_call (self : PhaseObj) (T : R)
    (cmps : list nat) :
  obj_T self = Some T -> obj_cmps self = Some cmps ->
  exists l,
    GibbsExcessLiquid_Psats (GibbsExcessLiquid_Psats self).2
    = (Ok l, (GibbsExcessLiquid_Psats self).2) /\
    forall v, (GibbsExcessLiquid_Psats self).1 = Ok v -> v = l.
Proof.
  intros HT Hc.
  assert (Hcached : forall s l, list_attrs s !! "_Psats" = Some l ->
                      GibbsExcessLiquid_Psats s = (Ok l, s)).
  { intros s l Hl. unfold GibbsExcessLiquid_Psats.
    apply try_eval_Ok. unfold getattr_list. rewrite Hl. reflexivity. }
  destruct (list_attrs self !! "_Psats") as [l0|] eqn:Hmiss.
  - rewrite (Hcached self l0 Hmiss). cbn [fst snd]. exists l0.
    split; [apply Hcached, Hmiss |]. intros v [= <-]. reflexivity.
  - destruct (Psats_first_call self T cmps HT Hc Hmiss) as (l & Hl & Hv).
    exists l. split; [apply Hcached, Hl | exact Hv].
Qed.

(** ** Departure closure of [EOSGas] *)

Lemma only_lists_changed_refl s : only_lists_changed s s.
Proof. exists (list_attrs s). symmetry. apply with_attrs_id. Qed.

Lemma only_lists_changed_list s0 s name v :
  name <> KEY ->
  only_lists_changed s0 s ->
  only_lists_changed s0
    (with_attrs (float_attrs s) (<[name := v]> (list_attrs s)) s).
Proof. intros _ [la ->]. eexists. reflexivity. Qed.

Lemma hoare_memo_list (I : PhaseObj -> Prop) name (body : Method (list R))
    (Q : result (list R) -> PhaseObj -> Prop) :
  (forall s v, I s -> list_attrs s !! name = Some v -> Q (Ok v) s) ->
  hoare I body Q ->
  hoare I (try_except (getattr_list name) is_AttributeError body) Q.
Proof.
  intros Hc Hb s Hs. unfold try_except, getattr_list.
  destruct (list_attrs s !! name) as [v|] eqn:E; simpl.
  - apply (Hc s v Hs E).
  - apply Hb, Hs.
Qed.

Lemma memo_list_cached name (body : Method (list R)) s v :
  list_attrs s !! name = Some v ->
  try_except (getattr_list name) is_AttributeError body s = (Ok v, s).
Proof.
  intros E. unfold try_except, getattr_list. rewrite E. reflexivity.
Qed.

Lemma getattr_list_returns name :
  hoare (fun _ => True) (getattr_list name)
    (fun r s' => forall v, r = Ok v -> list_attrs s' !! name = Some v).
Proof.
  intros s _. unfold getattr_list.
  destruct (list_attrs s !! name) as [l|] eqn:E; cbn [fst snd].
  - intros v [= <-]. exact E.
  - intros v Hv. discriminate Hv.
Qed.

(** The steps of a proof that a memoizing list accessor ending in
    [getattr_list] returns what it memoizes. *)
Ltac memoizes_list HF HA :=
  repeat lazymatch goal with
  | |- hoare _ (getattr_list _) _ => apply getattr_list_returns
  | |- hoare _ (if ?b then _ else _) _ => destruct b
  | |- hoare _ (bind _ _) _ =>
      apply hoare_bind_returning;
      [ intros e s v Hv; discriminate Hv
      | solve [ first [ apply preserves_Cp_integrals_pure_fast
                      | apply preserves_Cp_integrals_over_T_pure_fast
                      | frames HF
                          (fun s name v (_ : name <> KEY) => HA s name v) ] ]
      | intros ?; cbv beta ]
  end.

Lemma Cpig_integrals_pure_memoizes :
  hoare (fun _ => True) Phase_Cpig_integrals_pure
    (fun r s' => forall v, r = Ok v ->
                 list_attrs s' !! "_Cpig_integrals_pure" = Some v).
Proof.
  set (I := fun _ : PhaseObj => True).
  assert (HF : forall s name v,
             I s -> I (with_attrs (<[name := v]> (float_attrs s))
                         (list_attrs s) s)) by (intros; exact Logic.I).
  assert (HA : forall s name v,
             I s -> I (with_attrs (float_attrs s)
                         (<[name := v]> (list_attrs s)) s))
    by (intros; exact Logic.I).
  unfold Phase_Cpig_integrals_pure.
  apply hoare_memo_list; [intros s v _ E w [= <-]; exact E |].
  memoizes_list HF HA.
Qed.

Lemma Cpig_integrals_over_T_pure_memoizes :
  hoare (fun _ => True) Phase_Cpig_integrals_over_T_pure
    (fun r s' => forall v, r = Ok v ->
                 list_attrs s' !! "_Cpig_integrals_over_T_pure" = Some v).
Proof.
  set (I := fun _ : PhaseObj => True).
  assert (HF : forall s name v,
             I s -> I (with_attrs (<[name := v]> (float_attrs s))
                         (list_attrs s) s)) by (intros; exact Logic.I).
  assert (HA : forall s name v,
             I s -> I (with_attrs (float_attrs s)
                         (<[name := v]> (list_attrs s)) s))
    by (intros; exact Logic.I).
  unfold Phase_Cpig_integrals_over_T_pure.
  apply hoare_memo_list; [intros s v _ E w [= <-]; exact E |].
  memoizes_list HF HA.
Qed.

(** What a call of [Cpig_integrals_pure] that returns leaves behind. *)
Lemma Cpig_integrals_pure_steps s v s' :
  Phase_Cpig_integrals_pure s = (Ok v, s') ->
  exists la, s' = with_attrs (float_attrs s) la s /\
             la !! "_Cpig_integrals_pure" = Some v.
Proof.
  intros E.
  pose proof (Cpig_integrals_pure_memoizes s Logic.I) as Hm.
  pose proof (preserves_Cpig_integrals_pure (only_lists_changed s)
                (only_lists_changed_list s) s (only_lists_changed_refl s))
    as [la Hs].
  rewrite E in Hm, Hs. cbn [fst snd] in Hm, Hs. subst s'.
  exists la. split; [reflexivity | apply (Hm v eq_refl)].
Qed.

Lemma Cpig_integrals_over_T_pure_steps s v s' :
  Phase_Cpig_integrals_over_T_pure s = (Ok v, s') ->
  exists la, s' = with_attrs (float_attrs s) la s /\
             la !! "_Cpig_integrals_over_T_pure" = Some v.
Proof.
  intros E.
  pose proof (Cpig_integrals_over_T_pure_memoizes s Logic.I) as Hm.
  pose proof (preserves_Cpig_integrals_over_T_pure (only_lists_changed s)
                (only_lists_changed_list s) s (only_lists_changed_refl s))
    as [la Hs].
  rewrite E in Hm, Hs. cbn [fst snd] in Hm, Hs. subst s'.
  exists la. split; [reflexivity | apply (Hm v eq_refl)].
Qed.

(** An accessor of the equation-of-state solution reads the solution
    alone. *)
Lemma EOS_accessor_Ok_inv {A} (first second : EosMix -> option EosRoot)
    (X : EosRoot -> A) s v s' :
  EOS_accessor first second X s = (Ok v, s') ->
  s' = s /\
  forall fa la,
    EOS_accessor first second X (with_attrs fa la s)
    = (Ok v, with_attrs fa la s).
Proof.
  intros E. destruct (eos_mix s) as [mix|] eqn:Hm.
  - rewrite (EOS_accessor_eval first second X s mix Hm) in E.
    injection E as Hv <-. split; [reflexivity |]. intros fa la.
    rewrite (EOS_accessor_eval first second X (with_attrs fa la s) mix Hm).
    rewrite Hv. reflexivity.
  - unfold EOS_accessor, try_except, eos_attr, bind, attr in E.
    rewrite Hm in E. cbn in E. rewrite Hm in E. discriminate E.
Qed.

Lemma attr_Ok_inv {A} (f : PhaseObj -> option A) s a s' :
  attr f s = (Ok a, s') -> f s = Some a /\ s' = s.
Proof.
  unfold attr. destruct (f s) as [a'|]; intros H; [| discriminate H].
  injection H as <- <-. split; reflexivity.
Qed.

Lemma fold_shift (l : list (R * R)) : forall a b,
  fold_left (fun H p => H + fst p * snd p) l (a + b)
  = a + fold_left (fun H p => H + fst p * snd p) l b.
Proof.
  induction l as [|p l IH]; intros a b; [reflexivity |].
  cbn [fold_left]. rewrite <- IH. f_equal. ring.
Qed.

(** The departure closure of the enthalpy of [EOSGas]: on a snapshot that
    has memoized neither [_H] nor [_H_ideal_gas], when [H()] returns [h],
    then [H_dep()] and [H_ideal_gas()] return [d] and [g] on the snapshot as
    that call left it; [h] is the accumulation of [zi*integral_i] over the
    components started from [d], and [g] the same accumulation started from
    [0.0].  Over the reals [h] is then the sum [d + g]. *)
Theorem EOSGas_H_departure_closure (self s1 : PhaseObj) (h : R) :
  float_attrs self !! "_H" = None ->
  float_attrs self !! "_H_ideal_gas" = None ->
  EOSGas_H self = (Ok h, s1) ->
  exists d g s2 zs ints,
    EOSGas_H_dep s1 = (Ok d, s1) /\
    Phase_H_ideal_gas s1 = (Ok g, s2) /\
    obj_zs s1 = Some zs /\
    list_attrs s1 !! "_Cpig_integrals_pure" = Some ints /\
    h = fold_left (fun H p => H + fst p * snd p) (zip zs ints) d /\
    g = fold_left (fun H p => H + fst p * snd p) (zip zs ints) 0.0 /\
    h = d + g.
Proof.
  intros HH Hig Hrun.
  unfold EOSGas_H in Hrun.
  rewrite memo_float_miss in Hrun by (reflexivity || exact HH).
  bind_inv Hrun.
  destruct (EOS_accessor_Ok_inv _ _ _ _ _ _ E) as [-> Hd].
  bind_inv Hrun. apply attr_Ok_inv in E0. destruct E0 as [Hzs ->].
  bind_inv Hrun.
  destruct (Cpig_integrals_pure_steps _ _ _ E0) as (la & -> & Hla).
  unfold bind, setattr_float, ret in Hrun. injection Hrun as <- <-.
  exists a.
  exists (fold_left (fun H p => H + fst p * snd p) (zip a0 a1) 0.0).
  eexists. exists a0, a1. split; [apply (Hd _ la) |].
  split; [| split; [exact Hzs |]; split; [exact Hla |];
            split; [reflexivity |]; split; [reflexivity |]].
  - unfold Phase_H_ideal_gas.
    rewrite memo_float_miss;
      [| reflexivity
       | cbn [float_attrs with_attrs];
         rewrite lookup_insert_ne by discriminate; exact Hig ].
    lazymatch goal with
    | |- bind _ _ ?s = _ =>
        rewrite (bind_eval_Ok _ _ s a0 s (attr_eval obj_zs s a0 Hzs));
        rewrite (bind_eval_Ok Phase_Cpig_integrals_pure _ s a1 s
                   (memo_list_cached "_Cpig_integrals_pure" _ s a1 Hla))
    end.
    reflexivity.
  - rewrite <- fold_shift. f_equal. lra.
Qed.

(** What a call of [log_zs] that returns leaves behind. *)
Lemma log_zs_steps s lz s' :
  Phase_log_zs s = (Ok lz, s') ->
  exists la, s' = with_attrs (float_attrs s) la s /\
             la !! "_log_zs" = Some lz /\
             forall k, k <> "_log_zs" -> la !! k = list_attrs s !! k.
Proof.
  intros E. destruct (list_attrs s !! "_log_zs") as [l|] eqn:Hc.
  - unfold Phase_log_zs in E.
    rewrite (memo_list_cached _ _ _ _ Hc) in E. injection E as <- <-.
    exists (list_attrs s). split; [symmetry; apply with_attrs_id |].
    split; [exact Hc | reflexivity].
  - destruct (obj_zs s) as [zs|] eqn:Hzs.
    + rewrite (log_zs_eval s zs Hzs Hc) in E. injection E as <- <-.
      eexists. split; [reflexivity |].
      split; [apply lookup_insert_eq |].
      intros k Hk. apply lookup_insert_ne. congruence.
    + unfold Phase_log_zs, try_except, getattr_list, bind, attr in E.
      rewrite Hc in E. cbn in E. rewrite Hzs in E. discriminate E.
Qed.

Lemma lift_Ok_inv {A} (r : result A) s a s' :
  lift r s = (Ok a, s') -> r = Ok a /\ s' = s.
Proof. unfold lift. intros [= -> <-]. split; reflexivity. Qed.

(** A loop whose body only computes leaves the receiver as it is, and does
    the same on every receiver. *)
Lemma for_each_lift_state {A B} (f : A -> B -> result B) (xs : list A) :
  forall acc s s',
    for_each xs (fun i S => lift (f i S)) acc s'
    = ((for_each xs (fun i S => lift (f i S)) acc s).1, s').
Proof.
  induction xs as [|x xs IH]; intros acc s s'; [reflexivity |].
  cbn [for_each]. unfold bind.
  change (lift (f x acc) s') with (f x acc, s').
  change (lift (f x acc) s) with (f x acc, s).
  destruct (f x acc) as [acc'|e]; [apply IH | reflexivity].
Qed.

Tactic Notation "bind_split" hyp(H) "as" ident(a) ident(s) ident(E) :=
  apply bind_Ok_inv in H; destruct H as (a & s & E & H);
  cbv beta zeta in H.

(** One step of a call whose next method returns [a] and leaves the
    receiver as it is, which [tac] proves. *)
Tactic Notation "bind_by" constr(a) tactic3(tac) :=
  lazymatch goal with
  | |- bind ?m ?k ?s = _ => rewrite (bind_eval_Ok m k s a s) by tac
  end;
  cbv beta zeta.

(** The departure closure of the entropy of [EOSGas]: on a snapshot that
    has memoized neither [_S] nor [_S_ideal_gas], when [S()] returns [v],
    then [S_dep()] and [S_ideal_gas()] return on the snapshot as that call
    left it, and [v] is the sum of their values. *)
Theorem EOSGas_S_departure_closure (self s1 : PhaseObj) (v : R) :
  float_attrs self !! "_S" = None ->
  float_attrs self !! "_S_ideal_gas" = None ->
  EOSGas_S self = (Ok v, s1) ->
  exists d g s2,
    EOSGas_S_dep s1 = (Ok d, s1) /\
    Phase_S_ideal_gas s1 = (Ok g, s2) /\
    v = g + d.
Proof.
  intros HS Hig Hrun.
  unfold EOSGas_S in Hrun.
  rewrite memo_float_miss in Hrun by (reflexivity || exact HS).
  bind_split Hrun as ci sa Eci.
  destruct (Cpig_integrals_over_T_pure_steps _ _ _ Eci) as (la & -> & Hla).
  bind_split Hrun as lz sb Elz.
  destruct (log_zs_steps _ _ _ Elz) as (lb & -> & Hlb & Hother).
  bind_split Hrun as T sT ET. apply attr_Ok_inv in ET. destruct ET as [HT ->].
  bind_split Hrun as P sP EP. apply attr_Ok_inv in EP. destruct EP as [HP ->].
  bind_split Hrun as zs sz Ez. apply attr_Ok_inv in Ez. destruct Ez as [Hzs ->].
  bind_split Hrun as cmps sc Ec. apply attr_Ok_inv in Ec.
  destruct Ec as [Hcmps ->].
  bind_split Hrun as terms st Et. rewrite comprehension_lift in Et.
  injection Et as Hterms <-.
  bind_split Hrun as lg sl El. apply lift_Ok_inv in El. destruct El as [Hlg ->].
  bind_split Hrun as S sS ES.
  bind_split Hrun as d sd Ed.
  lazymatch type of ES with
  | for_each ?xs (fun i S => lift (@?f i S)) ?acc ?s = _ =>
      pose proof (fun s' => for_each_lift_state f xs acc s s') as Hloop
  end.
  cbv beta in Hloop. rewrite ES in Hloop. cbn [fst] in Hloop.
  rewrite Hloop in ES. injection ES as <-.
  destruct (EOS_accessor_Ok_inv _ _ _ _ _ _ Ed) as [-> Hd].
  unfold bind, setattr_float, ret in Hrun. injection Hrun as <- <-.
  exists d, S. eexists. split; [apply Hd |]. split; [| reflexivity].
  unfold Phase_S_ideal_gas.
  rewrite memo_float_miss;
    [| reflexivity
     | cbn [float_attrs with_attrs];
       rewrite lookup_insert_ne by discriminate; exact Hig ].
  assert (Hci : lb !! "_Cpig_integrals_over_T_pure" = Some ci).
  { rewrite Hother by discriminate. exact Hla. }
  bind_by ci (apply memo_list_cached; exact Hci).
  bind_by lz (apply memo_list_cached; exact Hlb).
  bind_by T (apply attr_eval; exact HT).
  bind_by P (apply attr_eval; exact HP).
  bind_by zs (apply attr_eval; exact Hzs).
  bind_by cmps (apply attr_eval; exact Hcmps).
  bind_by terms (rewrite comprehension_lift, Hterms; reflexivity).
  bind_by lg (unfold lift; rewrite Hlg; reflexivity).
  bind_by S (apply Hloop).
  reflexivity.
Qed.

(** ** Gibbs and Helmholtz energies of [EOSGas] *)

(** When one accessor of the equation-of-state solution returns, every
    accessor does, on every snapshot with the same solution. *)
Lemma EOS_accessor_all {A B} (first second : EosMix -> option EosRoot)
    (X : EosRoot -> A) (Y : EosRoot -> B) s x s' :
  EOS_accessor first second X s = (Ok x, s') ->
  exists y, forall fa la,
    EOS_accessor first second Y (with_attrs fa la s)
    = (Ok y, with_attrs fa la s).
Proof.
  intros E. destruct (eos_mix s) as [mix|] eqn:Hm.
  - rewrite (EOS_accessor_eval first second X s mix Hm) in E.
    destruct (first mix) as [r|] eqn:Hf; [| destruct (second mix) as [r|] eqn:Hs].
    + exists (Y r). intros fa la.
      rewrite (EOS_accessor_eval first second Y (with_attrs fa la s) mix Hm).
      rewrite Hf. reflexivity.
    + exists (Y r). intros fa la.
      rewrite (EOS_accessor_eval first second Y (with_attrs fa la s) mix Hm).
      rewrite Hf, Hs. reflexivity.
    + discriminate E.
  - unfold EOS_accessor, try_except, eos_attr, bind, attr in E.
    rewrite Hm in E. cbn in E. rewrite Hm in E. discriminate E.
Qed.

(** What a first call of [EOSGas.H] that returns leaves behind. *)
Lemma EOSGas_H_steps self h s1 :
  float_attrs self !! "_H" = None ->
  EOSGas_H self = (Ok h, s1) ->
  (exists la, s1 = with_attrs (<["_H" := h]> (float_attrs self)) la self) /\
  (exists V, forall fa la,
     EOSGas_V (with_attrs fa la self) = (Ok V, with_attrs fa la self)).
Proof.
  intros HH Hrun. unfold EOSGas_H in Hrun.
  rewrite memo_float_miss in Hrun by (reflexivity || exact HH).
  bind_split Hrun as d sd Ed.
  pose proof (EOS_accessor_all _ _ _ root_V _ _ _ Ed) as HV.
  destruct (EOS_accessor_Ok_inv _ _ _ _ _ _ Ed) as [-> _].
  bind_split Hrun as zs sz Ez. apply attr_Ok_inv in Ez. destruct Ez as [_ ->].
  bind_split Hrun as ints si Ei.
  destruct (Cpig_integrals_pure_steps _ _ _ Ei) as (la & -> & _).
  unfold bind, setattr_float, ret in Hrun. injection Hrun as <- <-.
  split; [exists la; reflexivity | exact HV].
Qed.

(** What a first call of [EOSGas.S] that returns leaves behind. *)
Lemma EOSGas_S_steps self v s1 :
  float_attrs self !! "_S" = None ->
  EOSGas_S self = (Ok v, s1) ->
  (exists la, s1 = with_attrs (<["_S" := v]> (float_attrs self)) la self) /\
  (exists P, obj_P self = Some P).
Proof.
  intros HS Hrun. unfold EOSGas_S in Hrun.
  rewrite memo_float_miss in Hrun by (reflexivity || exact HS).
  bind_split Hrun as ci sa Eci.
  destruct (Cpig_integrals_over_T_pure_steps _ _ _ Eci) as (la & -> & _).
  bind_split Hrun as lz sb Elz.
  destruct (log_zs_steps _ _ _ Elz) as (lb & -> & _ & _).
  bind_split Hrun as T sT ET. apply attr_Ok_inv in ET. destruct ET as [_ ->].
  bind_split Hrun as P sP EP. apply attr_Ok_inv in EP. destruct EP as [HP ->].
  bind_split Hrun as zs sz Ez. apply attr_Ok_inv in Ez. destruct Ez as [_ ->].
  bind_split Hrun as cmps sc Ec. apply attr_Ok_inv in Ec.
  destruct Ec as [_ ->].
  bind_split Hrun as terms st Et. rewrite comprehension_lift in Et.
  injection Et as _ <-.
  bind_split Hrun as lg sl El. apply lift_Ok_inv in El. destruct El as [_ ->].
  bind_split Hrun as S sS ES.
  bind_split Hrun as d sd Ed.
  lazymatch type of ES with
  | for_each ?xs (fun i S => lift (@?f i S)) ?acc ?s = _ =>
      pose proof (for_each_lift_state f xs acc s s) as Hloop
  end.
  cbv beta in Hloop. rewrite ES in Hloop. injection Hloop as ->.
  destruct (EOS_accessor_Ok_inv _ _ _ _ _ _ Ed) as [-> _].
  unfold bind, setattr_float, ret in Hrun. injection Hrun as <- <-.
  split; [exists lb; reflexivity | exists P; exact HP].
Qed.

(** The Gibbs and the Helmholtz energy of [EOSGas]: on a snapshot that has
    memoized neither [_H] nor [_S], when [G()] returns [g], then [V()] and
    [A()] return on the snapshot as that call left it and change nothing;
    with [h] and [v] the enthalpy and the entropy that the call memoized,
    [g] is [h - T*v] and [A()] is [h - P*V - T*v], as [Phase.G], [Phase.U]
    and [Phase.A] evaluate them.  Over the reals the two differ by [P*V]:
    [g - A() = P*V()]. *)
Theorem EOSGas_G_minus_A (self s1 : PhaseObj) (g : R) :
  float_attrs self !! "_H" = None ->
  float_attrs self !! "_S" = None ->
  EOSGas_G self = (Ok g, s1) ->
  exists a T P V h v,
    obj_T s1 = Some T /\
    obj_P s1 = Some P /\
    float_attrs s1 !! "_H" = Some h /\
    float_attrs s1 !! "_S" = Some v /\
    EOSGas_V s1 = (Ok V, s1) /\
    EOSGas_A s1 = (Ok a, s1) /\
    g = h - T * v /\
    a = h - P * V - T * v /\
    g - a = P * V.
Proof.
  intros HH HS Hrun. unfold EOSGas_G, Phase_G in Hrun.
  bind_split Hrun as h sa Eh.
  destruct (EOSGas_H_steps _ _ _ HH Eh) as [[la ->] [V HV]].
  bind_split Hrun as T sT ET. apply attr_Ok_inv in ET. destruct ET as [HT ->].
  bind_split Hrun as v sb Ev.
  assert (HS' : float_attrs
                  (with_attrs (<["_H" := h]> (float_attrs self)) la self)
                !! "_S" = None).
  { cbn [float_attrs with_attrs].
    rewrite lookup_insert_ne by discriminate. exact HS. }
  destruct (EOSGas_S_steps _ _ _ HS' Ev) as [[lb ->] [P HP]].
  unfold ret in Hrun. injection Hrun as <- <-.
  exists (h - P * V - T * v), T, P, V, h, v.
  split; [exact HT |]. split; [exact HP |].
  split; [cbn [float_attrs with_attrs];
          rewrite lookup_insert_ne by discriminate; apply lookup_insert_eq |].
  split; [cbn [float_attrs with_attrs]; apply lookup_insert_eq |].
  split; [apply (HV _ lb) |].
  split; [| split; [reflexivity |]; split; [reflexivity | lra]].
  assert (Hh : forall s, float_attrs s !! "_H" = Some h ->
                 EOSGas_H s = (Ok h, s))
    by (intros s E; apply memo_float_cached, E).
  assert (Hv : forall s, float_attrs s !! "_S" = Some v ->
                 EOSGas_S s = (Ok v, s))
    by (intros s E; apply memo_float_cached, E).
  unfold EOSGas_A, Phase_A.
  bind_by (h - P * V)
    (unfold Phase_U;
     bind_by h (apply Hh; cbn [float_attrs with_attrs];
                rewrite lookup_insert_ne by discriminate;
                apply lookup_insert_eq);
     bind_by P (apply attr_eval; exact HP);
     bind_by V (apply (HV _ lb));
     reflexivity).
  bind_by T (apply attr_eval; exact HT).
  bind_by v (apply Hv; cbn [float_attrs with_attrs]; apply lookup_insert_eq).
  reflexivity.
Qed.

(** ** Fugacities of [GibbsExcessLiquid] *)

Lemma memo_list_miss name (catches : exn -> bool) (body : Method (list R)) s :
  catches AttributeError = true ->
  list_attrs s !! name = None ->
  try_except (getattr_list name) catches body s = body s.
Proof.
  intros Hc E. unfold try_except, getattr_list. rewrite E, Hc. reflexivity.
Qed.

Lemma only_list_set_append name s0 v :
  preserves (only_list_set name s0) (append_attr name v).
Proof.
  intros s [l ->]. unfold append_attr, bind, getattr_list, setattr_list.
  cbn [list_attrs with_attrs float_attrs]. rewrite lookup_insert_eq.
  cbn [fst snd list_attrs with_attrs float_attrs].
  exists (l ++ [v])%list. rewrite insert_insert_eq. reflexivity.
Qed.

Lemma only_list_set_setitem name s0 i v :
  preserves (only_list_set name s0) (setitem_attr name i v).
Proof.
  intros s [l ->].
  unfold setitem_attr, bind, getattr_list, setattr_list, lift.
  cbn [list_attrs with_attrs float_attrs]. rewrite lookup_insert_eq.
  destruct (setitem l i v) as [l'|e]; cbn [fst snd].
  - exists l'. cbn [list_attrs with_attrs float_attrs].
    rewrite insert_insert_eq. reflexivity.
  - exists l. reflexivity.
Qed.

(** The steps of a proof that a method writes the memoized list [name]
    alone, by appending to it and assigning its items. *)
Ltac footprint_steps :=
  repeat lazymatch goal with
  | |- preserves _ (bind _ _) => apply preserves_bind; [| intros ?]
  | |- preserves _ (try_except _ _ _) => apply preserves_try_except
  | |- preserves _ (for_each _ _ _) => apply preserves_for_each; intros ? ?
  | |- preserves _ (comprehension _ _) =>
      apply preserves_comprehension; intros ?
  | |- preserves _ (ret _) => apply preserves_ret
  | |- preserves _ (raise _) => apply preserves_raise
  | |- preserves _ (lift _) => apply preserves_lift
  | |- preserves _ (attr _) => apply preserves_attr
  | |- preserves _ (field _) => apply preserves_field
  | |- preserves _ (not_None _) => apply preserves_not_None
  | |- preserves _ (getattr_list _) => apply preserves_getattr_list
  | |- preserves _ (append_attr _ _) => apply only_list_set_append
  | |- preserves _ (setitem_attr _ _ _) => apply only_list_set_setitem
  | |- preserves _ (if ?b then _ else _) => destruct b
  | |- preserves _ (let _ := _ in _) => cbv zeta
  end.

(** A first call of [Psats()] that returns has set [_Psats] to the list it
    returns, and nothing else. *)
Lemma Psats_footprint s ps sp :
  list_attrs s !! "_Psats" = None ->
  GibbsExcessLiquid_Psats s = (Ok ps, sp) ->
  sp = with_attrs (float_attrs s) (<["_Psats" := ps]> (list_attrs s)) s.
Proof.
  intros Hmiss Hrun. unfold GibbsExcessLiquid_Psats in Hrun.
  rewrite memo_list_miss in Hrun by (reflexivity || exact Hmiss).
  bind_split Hrun as T sT ET. apply attr_Ok_inv in ET. destruct ET as [_ ->].
  bind_split Hrun as cmps sc Ec. apply attr_Ok_inv in Ec.
  destruct Ec as [_ ->].
  bind_split Hrun as u su Eu. unfold setattr_list in Eu.
  injection Eu as _ <-.
  set (I := only_list_set "_Psats" s).
  set (Q := fun (r : result (list R)) (s' : PhaseObj) =>
              forall v, r = Ok v ->
                s' = with_attrs (float_attrs s)
                       (<["_Psats" := v]> (list_attrs s)) s).
  assert (HQ : forall (e : exn) s', Q (Raise e) s')
    by (intros e s' v Hv; discriminate Hv).
  lazymatch type of Hrun with
  | ?m ?s0 = _ =>
      assert (Hh : hoare I m Q);
      [| pose proof (Hh s0) as Hpost ]
  end.
  { repeat lazymatch goal with
    | |- hoare _ (getattr_list _) _ =>
        intros s' [l ->]; unfold getattr_list;
        cbn [list_attrs with_attrs]; rewrite lookup_insert_eq;
        intros v [= <-]; reflexivity
    | |- hoare _ (if ?b then _ else _) _ => destruct b
    | |- hoare _ (bind _ _) _ =>
        apply hoare_bind_returning;
        [ exact HQ | solve [footprint_steps] | intros ?; cbv beta ]
    end. }
  rewrite Hrun in Hpost. apply Hpost; [| reflexivity].
  exists []. reflexivity.
Qed.

Tactic Notation "bind_to" constr(a) constr(s') tactic3(tac) :=
  lazymatch goal with
  | |- bind ?m ?k ?s = _ => rewrite (bind_eval_Ok m k s a s') by tac
  end;
  cbv beta zeta.

(** Without the saturation fugacity coefficients, [phis_sat()] is 1 for
    every component. *)
Lemma phis_sat_default s N :
  use_phis_sat s = false -> obj_N s = Some N ->
  list_attrs s !! "_phis_sat" = None ->
  GibbsExcessLiquid_phis_sat s
  = (Ok (replicate N 1.0),
     with_attrs (float_attrs s)
       (<["_phis_sat" := replicate N 1.0]> (list_attrs s)) s).
Proof.
  intros Hu HN Hmiss. unfold GibbsExcessLiquid_phis_sat.
  rewrite memo_list_miss by (reflexivity || exact Hmiss).
  unfold bind, field, attr, setattr_list, getattr_list.
  rewrite Hu. cbn [negb]. rewrite HN. cbn [list_attrs with_attrs].
  rewrite lookup_insert_eq. reflexivity.
Qed.

(** Without the Poynting correction, [Poyntings()] is 1 for every
    component. *)
Lemma Poyntings_default s N :
  use_Poynting s = false -> obj_N s = Some N ->
  list_attrs s !! "_Poyntings" = None ->
  GibbsExcessLiquid_Poyntings s
  = (Ok (replicate N 1.0),
     with_attrs (float_attrs s)
       (<["_Poyntings" := replicate N 1.0]> (list_attrs s)) s).
Proof.
  intros Hu HN Hmiss. unfold GibbsExcessLiquid_Poyntings.
  rewrite memo_list_miss by (reflexivity || exact Hmiss).
  unfold bind, field, attr, setattr_list, getattr_list.
  rewrite Hu. cbn [negb]. rewrite HN. cbn [list_attrs with_attrs].
  rewrite lookup_insert_eq. reflexivity.
Qed.

(** The fugacity coefficient of component [i] without the two
    corrections. *)
Lemma phi_entry (gs ps : list R) (P : R) (N i : nat) g p :
  gs !! i = Some g -> ps !! i = Some p -> (i < N)%nat ->
  (g <~ getitem gs i ;;
   p <~ getitem ps i ;;
   po <~ getitem (replicate N 1.0) i ;;
   ps' <~ getitem (replicate N 1.0) i ;;
   Ok (g * p * po * ps' * (1.0 / P)))
  = Ok (g * p * 1.0 * 1.0 * (1.0 / P)).
Proof.
  intros Hg Hp Hi. unfold getitem. rewrite Hg, Hp.
  rewrite lookup_replicate_2 by exact Hi. reflexivity.
Qed.

Tactic Notation "bind_go" tactic3(tac) :=
  lazymatch goal with
  | |- bind ?m ?k ?s = _ => erewrite (bind_eval_Ok m k s) by tac
  end;
  cbv beta zeta.

Section Raoult.

Variables (self : PhaseObj) (P : R) (zs gs ps : list R).
Hypothesis no_Poynting : use_Poynting self = false.
Hypothesis no_phis_sat : use_phis_sat self = false.
Hypothesis HP : obj_P self = Some P.
Hypothesis P_pos : 0 < P.
Hypothesis Hzs : obj_zs self = Some zs.
Hypothesis HN : obj_N self = Some (length zs).
Hypothesis Hcmps : obj_cmps self = Some (range (length zs)).
Hypothesis fresh : list_attrs self = ∅.
Hypothesis Hgs : GibbsExcess_gammas (GibbsExcessModel self) = Ok gs.
Hypothesis gs_length : length gs = length zs.
Hypothesis gs_pos : Forall (fun g => 0 < g) gs.
Hypothesis Hps : exists sp, GibbsExcessLiquid_Psats self = (Ok ps, sp).
Hypothesis ps_length : length ps = length zs.
Hypothesis ps_pos : Forall (fun p => 0 < p) ps.

Ltac absent :=
  cbn [list_attrs with_attrs float_attrs];
  rewrite ?lookup_insert_ne by discriminate;
  rewrite fresh; apply lookup_empty.

Lemma uncorrected_phis :
  exists st,
    GibbsExcessLiquid_phis self
    = (Ok (map (uncorrected_phi gs ps P) (range (length zs))), st).
Proof.
  destruct Hps as [sp Hsp].
  assert (Hmiss : list_attrs self !! "_Psats" = None) by absent.
  pose proof (Psats_footprint self ps sp Hmiss Hsp) as ->.
  eexists. unfold GibbsExcessLiquid_phis.
  rewrite memo_list_miss by (reflexivity || absent).
  bind_go (apply attr_eval; exact HP).
  bind_go (rewrite memo_list_miss by (reflexivity || absent);
           unfold GibbsExcessLiquid_gammas, bind, field, lift;
           rewrite Hgs; reflexivity).
  bind_go (rewrite memo_list_miss by (reflexivity || absent); exact Hsp).
  bind_go (rewrite memo_list_miss by (reflexivity || absent);
           apply (phis_sat_default _ (length zs));
           [exact no_phis_sat | exact HN | absent]).
  bind_go (rewrite memo_list_miss by (reflexivity || absent);
           apply (Poyntings_default _ (length zs));
           [exact no_Poynting | exact HN | absent]).
  bind_go (unfold lift, div;
           destruct (Req_dec_T P 0); [exfalso; lra | reflexivity]).
  bind_go (apply attr_eval; exact Hcmps).
  bind_go (rewrite comprehension_lift;
           rewrite (rmap_map _ (uncorrected_phi gs ps P)); [reflexivity |];
           intros i Hi; unfold range in Hi; apply elem_of_seq in Hi;
           destruct (lookup_lt_is_Some_2 gs i) as [g Hg]; [lia |];
           destruct (lookup_lt_is_Some_2 ps i) as [p Hp]; [lia |];
           rewrite (phi_entry gs ps P (length zs) i g p Hg Hp) by lia;
           unfold uncorrected_phi; rewrite Hg, Hp; reflexivity).
  unfold bind, setattr_list, getattr_list.
  cbn [list_attrs with_attrs]. rewrite lookup_insert_eq. reflexivity.
Qed.

Lemma uncorrected_phi_pos (i : nat) :
  (i < length zs)%nat -> 0 < uncorrected_phi gs ps P i.
Proof.
  intros Hi. unfold uncorrected_phi.
  destruct (lookup_lt_is_Some_2 gs i) as [g Hg]; [lia |].
  destruct (lookup_lt_is_Some_2 ps i) as [p Hp]; [lia |].
  rewrite Hg, Hp. cbn [default]. unfold Datatypes.id.
  pose proof (proj1 (Forall_lookup _ gs) gs_pos i g Hg) as Hg0.
  pose proof (proj1 (Forall_lookup _ ps) ps_pos i p Hp) as Hp0.
  cbv beta in Hg0, Hp0.
  assert (H10 : 1.0 = 1) by lra. rewrite H10.
  assert (0 < 1 / P) by (apply Rdiv_lt_0_compat; lra).
  assert (0 < g * p) by (apply Rmult_lt_0_compat; assumption).
  replace (g * p * 1 * 1 * (1 / P)) with (g * p * (1 / P)) by ring.
  apply Rmult_lt_0_compat; assumption.
Qed.

Lemma uncorrected_lnphis :
  exists s1,
    GibbsExcessLiquid_lnphis self
    = (Ok (map (fun i => ln (uncorrected_phi gs ps P i))
             (range (length zs))), s1).
Proof.
  destruct uncorrected_phis as [st Hst].
  eexists. unfold GibbsExcessLiquid_lnphis.
  rewrite memo_list_miss by (reflexivity || absent).
  bind_go (exact Hst).
  bind_go (rewrite comprehension_lift;
           rewrite (rmap_map _ ln);
           [ rewrite List.map_map; reflexivity |];
           intros x Hx; apply list_elem_of_fmap in Hx;
           destruct Hx as (i & -> & Hi);
           unfold range in Hi; apply elem_of_seq in Hi;
           apply log_pos, uncorrected_phi_pos; lia).
  unfold bind, setattr_list, getattr_list.
  cbn [list_attrs with_attrs]. rewrite lookup_insert_eq. reflexivity.
Qed.

Lemma uncorrected_fugacities :
  exists s1,
    GibbsExcessLiquid_fugacities self
    = (Ok (map (fun i => P * default 0 (zs !! i)
                         * exp (ln (uncorrected_phi gs ps P i)))
             (range (length zs))), s1).
Proof.
  destruct uncorrected_lnphis as [s1 H1]. exists s1.
  unfold GibbsExcessLiquid_fugacities, Phase_fugacities.
  bind_go (apply attr_eval; exact HP).
  bind_go (apply attr_eval; exact Hzs).
  bind_go (exact H1).
  rewrite comprehension_lift. f_equal.
  apply rmap_map. intros i Hi. unfold range in Hi. apply elem_of_seq in Hi.
  destruct (lookup_lt_is_Some_2 zs i) as [z Hz]; [lia |].
  unfold getitem. rewrite Hz. cbn [rbind].
  rewrite list_lookup_fmap. unfold range.
  rewrite lookup_seq_lt by lia. reflexivity.
Qed.

End Raoult.

(** The modified Raoult's law: on a fresh [GibbsExcessLiquid] snapshot
    without the Poynting and the saturation-fugacity corrections, at a
    positive pressure, with positive activity coefficients and saturation
    pressures for every component, when [fugacities()] returns, its list has
    one entry per component and the entry of component [i] is
    [P*zs[i]*exp(log(phi_i))] with the fugacity coefficient
    [phi_i = gammas[i]*Psats[i]*1.0*1.0*(1.0/P)], as [fugacities], [lnphis]
    and [phis] evaluate it.  Over the reals that entry is
    [zs[i]*gammas[i]*Psats[i]], whatever the pressure. *)
Theorem GibbsExcessLiquid_modified_Raoult (self : PhaseObj) (P : R)
    (zs gs ps : list R) :
  use_Poynting self = false ->
  use_phis_sat self = false ->
  obj_P self = Some P -> 0 < P ->
  obj_zs self = Some zs ->
  obj_N self = Some (length zs) ->
  obj_cmps self = Some (range (length zs)) ->
  list_attrs self = ∅ ->
  GibbsExcess_gammas (GibbsExcessModel self) = Ok gs ->
  length gs = length zs -> Forall (fun g => 0 < g) gs ->
  (exists sp, GibbsExcessLiquid_Psats self = (Ok ps, sp)) ->
  length ps = length zs -> Forall (fun p => 0 < p) ps ->
  forall fs s1,
    GibbsExcessLiquid_fugacities self = (Ok fs, s1) ->
    length fs = length zs /\
    (forall i z g p,
       zs !! i = Some z -> gs !! i = Some g -> ps !! i = Some p ->
       fs !! i = Some (P * z * exp (ln (g * p * 1.0 * 1.0 * (1.0 / P))))) /\
    (forall i z g p,
       zs !! i = Some z -> gs !! i = Some g -> ps !! i = Some p ->
       fs !! i = Some (z * g * p)).
Proof.
  intros no_Poynting no_phis_sat HP P_pos Hzs HN Hcmps fresh Hgs gs_length
    gs_pos Hps ps_length ps_pos fs s1' Hrun.
  destruct (uncorrected_fugacities self P zs gs ps) as [s1 Hfs];
    try assumption.
  rewrite Hfs in Hrun. injection Hrun as <- _.
  assert (Hentry : forall i z g p,
            zs !! i = Some z -> gs !! i = Some g -> ps !! i = Some p ->
            map (fun i => P * default 0 (zs !! i)
                          * exp (ln (uncorrected_phi gs ps P i)))
              (range (length zs)) !! i
            = Some (P * z * exp (ln (g * p * 1.0 * 1.0 * (1.0 / P)))));
    [| split; [| split; [exact Hentry |]] ].
  - intros i z g p Hz Hg Hp.
    pose proof (lookup_lt_Some _ _ _ Hz) as Hi.
    rewrite list_lookup_fmap. unfold range.
    rewrite lookup_seq_lt by exact Hi.
    cbn [fmap option_fmap option_map Nat.add]. rewrite Hz.
    unfold uncorrected_phi. rewrite Hg, Hp. reflexivity.
  - rewrite length_map. unfold range. apply length_seq.
  - intros i z g p Hz Hg Hp. rewrite (Hentry i z g p Hz Hg Hp).
    pose proof (lookup_lt_Some _ _ _ Hz) as Hi.
    pose proof (uncorrected_phi_pos P zs gs ps P_pos gs_length gs_pos
                  ps_length ps_pos i Hi) as Hphi.
    unfold uncorrected_phi in Hphi. rewrite Hg, Hp in Hphi.
    cbn [default] in Hphi. unfold Datatypes.id in Hphi.
    rewrite exp_ln by exact Hphi.
    apply (f_equal Some).
    assert (H10 : 1.0 = 1) by lra. rewrite H10. field. lra.
Qed.

(** ** The pressure derivatives of [GibbsExcessLiquid] *)

Lemma no_pressure_derivative_list s name v :
  name <> KEY ->
  no_pressure_derivative s ->
  no_pressure_derivative
    (with_attrs (float_attrs s) (<[name := v]> (list_attrs s)) s).
Proof. intros _ H. exact H. Qed.

Lemma no_pressure_derivative_setattr name v :
  name <> "_dP_dV" -> name <> "_dP_dT" ->
  preserves no_pressure_derivative (setattr_float name v).
Proof.
  intros H1 H2 s [Ha Hb]. unfold setattr_float, no_pressure_derivative.
  cbn [snd float_attrs with_attrs].
  rewrite !lookup_insert_ne by congruence. split; assumption.
Qed.

Lemma preserves_dV_dT :
  preserves no_pressure_derivative GibbsExcessLiquid_dV_dT.
Proof.
  unfold GibbsExcessLiquid_dV_dT.
  repeat lazymatch goal with
  | |- preserves _ (bind _ _) => apply preserves_bind; [| intros ?]
  | |- preserves _ (try_except _ _ _) => apply preserves_try_except
  | |- preserves _ (for_each _ _ _) => apply preserves_for_each; intros ? ?
  | |- preserves _ (ret _) => apply preserves_ret
  | |- preserves _ (lift _) => apply preserves_lift
  | |- preserves _ (attr _) => apply preserves_attr
  | |- preserves _ (getattr_float _) => apply preserves_getattr_float
  | |- preserves _ GibbsExcessLiquid_dVms_sat_dT =>
      apply preserves_dVms_sat_dT; exact no_pressure_derivative_list
  | |- preserves _ (setattr_float _ _) =>
      apply no_pressure_derivative_setattr; discriminate
  | |- preserves _ (let _ := _ in _) => cbv zeta
  end.
Qed.

Lemma dP_dV_raises s :
  float_attrs s !! "_dP_dV" = None ->
  GibbsExcessLiquid_dP_dV s = (Raise AttributeError, s).
Proof.
  intros H. unfold GibbsExcessLiquid_dP_dV.
  rewrite memo_float_miss by (reflexivity || exact H). reflexivity.
Qed.

Lemma dP_dT_raises s :
  no_pressure_derivative s ->
  is_Ok (GibbsExcessLiquid_dP_dT s).1 = false.
Proof.
  intros Hs. unfold GibbsExcessLiquid_dP_dT.
  rewrite memo_float_miss by (reflexivity || apply Hs).
  pose proof (preserves_dV_dT s Hs) as Hs1. unfold bind at 1.
  destruct (GibbsExcessLiquid_dV_dT s) as [[a|e] s1]; [| reflexivity].
  cbn [fst snd] in Hs1. unfold bind at 1.
  rewrite (dP_dV_raises s1) by apply Hs1. reflexivity.
Qed.

(** [GibbsExcessLiquid] has no pressure derivatives: on an object that has
    memoized neither [_dP_dV] nor [_dP_dT], [dP_dV()] raises
    [AttributeError] and changes nothing, and none of [dP_dT()],
    [dT_dP()] and [dV_dP()] returns. *)
Theorem GibbsExcessLiquid_no_pressure_derivatives (s : PhaseObj) :
  float_attrs s !! "_dP_dV" = None ->
  float_attrs s !! "_dP_dT" = None ->
  GibbsExcessLiquid_dP_dV s = (Raise AttributeError, s) /\
  is_Ok (GibbsExcessLiquid_dP_dT s).1 = false /\
  is_Ok (GibbsExcessLiquid_dT_dP s).1 = false /\
  is_Ok (GibbsExcessLiquid_dV_dP s).1 = false.
Proof.
  intros H1 H2.
  assert (Hs : no_pressure_derivative s) by (split; assumption).
  assert (HdT_dP : forall s', no_pressure_derivative s' ->
                     is_Ok (GibbsExcessLiquid_dT_dP s').1 = false).
  { intros s' Hs'. pose proof (dP_dT_raises s' Hs') as Hr.
    unfold GibbsExcessLiquid_dT_dP, Phase_dT_dP, bind.
    destruct (GibbsExcessLiquid_dP_dT s') as [[x|e] s1];
      [discriminate Hr | reflexivity]. }
  split; [apply dP_dV_raises, H1 |].
  split; [apply dP_dT_raises, Hs |].
  split; [apply HdT_dP, Hs |].
  unfold GibbsExcessLiquid_dV_dP.
  pose proof (preserves_dV_dT s Hs) as Hs1. unfold bind at 1.
  destruct (GibbsExcessLiquid_dV_dT s) as [[a|e] s1]; [| reflexivity].
  cbn [fst snd] in Hs1. pose proof (HdT_dP s1 Hs1) as Hr. unfold bind.
  destruct (GibbsExcessLiquid_dT_dP s1) as [[x|e] s2];
    [discriminate Hr | reflexivity].
Qed.

(** ** The enthalpy without pressure dependence *)

Lemma ignores_P_ret {A} (a : A) : ignores_P (ret a).
Proof. intros p s. reflexivity. Qed.
Lemma ignores_P_raise {A} e : ignores_P (@raise A e).
Proof. intros p s. reflexivity. Qed.
Lemma ignores_P_lift {A} (r : result A) : ignores_P (lift r).
Proof. intros p s. reflexivity. Qed.
Lemma ignores_P_attr {A} (f : PhaseObj -> option A) :
  (forall p s, f (with_P p s) = f s) -> ignores_P (attr f).
Proof. intros Hf p s. unfold attr. rewrite Hf. destruct (f s); reflexivity. Qed.
Lemma ignores_P_field {A} (f : PhaseObj -> A) :
  (forall p s, f (with_P p s) = f s) -> ignores_P (field f).
Proof. intros Hf p s. unfold field. rewrite Hf. reflexivity. Qed.
Lemma ignores_P_not_None {A} (o : option A) : ignores_P (not_None o).
Proof. intros p s. destruct o; reflexivity. Qed.
Lemma ignores_P_getattr_list name : ignores_P (getattr_list name).
Proof.
  intros p s. unfold getattr_list. cbn [list_attrs with_P].
  destruct (list_attrs s !! name); reflexivity.
Qed.
Lemma ignores_P_setattr_list name v : ignores_P (setattr_list name v).
Proof. intros p s. reflexivity. Qed.
Lemma ignores_P_setattr_float name v : ignores_P (setattr_float name v).
Proof. intros p s. reflexivity. Qed.

Lemma ignores_P_bind {A B} (m : Method A) (k : A -> Method B) :
  ignores_P m -> (forall a, ignores_P (k a)) -> ignores_P (bind m k).
Proof.
  intros Hm Hk p s. unfold bind. rewrite Hm.
  destruct (m s) as [[a|e] s1]; cbn [fst snd]; [apply Hk | reflexivity].
Qed.

Lemma ignores_P_try_except {A} (m h : Method A) catches :
  ignores_P m -> ignores_P h -> ignores_P (try_except m catches h).
Proof.
  intros Hm Hh p s. unfold try_except. rewrite Hm.
  destruct (m s) as [[a|e] s1]; cbn [fst snd]; [reflexivity |].
  destruct (catches e); [apply Hh | reflexivity].
Qed.

Lemma ignores_P_for_each {A B} (xs : list A) (body : A -> B -> Method B) :
  (forall x b, ignores_P (body x b)) ->
  forall acc, ignores_P (for_each xs body acc).
Proof.
  intros Hb. induction xs as [|x xs IH]; intros acc; cbn [for_each].
  - apply ignores_P_ret.
  - apply ignores_P_bind; [apply Hb | intros a; apply IH].
Qed.

Lemma ignores_P_comprehension {A B} (f : A -> Method B) (xs : list A) :
  (forall x, ignores_P (f x)) -> ignores_P (comprehension f xs).
Proof.
  intros Hf. induction xs as [|x xs IH]; cbn [comprehension].
  - apply ignores_P_ret.
  - apply ignores_P_bind; [apply Hf | intros y].
    apply ignores_P_bind; [apply IH | intros ys; apply ignores_P_ret].
Qed.

(** The steps of a proof that a method does not read the pressure. *)
Ltac ignores_P_steps :=
  repeat lazymatch goal with
  | |- ignores_P (bind _ _) => apply ignores_P_bind; [| intros ?]
  | |- ignores_P (try_except _ _ _) => apply ignores_P_try_except
  | |- ignores_P (for_each _ _ _) => apply ignores_P_for_each; intros ? ?
  | |- ignores_P (comprehension _ _) =>
      apply ignores_P_comprehension; intros ?
  | |- ignores_P (ret _) => apply ignores_P_ret
  | |- ignores_P (raise _) => apply ignores_P_raise
  | |- ignores_P (lift _) => apply ignores_P_lift
  | |- ignores_P (attr _) => apply ignores_P_attr; intros ? ?; reflexivity
  | |- ignores_P (field _) => apply ignores_P_field; intros ? ?; reflexivity
  | |- ignores_P (not_None _) => apply ignores_P_not_None
  | |- ignores_P (getattr_list _) => apply ignores_P_getattr_list
  | |- ignores_P (setattr_list _ _) => apply ignores_P_setattr_list
  | |- ignores_P (setattr_float _ _) => apply ignores_P_setattr_float
  | |- ignores_P (append_attr _ _) => unfold append_attr
  | |- ignores_P (if ?b then _ else _) => destruct b
  | |- ignores_P (let _ := _ in _) => cbv zeta
  end.

Lemma ignores_P_Cpig_integrals_pure : ignores_P Phase_Cpig_integrals_pure.
Proof.
  unfold Phase_Cpig_integrals_pure, Phase__Cp_integrals_pure_fast.
  ignores_P_steps.
Qed.

Lemma ignores_P_Hvaps : ignores_P GibbsExcessLiquid_Hvaps.
Proof. unfold GibbsExcessLiquid_Hvaps. ignores_P_steps. Qed.

(** Without the pressure dependence of the liquid enthalpy, [H()] does not
    depend on the pressure: on a snapshot with [P_DEPENDENT_H_LIQ] off and
    a pressure set, [H()] returns or raises the same at every other
    pressure. *)
Theorem GibbsExcessLiquid_H_pressure_independent (s : PhaseObj) (P P' : R) :
  P_DEPENDENT_H_LIQ s = false ->
  obj_P s = Some P ->
  (GibbsExcessLiquid_H (with_P (Some P') s)).1 = (GibbsExcessLiquid_H s).1.
Proof.
  intros Hmode HP. unfold GibbsExcessLiquid_H.
  destruct (float_attrs s !! "_H") as [h|] eqn:E.
  - rewrite (memo_float_cached "_H" _ s h E).
    rewrite (memo_float_cached "_H" _ (with_P (Some P') s) h E).
    reflexivity.
  - rewrite !memo_float_miss by (reflexivity || exact E).
    destruct (obj_T s) as [T|] eqn:HT;
      [| rewrite !(bind_eval_Raise _ _ _ AttributeError _)
           by (apply attr_eval_absent; exact HT); reflexivity ].
    rewrite (bind_eval_Ok _ _ (with_P (Some P') s) T (with_P (Some P') s))
      by (apply attr_eval; exact HT).
    rewrite (bind_eval_Ok _ _ s T s) by (apply attr_eval; exact HT).
    rewrite (bind_eval_Ok _ _ (with_P (Some P') s) P' (with_P (Some P') s))
      by (apply attr_eval; reflexivity).
    rewrite (bind_eval_Ok _ _ s P s) by (apply attr_eval; exact HP).
    destruct (obj_zs s) as [zs|] eqn:Hzs;
      [| rewrite !(bind_eval_Raise _ _ _ AttributeError _)
           by (apply attr_eval_absent; exact Hzs); reflexivity ].
    rewrite (bind_eval_Ok _ _ (with_P (Some P') s) zs (with_P (Some P') s))
      by (apply attr_eval; exact Hzs).
    rewrite (bind_eval_Ok _ _ s zs s) by (apply attr_eval; exact Hzs).
    rewrite (bind_eval_Ok _ _ (with_P (Some P') s) false
               (with_P (Some P') s))
      by (unfold field; cbn [P_DEPENDENT_H_LIQ with_P]; rewrite Hmode;
          reflexivity).
    rewrite (bind_eval_Ok _ _ s false s)
      by (unfold field; rewrite Hmode; reflexivity).
    cbv beta iota zeta.
    lazymatch goal with
    | |- (?M (with_P ?p ?s0)).1 = _ =>
        assert (HM : ignores_P M)
          by (repeat first [ apply ignores_P_Cpig_integrals_pure
                           | apply ignores_P_Hvaps
                           | progress ignores_P_steps ]);
        rewrite (HM p s0); reflexivity
    end.
Qed.

End Engine.


(** * Closed instances *)

Lemma log_zs_floor_witness :
  obj_zs ideal_gas_pure_example = Some [1; 0] /\
  list_attrs ideal_gas_pure_example !! "_log_zs" = None /\
  exists l : list R,
    (Phase_log_zs ideal_gas_pure_example).1 = Ok l /\
    length l = length [1; 0] /\
    forall (i : nat) (zi : R), [1; 0] !! i = Some zi ->
      (0 < zi -> l !! i = Some (ln zi)) /\
      (zi <= 0 -> l !! i = Some (-690.7755278982137)).
Proof.
  split; [reflexivity |]. split; [reflexivity |].
  apply (log_zs_floor ideal_gas_pure_example [1; 0]); reflexivity.
Defined.

(** C4 at the failing input: on the IdealGas snapshot of the end-to-end
    scenario [V()] raises [AttributeError] and so does not return
    [R*350/200000], which [V_ideal_gas()] returns. *)
Lemma IdealGas_V_missing_witness :
  cls ideal_gas_example = IdealGas /\
  obj_T ideal_gas_example = Some 350 /\
  obj_P ideal_gas_example = Some 200000 /\
  200000 <> 0 /\
  call_V no_fits ideal_gas_example = (Raise AttributeError, ideal_gas_example) /\
  (call_V no_fits ideal_gas_example).1 <> Ok (R_CODATA * 350 / 200000) /\
  Phase_rho (call_V no_fits) ideal_gas_example
  = (Raise AttributeError, ideal_gas_example) /\
  Phase_V_ideal_gas R_CODATA ideal_gas_example
  = (Ok (R_CODATA * 350 / 200000), ideal_gas_example).
Proof.
  split; [reflexivity |]. split; [reflexivity |]. split; [reflexivity |].
  split; [lra |].
  apply (IdealGas_V_missing R_CODATA no_fits ideal_gas_example 350 200000);
    [reflexivity | reflexivity | reflexivity | lra].
Defined.

(** C3, as stated, fails: with all three of [T], [P], [V] given
    [to_zs_TPV] raises no error and returns a snapshot. *)
Lemma to_zs_TPV_three_given_counterexample :
  (EOSGas_to_zs_TPV example_eos_class_call example_to_TP_zs_fast
     example_to_TV_zs [0.4; 0.6] (Some 350) (Some 200000) (Some 0.0144)
     eos_gas_example).1
  = Ok (EOSGas_copy eos_gas_example (Some 350) (Some 200000) [0.4; 0.6]
          (Some example_mix)) /\
  (EOSGas_to_zs_TPV example_eos_class_call example_to_TP_zs_fast
     example_to_TV_zs [0.4; 0.6] (Some 350) (Some 200000) (Some 0.0144)
     eos_gas_example).1
  <> Raise ValueError.
Proof.
  split; [reflexivity | discriminate].
Qed.

Lemma to_zs_TPV_two_of_three_witness :
  (EOSGas_solve_TV example_eos_class_call example_to_TV_zs 350 0.0144
     [0.4; 0.6] eos_gas_example).1 = Ok example_mix /\
  EOSGas_to_zs_TPV example_eos_class_call example_to_TP_zs_fast
    example_to_TV_zs [0.4; 0.6] (Some 350) None (Some 0.0144) eos_gas_example
  = (Ok (EOSGas_copy eos_gas_example (Some 350) (Some (eos_P example_mix))
           [0.4; 0.6] (Some example_mix)), eos_gas_example).
Proof.
  split; [reflexivity |].
  apply (to_zs_TPV_two_of_three example_eos_class_call example_to_TP_zs_fast
           example_to_TV_zs eos_gas_example [0.4; 0.6]).
  reflexivity.
Defined.

Lemma to_TP_zs_isolation_witness :
  (GibbsExcessLiquid_to_TP_zs false 400 101325 [1]
     (gibbs_liquid_example IdealSolution)).1
  = Ok (returned (gibbs_liquid_example IdealSolution)
          (GibbsExcessLiquid_to_TP_zs false 400 101325 [1]
             (gibbs_liquid_example IdealSolution))) /\
  no_memo (returned (gibbs_liquid_example IdealSolution)
             (GibbsExcessLiquid_to_TP_zs false 400 101325 [1]
                (gibbs_liquid_example IdealSolution))).
Proof.
  assert (H : (GibbsExcessLiquid_to_TP_zs false 400 101325 [1]
                 (gibbs_liquid_example IdealSolution)).1
              = Ok (returned (gibbs_liquid_example IdealSolution)
                      (GibbsExcessLiquid_to_TP_zs false 400 101325 [1]
                         (gibbs_liquid_example IdealSolution)))).
  { unfold returned.
    destruct (GibbsExcessLiquid_to_TP_zs false 400 101325 [1]
                (gibbs_liquid_example IdealSolution)).1 eqn:E;
      [reflexivity |].
    exfalso. revert E.
    unfold GibbsExcessLiquid_to_TP_zs, gibbs_liquid_example, returned.
    cbn -[Req_dec_T]. destruct (Req_dec_T 400 350) as [H|H]; [lra |].
    cbn. discriminate. }
  split; [exact H |].
  destruct (to_TP_zs_isolation example_eos_class_call example_to_TP_zs_fast
              (gibbs_liquid_example IdealSolution) 400 101325 [1] false)
    as (_ & (_ & Hnew) & _).
  destruct (Hnew _ H) as (_ & Hmemo & _). exact Hmemo.
Defined.

Lemma EOSGas_accessors_fall_back_witness :
  eos_mix eos_gas_example = Some example_mix /\
  obj_zs eos_gas_example = Some [0.4; 0.6] /\
  (EOSGas_V eos_gas_example).1 = Ok (root_V example_root).
Proof.
  split; [reflexivity |]. split; [reflexivity |].
  destruct (EOSGas_accessors_fall_back example_fugacity_coefficients
              eos_gas_example example_mix [0.4; 0.6] eq_refl eq_refl)
    as ((Hg & _) & _).
  apply Hg. reflexivity.
Defined.


Lemma dVms_sat_dT_T_ref_unbound_T_witness :
  Vms_sat_locked gibbs_locked_example = true /\
  list_attrs gibbs_locked_example !! "_dVms_sat_dT_T_ref" = None /\
  P_DEPENDENT_H_LIQ gibbs_locked_example = true /\
  use_IG_Cp gibbs_locked_example = false /\
  float_attrs gibbs_locked_example !! "_S" = None /\
  GibbsExcessLiquid_dVms_sat_dT_T_ref no_fits gibbs_locked_example
  = (Raise NameError, gibbs_locked_example) /\
  is_Ok (GibbsExcessLiquid_S R_CODATA no_fits no_fits gibbs_locked_example).1
  = false.
Proof.
  do 5 (split; [reflexivity |]).
  destruct (dVms_sat_dT_T_ref_unbound_T R_CODATA no_fits no_fits
              gibbs_locked_example eq_refl eq_refl) as (Hraise & Hpath).
  split; [exact Hraise |].
  destruct (Hpath eq_refl eq_refl) as (_ & HS). apply HS. reflexivity.
Defined.

(** * Evaluation at concrete snapshots *)

(** One step of a sequence and of a [try] block, from the outcome of the
    first call. *)
Lemma bind_run {A B} (m : Method A) (k : A -> Method B) s r s'
    (res : result B * PhaseObj) :
  m s = (r, s') ->
  match r with
  | Ok a => k a s'
  | Raise e => (Raise e, s')
  end = res ->
  bind m k s = res.
Proof. intros Hm <-. unfold bind. rewrite Hm. reflexivity. Qed.

Lemma try_run {A} (m h : Method A) (catches : exn -> bool) s r s'
    (res : result A * PhaseObj) :
  m s = (r, s') ->
  match r with
  | Ok a => (Ok a, s')
  | Raise e => if catches e then h s' else (Raise e, s')
  end = res ->
  try_except m catches h s = res.
Proof. intros Hm <-. unfold try_except. rewrite Hm. reflexivity. Qed.

(** Normal forms that keep the operations on reals and the attribute maps
    as they are; [norm_maps] keeps every lookup, [norm] the lookups in
    attribute maps only. *)
Ltac norm_maps t :=
  eval lazy -[Rlt_dec Rle_dec Rgt_dec Req_dec_T IZR Rdiv Rminus Rmax ln exp
              Rpower Rplus Rmult Ropp Rinv pow Z.pow_pos R_CODATA
              lookup insert empty gmap_lookup map_insert gmap_partial_alter
              gmap_empty String.eq_dec String.countable] in t.
Ltac norm t :=
  eval lazy -[Rlt_dec Rle_dec Rgt_dec Req_dec_T IZR Rdiv Rminus Rmax ln exp
              Rpower Rplus Rmult Ropp Rinv pow Z.pow_pos R_CODATA
              insert empty gmap_lookup map_insert gmap_partial_alter
              gmap_empty String.eq_dec String.countable] in t.

(** Decide the comparison of concrete reals that blocks the evaluation. *)
Ltac decide_with dec :=
  first [ destruct dec as [?|?]; [| exfalso; lra ]
        | destruct dec as [?|?]; [ exfalso; lra |] ].
Ltac decide_real :=
  match goal with
  | |- context [Rlt_dec ?a ?b] => decide_with (Rlt_dec a b)
  | |- context [Rle_dec ?a ?b] => decide_with (Rle_dec a b)
  | |- context [Rgt_dec ?a ?b] => decide_with (Rgt_dec a b)
  | |- context [Req_dec_T ?a ?b] => decide_with (Req_dec_T a b)
  end.

(** The method that a call names. *)
Ltac head_of t :=
  lazymatch t with
  | ?f _ => head_of f
  | _ => t
  end.

(** A call that does not call further methods: its normal form, with the
    lookups in the attribute maps resolved by the laws of maps. *)
Ltac run_leaf :=
  lazymatch goal with
  | |- ?l = ?r =>
      let l1 := norm_maps l in
      change (l1 = r);
      repeat first [ rewrite lookup_insert_eq
                   | rewrite lookup_empty
                   | rewrite lookup_insert_ne by discriminate ];
      lazymatch goal with
      | |- ?l2 = _ => let l3 := norm l2 in change (l3 = r)
      end;
      first [ decide_real; run_leaf | reflexivity ]
  end.

(** The condition of an [if]. *)
Ltac run_cond b :=
  let b' := norm b in
  change b with b';
  try decide_real.

(** Symbolic execution of a method on a concrete receiver: the goal is
    [m s = (?r, ?s')]. *)
Ltac run :=
  cbv beta iota zeta;
  lazymatch goal with
  | |- (_, _) = _ => reflexivity
  | |- bind _ _ _ = _ => eapply bind_run; [ run | run ]
  | |- try_except _ _ _ _ = _ => eapply try_run; [ run | run ]
  | |- (if ?b then _ else _) _ = _ => run_cond b; run
  | |- (if ?b then _ else _) = _ => run_cond b; run
  | |- for_each ?xs ?f ?a ?s = ?r =>
      let xs' := norm xs in
      lazymatch xs' with
      | [] => change (ret a s = r)
      | ?x :: ?t => change (bind (f x a) (fun a' => for_each t f a') s = r)
      end; run
  | |- comprehension ?f ?xs ?s = ?r =>
      let xs' := norm xs in
      lazymatch xs' with
      | [] => change (ret [] s = r)
      | ?x :: ?t =>
          change (bind (f x)
                    (fun y => bind (comprehension f t)
                                (fun ys => ret (y :: ys))) s = r)
      end; run
  | |- ret _ _ = _ => run_leaf
  | |- raise _ _ = _ => run_leaf
  | |- lift _ _ = _ => run_leaf
  | |- attr _ _ = _ => run_leaf
  | |- field _ _ = _ => run_leaf
  | |- not_None _ _ = _ => run_leaf
  | |- getattr_float _ _ = _ => run_leaf
  | |- getattr_list _ _ = _ => run_leaf
  | |- setattr_float _ _ _ = _ => run_leaf
  | |- setattr_list _ _ _ = _ => run_leaf
  | |- ?m _ = _ => let h := head_of m in unfold h; run
  end.

(** The logarithm lies below its tangent at 1. *)
Lemma ln_le_minus_1 (y : R) : 0 < y -> ln y <= y - 1.
Proof.
  intros Hy. pose proof (exp_ineq1_le (ln y)) as H.
  rewrite exp_ln in H by exact Hy. lra.
Qed.

(** The value that an evaluation leaves, with the logarithms of 1 gone. *)
Ltac simplify_reals :=
  lazymatch goal with
  | |- ?g => let g' := norm g in change g'
  end;
  repeat match goal with
         | |- context [ln ?x] => progress (replace x with 1 by lra)
         end;
  rewrite ?ln_1.

(** ** The entropy of the example liquid *)

(** The first call of [S()] on the example liquid, whatever the excess
    entropy [se] of its activity model. *)
Lemma gibbs_liquid_example_S (se : R) :
  exists s1,
    GibbsExcessLiquid_S R_CODATA no_fits no_fits
      (gibbs_liquid_example (constant_SE se))
    = (Ok (30 * ln (350 / 298.15)), s1).
Proof.
  assert (H : exists v s1,
             GibbsExcessLiquid_S R_CODATA no_fits no_fits
               (gibbs_liquid_example (constant_SE se)) = (Ok v, s1) /\
             v = 30 * ln (350 / 298.15)).
  { eexists. eexists. split; [run |]. simplify_reals. lra. }
  destruct H as (v & s1 & E & ->). exists s1. exact E.
Qed.

(** Two calls of [S()] on the example liquid whose activity model has the
    excess entropy 1: the first returns [30 * ln (350 / 298.15)], the second
    that value plus 1. *)
Lemma GibbsExcessLiquid_S_second_call_witness :
  let self := gibbs_liquid_example (constant_SE 1) in
  let first := GibbsExcessLiquid_S R_CODATA no_fits no_fits self in
  float_attrs self !! "_S" = None /\
  first.1 = Ok (30 * ln (350 / 298.15)) /\
  (GibbsExcessLiquid_S R_CODATA no_fits no_fits first.2).1
  = Ok (30 * ln (350 / 298.15) + 1).
Proof.
  intros self first. subst first.
  destruct (gibbs_liquid_example_S 1) as (s1 & E). fold self in E.
  split; [reflexivity |]. rewrite E. cbn [fst snd].
  split; [reflexivity |].
  rewrite (GibbsExcessLiquid_S_second_call R_CODATA no_fits no_fits self s1
             _ eq_refl E).
  reflexivity.
Defined.

(** ** The departure closure of the entropy *)

(** The departure closure of the entropy fails in every consistency mode
    (C1): on the one-component ideal solution at 350 K and 101325 Pa,
    whatever the two mode flags, [S() - (S_dep() + S_ideal_gas())] is not 0
    but [H_ideal_gas() - S_ideal_gas()], that is
    [30 * (350 - 298.15) - 30 * ln (350 / 298.15)], more than 1550. *)
Theorem S_departure_closure_gap (pressure_dependent ideal_gas_Cp : bool) :
  (S_closure_gap R_CODATA no_fits no_fits
     (gibbs_liquid_mode pressure_dependent ideal_gas_Cp)).1
  = Ok (30 * (350 - 298.15) - 30 * ln (350 / 298.15)) /\
  1550 < 30 * (350 - 298.15) - 30 * ln (350 / 298.15).
Proof.
  split.
  - assert (H : exists v s1,
               S_closure_gap R_CODATA no_fits no_fits
                 (gibbs_liquid_mode pressure_dependent ideal_gas_Cp)
               = (Ok v, s1) /\
               v = 30 * (350 - 298.15) - 30 * ln (350 / 298.15)).
    { destruct pressure_dependent, ideal_gas_Cp;
        (eexists; eexists; split; [run |]); simplify_reals; lra. }
    destruct H as (v & s1 & E & ->). rewrite E. reflexivity.
  - pose proof (ln_le_minus_1 (350 / 298.15) ltac:(lra)) as H. lra.
Qed.

(** ** The enthalpy of the example liquid *)

(** [H()], then [H_dep()], then [H_ideal_gas()] on the example liquid. *)
Lemma gibbs_liquid_example_H :
  exists s1 s2 s3,
    GibbsExcessLiquid_H R_CODATA no_fits no_fits
      (gibbs_liquid_example IdealSolution) = (Ok 1555.5, s1) /\
    GibbsExcessLiquid_H_dep R_CODATA no_fits no_fits s1 = (Ok 0, s2) /\
    Phase_H_ideal_gas s2 = (Ok 1555.5, s3).
Proof.
  assert (H : exists h d g s1 s2 s3,
             (GibbsExcessLiquid_H R_CODATA no_fits no_fits
                (gibbs_liquid_example IdealSolution) = (Ok h, s1) /\
              GibbsExcessLiquid_H_dep R_CODATA no_fits no_fits s1
              = (Ok d, s2) /\
              Phase_H_ideal_gas s2 = (Ok g, s3)) /\
             h = 1555.5 /\ d = 0 /\ g = 1555.5).
  { do 6 eexists. split; [split; [run | split; [run | run]] |].
    simplify_reals. unfold Rmax. repeat decide_real. repeat split; lra. }
  destruct H as (h & d & g & s1 & s2 & s3 & E & -> & -> & ->).
  exists s1, s2, s3. exact E.
Qed.

Lemma GibbsExcessLiquid_H_idempotent_witness :
  let self := gibbs_liquid_example IdealSolution in
  let first := GibbsExcessLiquid_H R_CODATA no_fits no_fits self in
  first.1 = Ok 1555.5 /\
  GibbsExcessLiquid_H R_CODATA no_fits no_fits first.2 = (Ok 1555.5, first.2).
Proof.
  intros self first. subst first.
  destruct gibbs_liquid_example_H as (s1 & s2 & s3 & E & _). fold self in E.
  rewrite E. cbn [fst snd]. split; [reflexivity |].
  apply (GibbsExcessLiquid_H_idempotent R_CODATA no_fits no_fits self s1
           1555.5 E).
Defined.

Lemma GibbsExcessLiquid_H_departure_closure_witness :
  let self := gibbs_liquid_example IdealSolution in
  let r1 := GibbsExcessLiquid_H R_CODATA no_fits no_fits self in
  let r2 := GibbsExcessLiquid_H_dep R_CODATA no_fits no_fits r1.2 in
  let r3 := Phase_H_ideal_gas r2.2 in
  r1.1 = Ok 1555.5 /\ r2.1 = Ok 0 /\ r3.1 = Ok 1555.5 /\
  returned 0 r1 = returned 0 r2 + returned 0 r3.
Proof.
  intros self r1 r2 r3. subst r1 r2 r3.
  destruct gibbs_liquid_example_H as (s1 & s2 & s3 & E1 & E2 & E3).
  fold self in E1. rewrite E1. cbn [fst snd]. rewrite E2. cbn [fst snd].
  rewrite E3. do 3 (split; [reflexivity |]).
  unfold returned. cbn [fst snd].
  apply (GibbsExcessLiquid_H_departure_closure R_CODATA no_fits no_fits
           self s1 s2 s3 _ _ _ E1 E2 E3).
Defined.

(** ** The derivative algebra of the example gas *)

Lemma eos_gas_example_first_derivatives :
  EOSGas_dT_dP eos_gas_example = (Ok (1.0 / 580), eos_gas_example) /\
  EOSGas_dV_dT eos_gas_example
  = (Ok (- 580 / -13800000), eos_gas_example) /\
  EOSGas_dV_dP eos_gas_example
  = (Ok (- (- 580 / -13800000) * (1.0 / 580)), eos_gas_example) /\
  EOSGas_dT_dV eos_gas_example
  = (Ok (1 / (- 580 / -13800000)), eos_gas_example).
Proof.
  destruct (EOSGas_first_derivatives_eval eos_gas_example example_mix
              example_root eq_refl eq_refl) as (E1 & E2 & E3 & E4).
  cbn [root_dP_dT root_dP_dV example_root] in E1, E2, E3, E4.
  rewrite div_nonzero in E1 by lra.
  rewrite div_nonzero in E2 by lra.
  rewrite !div_nonzero in E3 by lra.
  rewrite div_nonzero in E4 by lra.
  cbn [rbind] in E3, E4.
  rewrite div_nonzero in E4 by lra.
  repeat split; assumption.
Qed.

Lemma EOSGas_cyclic_relation_witness :
  eos_mix eos_gas_example = Some example_mix /\
  EOSGas_root example_mix = Some example_root /\
  EOSGas_dT_dP eos_gas_example = (Ok (1.0 / 580), eos_gas_example) /\
  EOSGas_dV_dT eos_gas_example
  = (Ok (- 580 / -13800000), eos_gas_example) /\
  EOSGas_dV_dP eos_gas_example
  = (Ok (- (- 580 / -13800000) * (1.0 / 580)), eos_gas_example) /\
  EOSGas_dT_dV eos_gas_example
  = (Ok (1 / (- 580 / -13800000)), eos_gas_example) /\
  1.0 / 580 * 580 = 1 /\
  - (- 580 / -13800000) * (1.0 / 580) * -13800000 = 1 /\
  1 / (- 580 / -13800000) * (- 580 / -13800000) = 1 /\
  - 580 / -13800000 * (1.0 / 580) * -13800000 = -1.
Proof.
  destruct eos_gas_example_first_derivatives as (E1 & E2 & E3 & E4).
  split; [reflexivity |]. split; [reflexivity |].
  split; [exact E1 |]. split; [exact E2 |].
  split; [exact E3 |]. split; [exact E4 |].
  apply (EOSGas_cyclic_relation eos_gas_example example_mix example_root
           _ _ _ _ _ _ _ _ eq_refl eq_refl E1 E2 E3 E4).
Defined.

Lemma EOSGas_isochoric_zero_witness :
  eos_mix flat_eos_gas_example = Some flat_mix /\
  EOSGas_root flat_mix = Some flat_root /\
  EOSGas_dV_dP flat_eos_gas_example
  = (Raise ZeroDivisionError, flat_eos_gas_example).
Proof.
  split; [reflexivity |]. split; [reflexivity |].
  apply (EOSGas_isochoric_zero flat_eos_gas_example flat_mix flat_root
           eq_refl eq_refl); simpl; lra.
Defined.

Lemma EOSGas_density_basis_witness :
  let V := 0.0144 in
  let dV_dT := - 580 / -13800000 in
  let dV_dP := - dV_dT * (1.0 / 580) in
  let dT_dV := 1 / dV_dT in
  eos_mix eos_gas_example = Some example_mix /\
  EOSGas_root example_mix = Some example_root /\
  EOSGas_rho eos_gas_example = (Ok (1.0 / V), eos_gas_example) /\
  EOSGas_dP_drho eos_gas_example
  = (Ok (- V * V * -13800000), eos_gas_example) /\
  EOSGas_drho_dP eos_gas_example
  = (Ok (- dV_dP / (V * V)), eos_gas_example) /\
  EOSGas_dT_drho eos_gas_example
  = (Ok (- V * V * dT_dV), eos_gas_example) /\
  EOSGas_drho_dT eos_gas_example
  = (Ok (- dV_dT / (V * V)), eos_gas_example) /\
  1.0 / V * V = 1 /\
  - V * V * -13800000 * (- dV_dP / (V * V)) = 1 /\
  - V * V * dT_dV * (- dV_dT / (V * V)) = 1.
Proof.
  intros V dV_dT dV_dP dT_dV.
  destruct eos_gas_example_first_derivatives as (_ & E2 & E3 & E4).
  destruct (EOSGas_density_eval eos_gas_example example_mix example_root
              eq_refl eq_refl) as (D1 & D2 & D3 & D4 & D5).
  rewrite E3 in D3. rewrite E4 in D4. rewrite E2 in D5.
  cbn [fst rbind root_V root_dP_dV example_root] in D1, D2, D3, D4, D5.
  rewrite (div_nonzero 1.0 0.0144) in D1 by lra.
  rewrite div_nonzero in D3 by lra.
  rewrite div_nonzero in D5 by lra.
  split; [reflexivity |]. split; [reflexivity |].
  split; [exact D1 |]. split; [exact D2 |]. split; [exact D3 |].
  split; [exact D4 |]. split; [exact D5 |].
  apply (EOSGas_density_basis eos_gas_example example_mix example_root
           _ _ _ _ _ _ _ _ _ _ eq_refl eq_refl D1 D2 D3 D4 D5).
Defined.

(** ** Formation properties of an example gas *)

Lemma IdealGas_G_formation_witness :
  length [-74520; -83820] = length [-50490; -31920] /\
  (Phase_G_formation_ideal_gas
       (IdealGas_snapshot 350 200000 [0.4; 0.6]
          (IdealGas_init None (Some [-74520; -83820])
             (Some [-50490; -31920])))).1
    = Ok (returned 0 (Phase_G_formation_ideal_gas
            (IdealGas_snapshot 350 200000 [0.4; 0.6]
               (IdealGas_init None (Some [-74520; -83820])
                  (Some [-50490; -31920]))))) /\
    returned 0 (Phase_G_formation_ideal_gas
                  (IdealGas_snapshot 350 200000 [0.4; 0.6]
                     (IdealGas_init None (Some [-74520; -83820])
                        (Some [-50490; -31920]))))
    = 0.4 * -50490 + 0.6 * -31920.
Proof.
  split; [reflexivity |].
  destruct (IdealGas_G_formation None [-74520; -83820] [-50490; -31920]
              [0.4; 0.6] 350 200000 eq_refl) as (G & s' & E & _ & HG).
  unfold returned. rewrite E. cbn [fst].
  split; [reflexivity |]. rewrite HG. unfold mole_average. simpl. lra.
Defined.

(** ** Saturation pressures of the locked example *)

Lemma locked_Psats_example_Psats :
  exists l s1, GibbsExcessLiquid_Psats locked_Psats_example = (Ok l, s1).
Proof. eexists. eexists. run. Qed.

Lemma Psats_locked_not_negative_witness :
  Psats_locked locked_Psats_example = true /\
  list_attrs locked_Psats_example !! "_Psats" = None /\
  is_Ok (GibbsExcessLiquid_Psats locked_Psats_example).1 = true /\
  Forall (fun p => 0 <= p)
    (returned [] (GibbsExcessLiquid_Psats locked_Psats_example)).
Proof.
  split; [reflexivity |]. split; [reflexivity |].
  destruct locked_Psats_example_Psats as (l & s1 & E).
  unfold returned. rewrite E. cbn [fst is_Ok]. split; [reflexivity |].
  apply (Psats_locked_not_negative locked_Psats_example s1 l eq_refl eq_refl E).
Defined.

(** ** The derivative of a saturation pressure below its fit range *)

Lemma dPsats_dT_derivative_outside_fit_witness :
  let p := exp ((150 - 200) * 0 + 11.5) in
  fit_0 (constant_fits 11.5) !! 0%nat = Some 200 /\
  fit_3 (constant_fits 11.5) !! 0%nat = Some 1000 /\
  150 < 200 /\
  Psat_fast (constant_fits 11.5) 150 0 = Ok p /\
  dPsat_dT_fast (constant_fits 11.5) [p] 150 0 = Ok (0 * p) /\
  derivable_pt_lim (fun T => value_of (Psat_fast (constant_fits 11.5) T 0))
    150 (0 * p).
Proof.
  intros p.
  assert (Hp : Psat_fast (constant_fits 11.5) 150 0 = Ok p).
  { unfold Psat_fast, getitem. cbn -[Rlt_dec Rgt_dec].
    destruct (Rlt_dec 150 200); [reflexivity | lra]. }
  assert (Hd : dPsat_dT_fast (constant_fits 11.5) [p] 150 0 = Ok (0 * p)).
  { unfold dPsat_dT_fast, getitem. cbn -[Rlt_dec Rgt_dec].
    destruct (Rlt_dec 150 200); [reflexivity | lra]. }
  split; [reflexivity |]. split; [reflexivity |]. split; [lra |].
  split; [exact Hp |]. split; [exact Hd |].
  apply (dPsats_dT_derivative_outside_fit (constant_fits 11.5) 0 [p] 150
           200 1000 p (0 * p)); try reflexivity; try assumption.
  left. lra.
Defined.

(** ** The fast integral of Cp/T of the locked example *)

Lemma documented_horner_log_spec : horner_log_spec documented_horner_log.
Proof.
  intros cs log_coeff x Hx. unfold documented_horner_log.
  rewrite (log_pos x Hx). reflexivity.
Qed.


(** ** The example gas read as a liquid *)

Lemma EOSLiquid_mirrors_EOSGas_witness :
  eos_mix eos_gas_example = Some example_mix /\
  root_l example_mix = None /\
  EOSLiquid_V eos_gas_example = (Ok 0.0144, eos_gas_example) /\
  EOSGas_V eos_gas_example = (Ok 0.0144, eos_gas_example).
Proof.
  split; [reflexivity |]. split; [reflexivity |].
  destruct (EOSLiquid_mirrors_EOSGas root_V eos_gas_example example_mix
              eq_refl) as (_ & Hsame).
  unfold EOSLiquid_V, EOSGas_V. rewrite (Hsame (or_intror eq_refl)).
  split; reflexivity.
Defined.

(** ** The table of the locked example *)

Lemma setup_Cpigs_table_shape_witness :
  exists d : CpsData,
    setup_Cpigs documented_horner_log example_best_fit_integral_value
      example_best_fit_integral_over_T_value (Some [locked_Cp_example])
    = Ok (true, Some d) /\
    length (Cps_9 d) = 1%nat /\
    Cp_integral_fast d 350 1 = Raise IndexError.
Proof.
  assert (Hs : exists d : CpsData,
             setup_Cpigs documented_horner_log example_best_fit_integral_value
               example_best_fit_integral_over_T_value
               (Some [locked_Cp_example]) = Ok (true, Some d)).
  { eexists.
    unfold setup_Cpigs, setup_9, setup_10, documented_horner_log, log.
    cbn -[Rlt_dec].
    destruct (Rlt_dec 0 200) as [_|H]; [| exfalso; lra].
    destruct (Rlt_dec 0 1000) as [_|H]; [| exfalso; lra].
    cbn. reflexivity. }
  destruct Hs as (d & Hs). exists d. split; [exact Hs |].
  destruct (setup_Cpigs_table_shape documented_horner_log
              example_best_fit_integral_value
              example_best_fit_integral_over_T_value
              (Some [locked_Cp_example]) true (Some d) Hs)
    as (_ & _ & Hshape).
  destruct (Hshape d [locked_Cp_example] eq_refl eq_refl)
    as (_ & _ & _ & _ & _ & _ & _ & _ & _ & L9 & _ & _ & _ & _ & _ & _ & Hidx).
  split; [exact L9 |].
  destruct (Hidx 350 1%nat) as (_ & Hout). apply Hout. simpl. lia.
Defined.

(** ** Saturation pressures of the Henry's-law example without data *)

Lemma henry_example_Psats :
  exists s1,
    GibbsExcessLiquid_Psats henry_example = (Raise TypeError, s1) /\
    GibbsExcessLiquid_Psats s1 = (Ok [101325], s1).
Proof.
  eexists. split; [run |].
  unfold GibbsExcessLiquid_Psats. apply try_eval_Ok.
  unfold getattr_list. cbn [list_attrs with_attrs].
  rewrite lookup_insert_eq. reflexivity.
Qed.

Lemma Psats_memoized_after_any_call_witness :
  obj_T henry_example = Some 350 /\
  obj_cmps henry_example = Some (range 1) /\
  (GibbsExcessLiquid_Psats henry_example).1 = Raise TypeError /\
  GibbsExcessLiquid_Psats (GibbsExcessLiquid_Psats henry_example).2
  = (Ok [101325], (GibbsExcessLiquid_Psats henry_example).2) /\
  exists l,
    GibbsExcessLiquid_Psats (GibbsExcessLiquid_Psats henry_example).2
    = (Ok l, (GibbsExcessLiquid_Psats henry_example).2) /\
    forall v, (GibbsExcessLiquid_Psats henry_example).1 = Ok v -> v = l.
Proof.
  split; [reflexivity |]. split; [reflexivity |].
  destruct henry_example_Psats as (s1 & E & E2).
  split; [rewrite E; reflexivity |].
  split; [rewrite E; exact E2 |].
  apply (Psats_memoized_after_any_call henry_example 350 (range 1));
    reflexivity.
Defined.

(** ** Enthalpy and entropy of the [EOSGas] example *)

(** The departure property [X] of a snapshot holding the example
    solution. *)
Lemma example_mix_accessor (X : EosRoot -> R) (s : PhaseObj) :
  eos_mix s = Some example_mix ->
  EOS_accessor root_g root_l X s = (Ok (X example_root), s).
Proof.
  intros Hm. rewrite (EOS_accessor_eval root_g root_l X s example_mix Hm).
  reflexivity.
Qed.

Lemma eos_gas_Cp_example_H :
  exists h s1, EOSGas_H eos_gas_Cp_example = (Ok h, s1).
Proof.
  eexists. eexists. unfold EOSGas_H.
  rewrite memo_float_miss by reflexivity.
  unfold EOSGas_H_dep.
  rewrite (bind_eval_Ok _ _ _ _ _
             (example_mix_accessor root_H_dep eos_gas_Cp_example eq_refl)).
  run.
Qed.

Lemma eos_gas_Cp_example_S :
  exists v s1, EOSGas_S R_CODATA eos_gas_Cp_example = (Ok v, s1).
Proof.
  eexists. eexists. unfold EOSGas_S.
  rewrite memo_float_miss by reflexivity.
  do 9 (eapply bind_run; [run | cbv beta iota zeta]).
  unfold EOSGas_S_dep.
  lazymatch goal with
  | |- bind _ _ ?s = _ =>
      rewrite (bind_eval_Ok _ _ _ _ _
                 (example_mix_accessor root_S_dep s eq_refl))
  end.
  run.
Qed.

Lemma EOSGas_H_departure_closure_witness :
  float_attrs eos_gas_Cp_example !! "_H" = None /\
  float_attrs eos_gas_Cp_example !! "_H_ideal_gas" = None /\
  is_Ok (EOSGas_H eos_gas_Cp_example).1 = true /\
  exists d g s2 zs ints,
    EOSGas_H_dep (EOSGas_H eos_gas_Cp_example).2
    = (Ok d, (EOSGas_H eos_gas_Cp_example).2) /\
    Phase_H_ideal_gas (EOSGas_H eos_gas_Cp_example).2 = (Ok g, s2) /\
    obj_zs (EOSGas_H eos_gas_Cp_example).2 = Some zs /\
    list_attrs (EOSGas_H eos_gas_Cp_example).2 !! "_Cpig_integrals_pure"
    = Some ints /\
    returned 0 (EOSGas_H eos_gas_Cp_example)
    = fold_left (fun H p => H + fst p * snd p) (zip zs ints) d /\
    g = fold_left (fun H p => H + fst p * snd p) (zip zs ints) 0.0 /\
    returned 0 (EOSGas_H eos_gas_Cp_example) = d + g.
Proof.
  split; [reflexivity |]. split; [reflexivity |].
  destruct eos_gas_Cp_example_H as (h & s1 & E).
  unfold returned. rewrite E. cbn [fst snd is_Ok]. split; [reflexivity |].
  apply (EOSGas_H_departure_closure eos_gas_Cp_example s1 h
           eq_refl eq_refl E).
Defined.

Lemma EOSGas_S_departure_closure_witness :
  float_attrs eos_gas_Cp_example !! "_S" = None /\
  float_attrs eos_gas_Cp_example !! "_S_ideal_gas" = None /\
  is_Ok (EOSGas_S R_CODATA eos_gas_Cp_example).1 = true /\
  exists d g s2,
    EOSGas_S_dep (EOSGas_S R_CODATA eos_gas_Cp_example).2
    = (Ok d, (EOSGas_S R_CODATA eos_gas_Cp_example).2) /\
    Phase_S_ideal_gas R_CODATA (EOSGas_S R_CODATA eos_gas_Cp_example).2
    = (Ok g, s2) /\
    returned 0 (EOSGas_S R_CODATA eos_gas_Cp_example) = g + d.
Proof.
  split; [reflexivity |]. split; [reflexivity |].
  destruct eos_gas_Cp_example_S as (v & s1 & E).
  unfold returned. rewrite E. cbn [fst snd is_Ok]. split; [reflexivity |].
  apply (EOSGas_S_departure_closure R_CODATA eos_gas_Cp_example s1 v
           eq_refl eq_refl E).
Defined.

(** ** Gibbs energy of the [EOSGas] example *)

Lemma eos_gas_Cp_example_G :
  exists g s1, EOSGas_G R_CODATA eos_gas_Cp_example = (Ok g, s1).
Proof.
  eexists. eexists. unfold EOSGas_G, Phase_G.
  eapply bind_run.
  { unfold EOSGas_H. rewrite memo_float_miss by reflexivity.
    unfold EOSGas_H_dep.
    rewrite (bind_eval_Ok _ _ _ _ _
               (example_mix_accessor root_H_dep eos_gas_Cp_example eq_refl)).
    run. }
  cbv beta iota zeta.
  eapply bind_run; [run | cbv beta iota zeta].
  eapply bind_run.
  { unfold EOSGas_S. eapply try_run; [run | cbv beta iota zeta].
    lazymatch goal with
    | |- (if ?b then ?x else _) = ?r => change (x = r)
    end.
    do 9 (eapply bind_run; [run | cbv beta iota zeta]).
    unfold EOSGas_S_dep.
    lazymatch goal with
    | |- bind _ _ ?s = _ =>
        rewrite (bind_eval_Ok _ _ _ _ _
                   (example_mix_accessor root_S_dep s eq_refl))
    end.
    run. }
  cbv beta iota zeta. run.
Qed.

Lemma EOSGas_G_minus_A_witness :
  float_attrs eos_gas_Cp_example !! "_H" = None /\
  float_attrs eos_gas_Cp_example !! "_S" = None /\
  is_Ok (EOSGas_G R_CODATA eos_gas_Cp_example).1 = true /\
  exists a T P V h v,
    obj_T (EOSGas_G R_CODATA eos_gas_Cp_example).2 = Some T /\
    obj_P (EOSGas_G R_CODATA eos_gas_Cp_example).2 = Some P /\
    float_attrs (EOSGas_G R_CODATA eos_gas_Cp_example).2 !! "_H" = Some h /\
    float_attrs (EOSGas_G R_CODATA eos_gas_Cp_example).2 !! "_S" = Some v /\
    EOSGas_V (EOSGas_G R_CODATA eos_gas_Cp_example).2
    = (Ok V, (EOSGas_G R_CODATA eos_gas_Cp_example).2) /\
    EOSGas_A R_CODATA (EOSGas_G R_CODATA eos_gas_Cp_example).2
    = (Ok a, (EOSGas_G R_CODATA eos_gas_Cp_example).2) /\
    returned 0 (EOSGas_G R_CODATA eos_gas_Cp_example) = h - T * v /\
    a = h - P * V - T * v /\
    returned 0 (EOSGas_G R_CODATA eos_gas_Cp_example) - a = P * V.
Proof.
  split; [reflexivity |]. split; [reflexivity |].
  destruct eos_gas_Cp_example_G as (g & s1 & E).
  unfold returned. rewrite E. cbn [fst snd is_Ok]. split; [reflexivity |].
  apply (EOSGas_G_minus_A R_CODATA eos_gas_Cp_example s1 g
           eq_refl eq_refl E).
Defined.

(** ** Fugacities of the example liquid with locked vapour pressures *)

Lemma locked_Psats_example_value :
  exists sp,
    GibbsExcessLiquid_Psats locked_Psats_example
    = (Ok [exp (0 * 350 + 11.5)], sp).
Proof. eexists. run. Qed.

Lemma locked_Psats_example_fugacities :
  exists fs s1,
    GibbsExcessLiquid_fugacities R_CODATA no_fits example_gammas
      example_phi_sat locked_Psats_example = (Ok fs, s1).
Proof.
  destruct (uncorrected_fugacities R_CODATA no_fits example_gammas
              example_phi_sat locked_Psats_example 101325 [1] [1]
              [exp (0 * 350 + 11.5)]) as [s1 E];
    [ reflexivity | reflexivity | reflexivity | lra | reflexivity
    | reflexivity | reflexivity | reflexivity | reflexivity | reflexivity
    | constructor; [lra | constructor]
    | exact locked_Psats_example_value
    | reflexivity
    | constructor; [apply exp_pos | constructor]
    | ].
  eexists. exists s1. exact E.
Qed.

Lemma GibbsExcessLiquid_modified_Raoult_witness :
  use_Poynting locked_Psats_example = false /\
  use_phis_sat locked_Psats_example = false /\
  obj_P locked_Psats_example = Some 101325 /\
  0 < 101325 /\
  obj_zs locked_Psats_example = Some [1] /\
  list_attrs locked_Psats_example = ∅ /\
  example_gammas (GibbsExcessModel locked_Psats_example) = Ok [1] /\
  exists fs s1,
    GibbsExcessLiquid_fugacities R_CODATA no_fits example_gammas
      example_phi_sat locked_Psats_example = (Ok fs, s1) /\
    length fs = 1%nat /\
    fs !! 0%nat
    = Some (101325 * 1
            * exp (ln (1 * exp (0 * 350 + 11.5) * 1.0 * 1.0
                       * (1.0 / 101325)))) /\
    fs !! 0%nat = Some (1 * 1 * exp (0 * 350 + 11.5)).
Proof.
  split; [reflexivity |]. split; [reflexivity |]. split; [reflexivity |].
  split; [lra |]. split; [reflexivity |]. split; [reflexivity |].
  split; [reflexivity |].
  destruct locked_Psats_example_fugacities as (fs & s1 & E).
  destruct (GibbsExcessLiquid_modified_Raoult R_CODATA no_fits example_gammas
              example_phi_sat locked_Psats_example 101325 [1] [1]
              [exp (0 * 350 + 11.5)])
    with (fs := fs) (s1 := s1)
    as (L & V0 & V);
    [ reflexivity | reflexivity | reflexivity | lra | reflexivity
    | reflexivity | reflexivity | reflexivity | reflexivity | reflexivity
    | constructor; [lra | constructor]
    | exact locked_Psats_example_value
    | reflexivity
    | constructor; [apply exp_pos | constructor]
    | exact E
    | ].
  exists fs, s1. split; [exact E |]. split; [exact L |]. split.
  - apply (V0 0%nat 1 1 (exp (0 * 350 + 11.5))); reflexivity.
  - apply (V 0%nat 1 1 (exp (0 * 350 + 11.5))); reflexivity.
Defined.

(** ** The pressure derivatives of the example liquid *)

Lemma GibbsExcessLiquid_no_pressure_derivatives_witness :
  float_attrs (gibbs_liquid_example IdealSolution) !! "_dP_dV" = None /\
  float_attrs (gibbs_liquid_example IdealSolution) !! "_dP_dT" = None /\
  GibbsExcessLiquid_dP_dV example_property_derivative_P
    (gibbs_liquid_example IdealSolution)
  = (Raise AttributeError, gibbs_liquid_example IdealSolution) /\
  is_Ok (GibbsExcessLiquid_dP_dT no_fits example_property_derivative_P
           (gibbs_liquid_example IdealSolution)).1 = false /\
  is_Ok (GibbsExcessLiquid_dT_dP no_fits example_property_derivative_P
           (gibbs_liquid_example IdealSolution)).1 = false /\
  is_Ok (GibbsExcessLiquid_dV_dP no_fits example_property_derivative_P
           (gibbs_liquid_example IdealSolution)).1 = false.
Proof.
  split; [reflexivity |]. split; [reflexivity |].
  apply (GibbsExcessLiquid_no_pressure_derivatives no_fits
           example_property_derivative_P (gibbs_liquid_example IdealSolution));
    reflexivity.
Defined.

(** ** The enthalpy of the example liquid without pressure dependence *)

Lemma gibbs_liquid_mode_H_returns :
  exists h s1,
    GibbsExcessLiquid_H R_CODATA no_fits no_fits (gibbs_liquid_mode false true)
    = (Ok h, s1).
Proof. eexists. eexists. run. Qed.

Lemma GibbsExcessLiquid_H_pressure_independent_witness :
  P_DEPENDENT_H_LIQ (gibbs_liquid_mode false true) = false /\
  obj_P (gibbs_liquid_mode false true) = Some 101325 /\
  is_Ok (GibbsExcessLiquid_H R_CODATA no_fits no_fits
           (gibbs_liquid_mode false true)).1 = true /\
  (GibbsExcessLiquid_H R_CODATA no_fits no_fits
     (with_P (Some 5000000) (gibbs_liquid_mode false true))).1
  = (GibbsExcessLiquid_H R_CODATA no_fits no_fits
       (gibbs_liquid_mode false true)).1.
Proof.
  split; [reflexivity |]. split; [reflexivity |]. split.
  - destruct gibbs_liquid_mode_H_returns as (h & s1 & E). rewrite E.
    reflexivity.
  - apply (GibbsExcessLiquid_H_pressure_independent R_CODATA no_fits no_fits
             (gibbs_liquid_mode false true) 101325 5000000); reflexivity.
Defined.
